(** * Style analyzer: a shallow embedding of [backend/style_analyzer.py]

    The development follows the Python module function by function.

    - A Python [str] is a list of Unicode code points ([N]).
    - The regular expressions of the source are written out as the scanners
      they denote (leftmost match, alternatives in order, greedy repetition).
    - Python's character classes are exact on the ASCII range, on white
      space, and on the code points the source names.  What the Unicode
      database says about the other code points is a parameter
      ([UnicodeDB]).
    - The iteration order of a Python [set] depends on the hash seed of the
      process; it is a parameter too ([HashSeed]).
    - The metrics that the source rounds are computed on exact rationals
      ([Q]), a standard deviation being kept as the rational under the
      square root ([Surd]), and [round(x, n)] is decimal rounding of the
      exact value, half to even.  The double of the source can fall on the
      other side only where the exact value is at a decimal tie, or within
      the rounding error of one.
    - [analyze_rhythm] compares a double that is not rounded with 0.7 and
      0.4, and at a threshold the rounding of the double decides the class:
      that double is a parameter ([Binary64]), and the thresholds are the
      doubles that the literals denote.  The other comparisons of the
      source are between rounded metrics and short decimal literals, where
      the order of the doubles is the order of the decimals. *)

From Stdlib Require Import String Ascii.
From Stdlib Require Import List Bool Arith NArith ZArith QArith Qround Lia.
From Stdlib Require Import Permutation Sorted Reals Qreals Lra.
Import Corelib.Init.Datatypes.
Import ListNotations.
Close Scope Q_scope.

Set Implicit Arguments.

(** ** Strings *)

(** A character is a code point, a string a list of them. *)
Abbreviation char := N (only parsing).
Abbreviation str := (list N) (only parsing).

(** An ASCII literal of the source as a list of code points. *)
Definition lit (s : string) : str := map N_of_ascii (list_ascii_of_string s).
Arguments lit s%_string.

Fixpoint str_eqb (a b : str) : bool :=
  match a, b with
  | [], [] => true
  | x :: a', y :: b' => N.eqb x y && str_eqb a' b'
  | _, _ => false
  end.

Fixpoint list_eqb (A : Type) (eqb : A -> A -> bool) (a b : list A) : bool :=
  match a, b with
  | [], [] => true
  | x :: a', y :: b' => eqb x y && list_eqb eqb a' b'
  | _, _ => false
  end.

Definition in_range (lo hi c : N) : bool := N.leb lo c && N.leb c hi.

Definition is_ascii (c : char) : bool := N.ltb c 128.

(** ** The parameters of the Python runtime *)

(** The Unicode database on code points above 127. *)
Class UnicodeDB : Type := {
  uni_alnum : N -> bool;          (* str.isalnum of one code point *)
  uni_decimal : N -> bool;        (* general category Nd, the class \d *)
  uni_digit : N -> bool;          (* str.isdigit of one code point *)
  uni_lower : list N -> list N    (* str.lower of a string that is not ASCII *)
}.

(** The order in which a set of strings is stored under one hash seed. *)
Class HashSeed : Type := {
  set_order : list str -> list str
}.

(** The binary64 arithmetic of numpy.  [analyze_rhythm] compares with 0.7
    and 0.4 the double that [np.std(lengths) / max(np.mean(lengths), 1)]
    evaluates to, every operation rounded to the nearest double.  That
    double, finite for every list of lengths, is given as the rational
    number that it is. *)
Class Binary64 : Type := {
  float_cv : list nat -> Q
}.

(** ** Character classes *)

(** [Py_UNICODE_ISSPACE]: the class [\s] and the characters of [str.strip]
    and [str.split]. *)
Definition is_space (c : char) : bool :=
  in_range 9 13 c || in_range 28 32 c || N.eqb c 133 || N.eqb c 160
  || N.eqb c 5760 || in_range 8192 8202 c || N.eqb c 8232 || N.eqb c 8233
  || N.eqb c 8239 || N.eqb c 8287 || N.eqb c 12288.

Definition ascii_alnum (c : char) : bool :=
  in_range 48 57 c || in_range 65 90 c || in_range 97 122 c.

Definition ascii_upper (c : char) : bool := in_range 65 90 c.

(** The four letters above 127 that match an ASCII letter under
    [re.IGNORECASE]: U+0130, U+0131 (i), U+017F (s), U+212A (k). *)
Definition latin_variant (c : char) : bool :=
  N.eqb c 304 || N.eqb c 305 || N.eqb c 383 || N.eqb c 8490.

Definition ascii_lower_char (c : char) : char :=
  if ascii_upper c then (c + 32)%N else c.

Section Classes.
Context {U : UnicodeDB}.

(** The class [\w]: alphanumeric or underscore.  No white space is
    alphanumeric. *)
Definition is_word (c : char) : bool :=
  if is_ascii c then ascii_alnum c || N.eqb c 95
  else negb (is_space c) && (latin_variant c || uni_alnum c).

(** The class [\d]. *)
Definition is_decimal (c : char) : bool :=
  if is_ascii c then in_range 48 57 c else uni_decimal c.

(** [str.lower]. *)
Definition lower (s : str) : str :=
  if forallb is_ascii s then map ascii_lower_char s else uni_lower s.

(** [str.isdigit]. *)
Definition isdigit (s : str) : bool :=
  match s with
  | [] => false
  | _ => forallb (fun c => if is_ascii c then in_range 48 57 c else uni_digit c) s
  end.

End Classes.

(** ** String methods *)

Fixpoint lstrip (s : str) : str :=
  match s with
  | [] => []
  | c :: r => if is_space c then lstrip r else s
  end.

Definition rstrip (s : str) : str := rev (lstrip (rev s)).

Definition strip (s : str) : str := rstrip (lstrip s).

(** [sep.join(l)]. *)
Fixpoint join (sep : str) (l : list str) : str :=
  match l with
  | [] => []
  | [x] => x
  | x :: r => x ++ sep ++ join sep r
  end.

(** [s.split(sep)] for a separator of one character. *)
Fixpoint split_on (sep : char) (acc : str) (s : str) : list str :=
  match s with
  | [] => [rev acc]
  | c :: r => if N.eqb c sep then rev acc :: split_on sep [] r
              else split_on sep (c :: acc) r
  end.

(** [s.split()]: the maximal runs of characters that are not white space. *)
Fixpoint split_ws (acc : str) (s : str) : list str :=
  match s with
  | [] => match acc with [] => [] | _ => [rev acc] end
  | c :: r =>
      if is_space c
      then match acc with [] => split_ws [] r | _ => rev acc :: split_ws [] r end
      else split_ws (c :: acc) r
  end.

(** [s.endswith(c)] for one character. *)
Definition endswith (s : str) (c : char) : bool :=
  match rev s with
  | x :: _ => N.eqb x c
  | [] => false
  end.

(** [x in l] on a list of strings. *)
Definition str_in (x : str) (l : list str) : bool := existsb (str_eqb x) l.

(** ** Segmentation *)

(** [re.sub(r'\s+', ' ', text)] *)
Fixpoint collapse_ws (in_run : bool) (s : str) : str :=
  match s with
  | [] => []
  | c :: r =>
      if is_space c
      then (if in_run then collapse_ws true r else 32%N :: collapse_ws true r)
      else c :: collapse_ws false r
  end.

(** The class [[.!?]] of the look-behind. *)
Definition sentence_end (prev : option char) : bool :=
  match prev with
  | Some c => N.eqb c 46 || N.eqb c 33 || N.eqb c 63
  | None => false
  end.

(** The class of the look-ahead: A to Z, the double quote, the apostrophe. *)
Definition sentence_start (c : char) : bool :=
  ascii_upper c || N.eqb c 34 || N.eqb c 39.

(** Length of the match of the first alternative, a run of white space
    after [[.!?]] and before a character of [sentence_start], at the head of
    [rest]: the whole run of white space, since the look-ahead wants a
    character that is not white space. *)
Definition sentence_gap (prev : option char) (rest : str) : option nat :=
  if sentence_end prev then
    match rest with
    | c :: _ =>
        if is_space c then
          match lstrip rest with
          | d :: _ => if sentence_start d
                      then Some (length rest - length (lstrip rest))
                      else None
          | [] => None
          end
        else None
    | [] => None
    end
  else None.

(** [$]: the end of the text, or the place before its final newline. *)
Definition at_dollar (rest : str) : bool :=
  match rest with
  | [] => true
  | [c] => N.eqb c 10
  | _ => false
  end.

(** [re.split] on the pattern of [split_sentences]: the gap of
    [sentence_gap], or the empty match of [(?<=[.!?])$].
    [skip] counts the characters of the current match still to be dropped,
    [prev] is the character before the position, [acc] the piece being
    collected (reversed). *)
Fixpoint split_sentence_re (skip : nat) (prev : option char) (acc : str)
    (rest : str) : list str :=
  match rest with
  | [] => if sentence_end prev then [rev acc; []] else [rev acc]
  | c :: r =>
      match skip with
      | S k => split_sentence_re k (Some c) acc r
      | O =>
          match sentence_gap prev rest with
          | Some n => rev acc :: split_sentence_re (n - 1) (Some c) [] r
          | None =>
              if sentence_end prev && at_dollar rest
              then rev acc :: split_sentence_re 0 (Some c) [c] r
              else split_sentence_re 0 (Some c) (c :: acc) r
          end
      end
  end.

(** A fragment is kept when its stripped form is not empty and longer
    than one character. *)
Definition keep_sentence (s : str) : bool :=
  match strip s with
  | [] => false
  | _ => Nat.ltb 1 (length (strip s))
  end.

Definition split_sentences (text : str) : list str :=
  let text := strip (collapse_ws false text) in
  let sentences := split_sentence_re 0 None [] text in
  map strip (filter keep_sentence sentences).

(** The class [[-•*]]. *)
Definition is_bullet_char (c : char) : bool :=
  N.eqb c 45 || N.eqb c 8226 || N.eqb c 42.

(** The leading run of white space. *)
Fixpoint ws_prefix (s : str) : str :=
  match s with
  | c :: r => if is_space c then c :: ws_prefix r else []
  | [] => []
  end.

(** Number of characters of [ws] up to and including its last newline. *)
Fixpoint last_newline (ws : str) : option nat :=
  match ws with
  | [] => None
  | c :: r =>
      match last_newline r with
      | Some k => Some (S k)
      | None => if N.eqb c 10 then Some 1 else None
      end
  end.

(** The match of [\n\s*\n|\n(?=\s*[-•*])] at a newline followed by [r]:
    the number of characters of [r] it takes.  In the first alternative the
    greedy [\s*] gives back characters until a newline follows, so the match
    ends with the last newline of the run of white space. *)
Definition paragraph_break (r : str) : option nat :=
  match last_newline (ws_prefix r) with
  | Some k => Some k
  | None =>
      match lstrip r with
      | d :: _ => if is_bullet_char d then Some 0 else None
      | [] => None
      end
  end.

(** [re.split(r'\n\s*\n|\n(?=\s*[-•*])', text)] *)
Fixpoint split_paragraph_re (skip : nat) (acc : str) (rest : str)
    : list str :=
  match rest with
  | [] => [rev acc]
  | c :: r =>
      match skip with
      | S k => split_paragraph_re k acc r
      | O =>
          if N.eqb c 10 then
            match paragraph_break r with
            | Some k => rev acc :: split_paragraph_re k [] r
            | None => split_paragraph_re 0 (c :: acc) r
            end
          else split_paragraph_re 0 (c :: acc) r
      end
  end.

Definition nonblank (s : str) : bool :=
  match strip s with [] => false | _ => true end.

Definition split_paragraphs (text : str) : list str :=
  let paragraphs := split_paragraph_re 0 [] text in
  map strip (filter nonblank paragraphs).

(** [re.findall] on a pattern [[class]+]: the maximal runs of characters
    of the class. *)
Fixpoint findall_runs (p : char -> bool) (acc : str) (s : str) : list str :=
  match s with
  | [] => match acc with [] => [] | _ => [rev acc] end
  | c :: r =>
      if p c then findall_runs p (c :: acc) r
      else match acc with
           | [] => findall_runs p [] r
           | _ => rev acc :: findall_runs p [] r
           end
  end.

(** [len(re.findall(pattern, text))] for a pattern that matches no empty
    string: [m prev s] gives the length of the match at the head of [s],
    where [prev] is the character before it; [skip] counts the characters
    of the current match still to be passed. *)
Fixpoint count_matches (m : option char -> str -> option nat) (skip : nat)
    (prev : option char) (s : str) : nat :=
  match s with
  | [] => 0
  | c :: r =>
      match skip with
      | S k => count_matches m k (Some c) r
      | O =>
          match m prev s with
          | Some n => S (count_matches m (n - 1) (Some c) r)
          | None => count_matches m 0 (Some c) r
          end
      end
  end.

Section Words.
Context {U : UnicodeDB}.

(** [re.findall(r'\b\w+\b', text)]: the maximal runs of word characters. *)
Definition findall_words (text : str) : list str :=
  findall_runs is_word [] text.

Definition count_words (text : str) : nat :=
  length (findall_words text).

Definition get_words (text : str) : list str :=
  map lower (findall_words text).

End Words.

(** [[tuple(words[i:i+n]) for i in range(len(words) - n + 1)]] *)
Definition extract_ngrams (words : list str) (n : nat) : list (list str) :=
  map (fun i => firstn n (skipn i words)) (seq 0 (length words + 1 - n)).

(** An instance of the parameters for texts in ASCII, where they are never
    consulted. *)
Definition ascii_db : UnicodeDB :=
  {| uni_alnum := fun _ => false;
     uni_decimal := fun _ => false;
     uni_digit := fun _ => false;
     uni_lower := fun s => s |}.

(** ** Numbers *)

Fixpoint pow10 (n : nat) : positive :=
  match n with
  | O => 1%positive
  | S k => (10 * pow10 k)%positive
  end.

(** The integer nearest to [q], a tie going to the even one. *)
Definition round_half_even (q : Q) : Z :=
  let n := Qnum q in
  let d := Zpos (Qden q) in
  let f := (n / d)%Z in
  let r2 := (2 * (n mod d))%Z in
  if (r2 <? d)%Z then f
  else if (d <? r2)%Z then (f + 1)%Z
  else if Z.even f then f else (f + 1)%Z.

(** [round(x, ndigits)] *)
Definition py_round (x : Q) (ndigits : nat) : Q :=
  Qred (round_half_even (x * inject_Z (Zpos (pow10 ndigits)))
        # pow10 ndigits).

(** [a / b] on two lengths or counts, for a divisor that the caller has
    made positive (by its guard on the empty list, or by [max(b, 1)]). *)
Definition py_div (a b : nat) : Q := Z.of_nat a # Pos.of_nat b.

Definition Qltb (a b : Q) : bool := negb (Qle_bool b a).

(** [np.mean] of a list of counts that is not empty. *)
Definition np_mean (l : list nat) : Q := py_div (list_sum l) (length l).

(** The non-negative real number whose square is [radicand]. *)
Record Surd : Type := { radicand : Q }.

(** [np.std]: the population standard deviation. *)
Definition np_var (l : list nat) : Q :=
  let m := np_mean l in
  (fold_right Qplus 0%Q
     (map (fun x => let d := (inject_Z (Z.of_nat x) - m)%Q in (d * d)%Q) l)
   / inject_Z (Z.of_nat (length l)))%Q.

Definition np_std (l : list nat) : Surd := {| radicand := np_var l |}.

(** [round(float(s), ndigits)] for a standard deviation: the multiple of
    [10^-ndigits] nearest to the square root. *)
Definition surd_round (s : Surd) (ndigits : nat) : Q :=
  let p := Zpos (pow10 ndigits) in
  let r := radicand s in
  Qred (((Z.sqrt ((4 * p * p * Qnum r) / Zpos (Qden r)) + 1) / 2)%Z
        # pow10 ndigits).

(** [max(m, 1)] *)
Definition max_one (m : Q) : Q := if Qle_bool m 1 then 1%Q else m.

(** An instance of the arithmetic for closed evaluations: the quotient of
    the exact standard deviation by [max(mean, 1)], rounded down to 60
    binary digits. *)
Definition root_down (r : Q) : Q :=
  Z.sqrt ((Qnum r * 2 ^ 120) / Zpos (Qden r)) # 2 ^ 60.

Definition ideal_float : Binary64 :=
  {| float_cv := fun lengths =>
       let m := max_one (np_mean lengths) in
       root_down (np_var lengths / (m * m)) |}.

(** The doubles that the literals [0.7] and [0.4] denote: the one just
    below seven tenths, the other just above four tenths. *)
Definition double_0_7 : Q := 3152519739159347 # 4503599627370496.

Definition double_0_4 : Q := 3602879701896397 # 9007199254740992.

(** ** Counters and sets *)

Section Counter.
Variable A : Type.
Variable eqb : A -> A -> bool.

(** One more occurrence of [x]: a new key goes to the end, as in a Python
    dict. *)
Fixpoint counter_add (x : A) (c : list (A * nat)) : list (A * nat) :=
  match c with
  | [] => [(x, 1)]
  | (y, n) :: r => if eqb x y then (y, S n) :: r
                   else (y, n) :: counter_add x r
  end.

(** [Counter(l)]: the keys in the order of their first occurrence. *)
Definition Counter (l : list A) : list (A * nat) :=
  fold_left (fun c x => counter_add x c) l [].

(** [c[x]], 0 for a missing key. *)
Fixpoint counter_get (x : A) (c : list (A * nat)) : nat :=
  match c with
  | [] => 0
  | (y, n) :: r => if eqb x y then n else counter_get x r
  end.

(** [sorted(items, key=count, reverse=True)]: descending and stable, items
    of equal count stay in their order. *)
Fixpoint insert_desc (p : A * nat) (l : list (A * nat)) : list (A * nat) :=
  match l with
  | [] => [p]
  | q :: r => if Nat.ltb (snd p) (snd q) then q :: insert_desc p r
              else p :: l
  end.

Definition sort_desc (l : list (A * nat)) : list (A * nat) :=
  fold_right insert_desc [] l.

(** [c.most_common(n)] *)
Definition most_common (n : nat) (c : list (A * nat)) : list (A * nat) :=
  firstn n (sort_desc c).

End Counter.

Section Sets.
Context {H : HashSeed}.

(** [set(l)]: the distinct strings of [l], stored in the order of the hash
    seed. *)
Definition py_set (l : list str) : list str := set_order l.

(** [x in s] *)
Definition set_mem (x : str) (s : list str) : bool := str_in x s.

End Sets.

(** A hash seed under which a set keeps the order of first occurrence. *)
Fixpoint dedup (l : list str) : list str :=
  match l with
  | [] => []
  | x :: r => x :: filter (fun y => negb (str_eqb x y)) (dedup r)
  end.

Definition seed_first : HashSeed := {| set_order := dedup |}.

(** A second seed: the reverse order. *)
Definition seed_rev : HashSeed := {| set_order := fun l => rev (dedup l) |}.

(** What every hash seed guarantees: a set holds the elements of the list,
    each once. *)
Definition seed_ok (H : HashSeed) : Prop :=
  forall l, Permutation (@set_order H l) (dedup l).

(** ** The constant tables of the module *)

(** The words of [COMMON_WORDS], as the source lists them. *)
Definition COMMON_WORDS_list : list str :=
  map lit [
    "the"; "a"; "an"; "is"; "are"; "was"; "were"; "be"; "been"; "being";
    "have"; "has"; "had"; "do"; "does"; "did"; "will"; "would"; "could";
    "should"; "may"; "might"; "shall"; "can"; "need"; "dare"; "ought";
    "used"; "to"; "of"; "in"; "for"; "on"; "with"; "at"; "by"; "from";
    "as"; "into"; "through"; "during"; "before"; "after"; "above"; "below";
    "between"; "out"; "off"; "over"; "under"; "again"; "further"; "then";
    "once"; "here"; "there"; "when"; "where"; "why"; "how"; "all"; "both";
    "each"; "few"; "more"; "most"; "other"; "some"; "such"; "no"; "nor";
    "not"; "only"; "own"; "same"; "so"; "than"; "too"; "very"; "just";
    "don"; "should"; "now"; "and"; "but"; "or"; "if"; "while"; "that";
    "this"; "these"; "those"; "it"; "its"; "i"; "me"; "my"; "myself"; "we";
    "our"; "ours"; "you"; "your"; "yours"; "he"; "him"; "his"; "she";
    "her"; "hers"; "they"; "them"; "their"; "what"; "which"; "who"; "whom";
    "about"; "up"; "like"; "get"; "got"; "make"; "go"; "going"; "know";
    "think"; "see"; "come"; "want"; "look"; "use"; "find"; "give"; "tell";
    "say"; "said"; "also"; "well"; "back"; "even"; "still"; "way"; "take";
    "thing"; "things"; "much"; "because"; "good"; "new"; "first"; "last";
    "long"; "great"; "little"; "right"; "old"; "big"; "high"; "different";
    "small"; "large"; "next"; "early"; "young"; "important"; "people";
    "time"; "year"; "day"; "man"; "woman"; "child"; "world"; "life";
    "hand"; "part"; "place"; "case"; "week"; "company"; "system";
    "program"; "question"; "work"; "point"; "number"; "let"; "something";
    "really"; "many"; "every"; "one"; "two"; "three"; "anything";
    "nothing"; "everything"; "someone"; "anyone"; "everyone"; "been";
    "being"; "am"; "s"; "t"; "re"; "ve"; "ll"; "d"; "m"; "don't";
    "doesn't"; "didn't"; "won't"; "wouldn't"; "couldn't"; "shouldn't";
    "isn't"; "aren't"; "wasn't"; "weren't"; "haven't"; "hasn't"; "hadn't";
    "can't"; "couldn't"; "it's"; "that's"; "there's"
  ]%string.

(** The alternatives of [CONTRACTIONS], in the order of the pattern. *)
Definition CONTRACTIONS_list : list str :=
  map lit [
    "i'm"; "i've"; "i'll"; "i'd"; "you're"; "you've"; "you'll"; "you'd";
    "he's"; "she's"; "it's"; "we're"; "we've"; "we'll"; "we'd"; "they're";
    "they've"; "they'll"; "they'd"; "that's"; "there's"; "here's";
    "what's"; "who's"; "how's"; "where's"; "when's"; "isn't"; "aren't";
    "wasn't"; "weren't"; "hasn't"; "haven't"; "hadn't"; "doesn't"; "don't";
    "didn't"; "won't"; "wouldn't"; "shan't"; "shouldn't"; "can't";
    "couldn't"; "mustn't"; "let's"; "gonna"; "wanna"; "gotta"
  ]%string.

(** The candidate list of [extract_transition_words]. *)
Definition transition_candidates : list str :=
  map lit [
    "however"; "but"; "so"; "and"; "yet"; "still"; "also"; "moreover";
    "furthermore"; "meanwhile"; "instead"; "rather"; "although"; "though";
    "because"; "since"; "therefore"; "thus"; "hence"; "consequently";
    "nevertheless"; "nonetheless"; "besides"; "anyway"; "actually";
    "basically"; "honestly"; "frankly"; "literally"; "obviously";
    "clearly"; "simply"; "essentially"; "ultimately"; "finally"; "look";
    "listen"; "here's the thing"; "the truth is"; "the point is";
    "in fact"; "for example"; "for instance"
  ]%string.

(** The class of [EMOJI_PATTERN], range by range as the source lists it. *)
Definition is_emoji (c : char) : bool :=
  in_range 0x1F600 0x1F64F c
  || in_range 0x1F300 0x1F5FF c
  || in_range 0x1F680 0x1F6FF c
  || in_range 0x1F1E0 0x1F1FF c
  || in_range 0x2702 0x27B0 c
  || in_range 0x24C2 0x1F251 c
  || in_range 0x1f900 0x1f9FF c
  || in_range 0x1FA00 0x1FA6F c
  || in_range 0x1FA70 0x1FAFF c
  || in_range 0x2702 0x27B0 c
  || N.eqb c 0x200D
  || N.eqb c 0xFE0F.

(** A character of the text against a character of the [CONTRACTIONS]
    pattern (a small ASCII letter or the apostrophe) under
    [re.IGNORECASE]. *)
Definition ci_eq (p c : char) : bool :=
  N.eqb c p
  || (ascii_upper c && N.eqb (c + 32) p)
  || (N.eqb p 105 && (N.eqb c 304 || N.eqb c 305))
  || (N.eqb p 115 && N.eqb c 383)
  || (N.eqb p 107 && N.eqb c 8490).

Fixpoint match_literal (pat s : str) : bool :=
  match pat, s with
  | [], _ => true
  | p :: pat', c :: s' => ci_eq p c && match_literal pat' s'
  | _ :: _, [] => false
  end.

Section Patterns.
Context {U : UnicodeDB}.

Definition is_word_opt (c : option char) : bool :=
  match c with Some x => is_word x | None => false end.

(** [\b] between two neighbours; [None] is an end of the text. *)
Definition word_boundary (prev next : option char) : bool :=
  xorb (is_word_opt prev) (is_word_opt next).

(** One alternative of [CONTRACTIONS] between its two [\b]. *)
Definition contraction_alt (prev : option char) (s : str) (pat : str) : bool :=
  word_boundary prev (hd_error s)
  && match_literal pat s
  && word_boundary (nth_error s (length pat - 1)) (nth_error s (length pat)).

(** The match of [CONTRACTIONS] at the head of [s]: the first alternative
    that fits. *)
Definition contraction_at (prev : option char) (s : str) : option nat :=
  option_map (@length char) (find (contraction_alt prev s) CONTRACTIONS_list).

(** [len(CONTRACTIONS.findall(text))] *)
Definition count_contractions (text : str) : nat :=
  count_matches contraction_at 0 None text.

(** [re.match(r'^\s*[-•*]\s', line)] *)
Definition match_bullet (line : str) : bool :=
  match lstrip line with
  | b :: w :: _ => is_bullet_char b && is_space w
  | _ => false
  end.

Fixpoint drop_decimals (s : str) : str :=
  match s with
  | c :: r => if is_decimal c then drop_decimals r else s
  | [] => []
  end.

(** [re.match(r'^\s*\d+[.)]\s', line)] *)
Definition match_numbered (line : str) : bool :=
  match lstrip line with
  | d :: r =>
      is_decimal d
      && match drop_decimals r with
         | p :: w :: _ => (N.eqb p 46 || N.eqb p 41) && is_space w
         | _ => false
         end
  | [] => false
  end.

End Patterns.

(** [\.{3}|…] *)
Definition ellipsis_at (_ : option char) (s : str) : option nat :=
  match s with
  | a :: r =>
      if N.eqb a 8230 then Some 1
      else match r with
           | b :: c :: _ =>
               if N.eqb a 46 && N.eqb b 46 && N.eqb c 46 then Some 3 else None
           | _ => None
           end
  | [] => None
  end.

(** [[—–]|\s-\s] *)
Definition dash_at (_ : option char) (s : str) : option nat :=
  match s with
  | a :: r =>
      if N.eqb a 8212 || N.eqb a 8211 then Some 1
      else match r with
           | b :: c :: _ =>
               if is_space a && N.eqb b 45 && is_space c then Some 3 else None
           | _ => None
           end
  | [] => None
  end.

Fixpoint until_close (s : str) : str :=
  match s with
  | c :: r => if N.eqb c 41 then [] else c :: until_close r
  | [] => []
  end.

(** [\([^)]+\)] *)
Definition paren_at (_ : option char) (s : str) : option nat :=
  match s with
  | a :: r =>
      if N.eqb a 40 then
        match until_close r, skipn (length (until_close r)) r with
        | _ :: _, _ :: _ => Some (length (until_close r) + 2)
        | _, _ => None
        end
      else None
  | [] => None
  end.

(** ** The analyzer *)

(** The fields of a [StyleAnalyzer] object. *)
Record StyleAnalyzer : Type := {
  samples : list str;
  combined_text : str;
  all_sentences : list str;
  all_paragraphs : list str;
  all_words : list str
}.

(** The dicts that the six metric extractors return. *)
Record SentenceMetrics : Type := {
  avg_sentence_length : Q;
  sentence_length_std : Q;
  short_sentence_ratio : Q;
  long_sentence_ratio : Q
}.

Record QuestionMetrics : Type := {
  question_ratio : Q;
  exclamation_ratio : Q
}.

Record FormattingMetrics : Type := {
  avg_paragraph_length : Q;
  uses_bullet_points : bool;
  bullet_frequency : Q
}.

Record VocabularyMetrics : Type := {
  vocabulary_richness : Q;
  avg_word_length : Q;
  contraction_ratio : Q
}.

Record PunctuationMetrics : Type := {
  emoji_frequency : Q;
  ellipsis_frequency : Q;
  dash_frequency : Q;
  parenthetical_frequency : Q
}.

Record RhythmMetrics : Type := {
  opens_with_short_sentence : Q;
  sentence_length_variation : str
}.

(** The merged dict [metrics]: the six dicts have disjoint keys. *)
Record Metrics : Type := {
  sentence_metrics : SentenceMetrics;
  question_metrics : QuestionMetrics;
  formatting_metrics : FormattingMetrics;
  vocabulary_metrics : VocabularyMetrics;
  punctuation_metrics : PunctuationMetrics;
  rhythm_metrics : RhythmMetrics
}.

(** The dict that [analyze] returns. *)
Record Profile : Type := {
  metrics : Metrics;
  signature_phrases : list str;
  vocabulary_preferences : list str;
  sentence_starters : list str;
  transition_words : list str;
  formatting_style : str;
  sample_excerpts : list str;
  raw_style_summary : str
}.

(** [sum(1 for x in l if p(x))] *)
Definition count_if (A : Type) (p : A -> bool) (l : list A) : nat :=
  length (filter p l).

Section Analyzer.
Context {U : UnicodeDB} {H : HashSeed} {B64 : Binary64}.

Definition COMMON_WORDS : list str := py_set COMMON_WORDS_list.

(** [StyleAnalyzer.__init__] *)
Definition StyleAnalyzer_init (samples : list str) : StyleAnalyzer :=
  {| samples := samples;
     combined_text := join [10%N; 10%N] samples;
     all_sentences := flat_map split_sentences samples;
     all_paragraphs := flat_map split_paragraphs samples;
     all_words := flat_map get_words samples |}.

Variable self : StyleAnalyzer.

Definition analyze_sentence_structure : SentenceMetrics :=
  match all_sentences self with
  | [] =>
      {| avg_sentence_length := 0;
         sentence_length_std := 0;
         short_sentence_ratio := 0;
         long_sentence_ratio := 0 |}
  | _ =>
      let lengths := map count_words (all_sentences self) in
      let avg_len := np_mean lengths in
      let std_len := np_std lengths in
      let short_ratio :=
        py_div (count_if (fun l => Nat.leb l 5) lengths) (length lengths) in
      let long_ratio :=
        py_div (count_if (fun l => Nat.leb 20 l) lengths) (length lengths) in
      {| avg_sentence_length := py_round avg_len 2;
         sentence_length_std := surd_round std_len 2;
         short_sentence_ratio := py_round short_ratio 3;
         long_sentence_ratio := py_round long_ratio 3 |}
  end.

Definition analyze_questions_hooks : QuestionMetrics :=
  match all_sentences self with
  | [] => {| question_ratio := 0; exclamation_ratio := 0 |}
  | _ =>
      let question_count :=
        count_if (fun s => endswith (rstrip s) 63%N) (all_sentences self) in
      let exclamation_count :=
        count_if (fun s => endswith (rstrip s) 33%N) (all_sentences self) in
      let total := length (all_sentences self) in
      {| question_ratio := py_round (py_div question_count total) 3;
         exclamation_ratio := py_round (py_div exclamation_count total) 3 |}
  end.

Definition analyze_formatting : FormattingMetrics :=
  match all_paragraphs self with
  | [] =>
      {| avg_paragraph_length := 0;
         uses_bullet_points := false;
         bullet_frequency := 0 |}
  | _ =>
      let para_lengths :=
        map (fun p => length (split_sentences p)) (all_paragraphs self) in
      let avg_para_len :=
        match para_lengths with [] => 0%Q | _ => np_mean para_lengths end in
      let lines := split_on 10%N [] (combined_text self) in
      let bullet_lines :=
        count_if (fun line => match_bullet (strip line)
                              || match_numbered (strip line)) lines in
      let total_lines := Nat.max (length lines) 1 in
      let uses_bullets := Nat.ltb 0 bullet_lines in
      let bullet_freq := py_div bullet_lines total_lines in
      {| avg_paragraph_length := py_round avg_para_len 2;
         uses_bullet_points := uses_bullets;
         bullet_frequency := py_round bullet_freq 3 |}
  end.

Definition analyze_vocabulary : VocabularyMetrics :=
  match all_words self with
  | [] =>
      {| vocabulary_richness := 0;
         avg_word_length := 0;
         contraction_ratio := 0 |}
  | _ =>
      let unique_words := py_set (all_words self) in
      let ttr := py_div (length unique_words) (length (all_words self)) in
      let avg_word_len := np_mean (map (@length char) (all_words self)) in
      let contraction_matches :=
        count_contractions (lower (combined_text self)) in
      let contraction_ratio :=
        py_div contraction_matches (Nat.max (length (all_words self)) 1) in
      {| vocabulary_richness := py_round ttr 3;
         avg_word_length := py_round avg_word_len 2;
         contraction_ratio := py_round contraction_ratio 3 |}
  end.

Definition analyze_punctuation_emoji : PunctuationMetrics :=
  let total_words := Nat.max (length (all_words self)) 1 in
  let total_sentences := Nat.max (length (all_sentences self)) 1 in
  let emoji_matches := findall_runs is_emoji [] (combined_text self) in
  let emoji_freq := (py_div (length emoji_matches) total_words * 100)%Q in
  let ellipsis_count := count_matches ellipsis_at 0 None (combined_text self) in
  let ellipsis_freq := (py_div ellipsis_count total_sentences * 100)%Q in
  let dash_count := count_matches dash_at 0 None (combined_text self) in
  let dash_freq := (py_div dash_count total_words * 100)%Q in
  let paren_count := count_matches paren_at 0 None (combined_text self) in
  let paren_freq := (py_div paren_count total_sentences * 100)%Q in
  {| emoji_frequency := py_round emoji_freq 3;
     ellipsis_frequency := py_round ellipsis_freq 3;
     dash_frequency := py_round dash_freq 3;
     parenthetical_frequency := py_round paren_freq 3 |}.

(** The paragraphs whose first sentence has at most six words. *)
Definition short_opener (para : str) : bool :=
  match split_sentences para with
  | s :: _ => Nat.leb (count_words s) 6
  | [] => false
  end.

(** The class of a coefficient of variation, a double. *)
Definition classify_variation (cv : Q) : str :=
  if Qltb double_0_7 cv then lit "high"
  else if Qltb double_0_4 cv then lit "medium"
  else lit "low".

Definition analyze_rhythm : RhythmMetrics :=
  match all_paragraphs self with
  | [] =>
      {| opens_with_short_sentence := 0;
         sentence_length_variation := lit "low" |}
  | _ =>
      let short_openers := count_if short_opener (all_paragraphs self) in
      let opens_short :=
        py_div short_openers (Nat.max (length (all_paragraphs self)) 1) in
      let variation :=
        if Nat.leb 2 (length (all_sentences self)) then
          let lengths := map count_words (all_sentences self) in
          let cv := float_cv lengths in
          classify_variation cv
        else lit "low" in
      {| opens_with_short_sentence := py_round opens_short 3;
         sentence_length_variation := variation |}
  end.

(** [all(w in COMMON_WORDS for w in gram)] *)
Definition all_common (gram : list str) : bool :=
  forallb (fun w => set_mem w COMMON_WORDS) gram.

(** The first loop of [extract_signature_phrases], over the most common
    trigrams. *)
Fixpoint trigram_loop (top_n : nat) (items : list (list str * nat))
    (phrases : list str) : list str :=
  match items with
  | [] => phrases
  | (trigram, count) :: rest =>
      if Nat.leb 2 count && negb (all_common trigram) then
        let phrases := phrases ++ [join (lit " ") trigram] in
        if Nat.leb (top_n / 2) (length phrases) then phrases
        else trigram_loop top_n rest phrases
      else trigram_loop top_n rest phrases
  end.

(** The second loop, over the most common bigrams. *)
Fixpoint bigram_loop (top_n : nat) (items : list (list str * nat))
    (phrases : list str) : list str :=
  match items with
  | [] => phrases
  | (bigram, count) :: rest =>
      if Nat.leb 2 count && negb (all_common bigram) then
        let phrase := join (lit " ") bigram in
        let phrases :=
          if negb (str_in phrase phrases) then phrases ++ [phrase]
          else phrases in
        if Nat.leb top_n (length phrases) then phrases
        else bigram_loop top_n rest phrases
      else bigram_loop top_n rest phrases
  end.

Definition all_ngrams (n : nat) : list (list str) :=
  flat_map (fun sample => extract_ngrams (get_words sample) n) (samples self).

Definition bigram_counts : list (list str * nat) :=
  Counter (list_eqb str_eqb) (all_ngrams 2).

Definition trigram_counts : list (list str * nat) :=
  Counter (list_eqb str_eqb) (all_ngrams 3).

Definition extract_signature_phrases (top_n : nat) : list str :=
  let phrases := trigram_loop top_n (most_common 50 trigram_counts) [] in
  let phrases := bigram_loop top_n (most_common 50 bigram_counts) phrases in
  firstn top_n phrases.

(** The loop of [extract_vocabulary_preferences]. *)
Fixpoint vocabulary_loop (top_n : nat) (items : list (str * nat))
    (distinctive : list str) : list str :=
  match items with
  | [] => distinctive
  | (word, count) :: rest =>
      let distinctive :=
        if negb (set_mem word COMMON_WORDS)
           && Nat.ltb 2 (length word)
           && Nat.leb 2 count
           && negb (isdigit word)
        then distinctive ++ [word]
        else distinctive in
      if Nat.leb top_n (length distinctive) then distinctive
      else vocabulary_loop top_n rest distinctive
  end.

Definition extract_vocabulary_preferences (top_n : nat) : list str :=
  let word_counts := Counter str_eqb (all_words self) in
  vocabulary_loop top_n (most_common 200 word_counts) [].

(** The starter of one sentence: its first two words, or its only word. *)
Definition starter_of (sentence : str) : list str :=
  let words := split_ws [] sentence in
  if Nat.leb 2 (length words) then [lower (join (lit " ") (firstn 2 words))]
  else match words with
       | [w] => [lower w]
       | _ => []
       end.

Definition generic_starters : list str :=
  py_set (map lit ["the"; "a"; "an"; "it is"; "there is"; "there are"]%string).

(** The loop of [extract_sentence_starters]. *)
Fixpoint starter_loop (top_n : nat) (items : list (str * nat))
    (result : list str) : list str :=
  match items with
  | [] => result
  | (starter, count) :: rest =>
      let result :=
        if Nat.leb 2 count && negb (set_mem starter generic_starters)
        then result ++ [starter]
        else result in
      if Nat.leb top_n (length result) then result
      else starter_loop top_n rest result
  end.

Definition extract_sentence_starters (top_n : nat) : list str :=
  let starters := flat_map starter_of (all_sentences self) in
  let starter_counts := Counter str_eqb starters in
  starter_loop top_n (most_common 30 starter_counts) [].

(** [x in c] on a counter. *)
Definition counter_mem (x : str) (c : list (str * nat)) : bool :=
  existsb (fun p => str_eqb x (fst p)) c.

Definition extract_transition_words (top_n : nat) : list str :=
  let word_counts := Counter str_eqb (all_words self) in
  let found :=
    flat_map (fun word =>
                if counter_mem word word_counts
                   && Nat.leb 1 (counter_get str_eqb word word_counts)
                then [(word, counter_get str_eqb word word_counts)]
                else [])
             transition_candidates in
  let found := sort_desc found in
  map fst (firstn top_n found).

Definition describe_formatting_style : str :=
  let formatting := analyze_formatting in
  let sentence_info := analyze_sentence_structure in
  let avg_para := avg_paragraph_length formatting in
  let parts :=
    [ if Qle_bool avg_para 2
      then lit "Uses very short paragraphs (1-2 sentences)"
      else if Qle_bool avg_para 4
      then lit "Uses moderate-length paragraphs (3-4 sentences)"
      else lit "Uses longer paragraphs (5+ sentences)" ] in
  let parts :=
    parts ++
    [ if uses_bullet_points formatting then
        if Qltb (2 # 10) (bullet_frequency formatting)
        then lit "Heavy use of bullet points and lists"
        else lit "Occasional use of bullet points"
      else lit "Rarely or never uses bullet points" ] in
  let parts :=
    if Qltb (3 # 10) (short_sentence_ratio sentence_info)
    then parts ++ [lit "Frequently uses punchy, short sentences for emphasis"]
    else parts in
  let parts :=
    if Qltb (2 # 10) (long_sentence_ratio sentence_info)
    then parts ++ [lit "Includes longer, detailed sentences"]
    else parts in
  join (lit ". ") parts ++ lit ".".

(** The inner loop of [extract_sample_excerpts]. *)
Fixpoint excerpt_loop (max_length : nat) (sentences : list str)
    (excerpt : str) : str :=
  match sentences with
  | [] => excerpt
  | s :: rest =>
      if Nat.leb (length excerpt + length s) max_length
      then excerpt_loop max_length rest (excerpt ++ s ++ lit " ")
      else excerpt
  end.

(** What one sample adds to [excerpts]. *)
Definition excerpt_of (max_length : nat) (sample : str) : list str :=
  match split_sentences sample with
  | [] => []
  | sentences =>
      let excerpt := excerpt_loop max_length (firstn 3 sentences) [] in
      match strip excerpt with
      | [] => []
      | e => [e]
      end
  end.

Definition extract_sample_excerpts (count max_length : nat) : list str :=
  let excerpts := flat_map (excerpt_of max_length) (samples self) in
  firstn count excerpts.

(** [parts.append(clause)] under a condition. *)
Definition append_if (cond : bool) (clause : str) (parts : list str)
    : list str :=
  if cond then parts ++ [clause] else parts.

Definition generate_style_summary : str :=
  let metrics_sent := analyze_sentence_structure in
  let metrics_q := analyze_questions_hooks in
  let metrics_fmt := analyze_formatting in
  let metrics_vocab := analyze_vocabulary in
  let metrics_punct := analyze_punctuation_emoji in
  let metrics_rhythm := analyze_rhythm in
  let avg_len := avg_sentence_length metrics_sent in
  let summary_parts :=
    [ if Qltb avg_len 10
      then lit "This writer uses notably short, punchy sentences"
      else if Qltb avg_len 15
      then lit "This writer uses moderate-length sentences"
      else lit "This writer tends toward longer, more detailed sentences" ] in
  let variation := sentence_length_variation metrics_rhythm in
  let summary_parts :=
    summary_parts ++
    [ if str_eqb variation (lit "high")
      then lit "with high variation between short and long sentences, creating a dynamic rhythm"
      else if str_eqb variation (lit "medium")
      then lit "with moderate variation in sentence length"
      else lit "with consistent sentence lengths throughout" ] in
  let summary_parts :=
    if Qltb (15 # 100) (question_ratio metrics_q)
    then summary_parts
         ++ [lit "They frequently use rhetorical questions to engage readers"]
    else append_if (Qltb (5 # 100) (question_ratio metrics_q))
           (lit "They occasionally use questions") summary_parts in
  let summary_parts :=
    append_if (Qltb (1 # 10) (exclamation_ratio metrics_q))
      (lit "Exclamation marks are used liberally for emphasis and energy")
      summary_parts in
  let summary_parts :=
    if Qltb (6 # 10) (vocabulary_richness metrics_vocab)
    then summary_parts ++ [lit "The vocabulary is rich and varied"]
    else append_if (Qltb (vocabulary_richness metrics_vocab) (4 # 10))
           (lit "The vocabulary is focused and repetitive (which creates familiarity)")
           summary_parts in
  let summary_parts :=
    if Qltb (3 # 100) (contraction_ratio metrics_vocab)
    then summary_parts
         ++ [lit "Heavy use of contractions gives a conversational, informal tone"]
    else append_if (Qltb (contraction_ratio metrics_vocab) (1 # 100))
           (lit "Minimal contractions suggest a more formal tone")
           summary_parts in
  let summary_parts :=
    append_if (uses_bullet_points metrics_fmt)
      (lit "Bullet points and lists are part of the formatting style")
      summary_parts in
  let summary_parts :=
    if Qltb (5 # 10) (emoji_frequency metrics_punct)
    then summary_parts
         ++ [lit "Emojis are used frequently as part of the communication style"]
    else append_if (Qltb 0 (emoji_frequency metrics_punct))
           (lit "Emojis are used sparingly") summary_parts in
  let summary_parts :=
    append_if (Qltb (5 # 10) (dash_frequency metrics_punct))
      (lit "Dashes are used frequently for emphasis or asides")
      summary_parts in
  let summary_parts :=
    append_if (Qltb (5 # 10) (opens_with_short_sentence metrics_rhythm))
      (lit "Paragraphs often open with a short, punchy statement")
      summary_parts in
  join (lit ". ") summary_parts ++ lit ".".

Definition analyze_method : Profile :=
  {| metrics :=
       {| sentence_metrics := analyze_sentence_structure;
          question_metrics := analyze_questions_hooks;
          formatting_metrics := analyze_formatting;
          vocabulary_metrics := analyze_vocabulary;
          punctuation_metrics := analyze_punctuation_emoji;
          rhythm_metrics := analyze_rhythm |};
     signature_phrases := extract_signature_phrases 10;
     vocabulary_preferences := extract_vocabulary_preferences 15;
     sentence_starters := extract_sentence_starters 10;
     transition_words := extract_transition_words 10;
     formatting_style := describe_formatting_style;
     sample_excerpts := extract_sample_excerpts 5 200;
     raw_style_summary := generate_style_summary |}.

End Analyzer.

(** [StyleAnalyzer(samples).analyze()]: the one operation of the core. *)
Definition analyze {U : UnicodeDB} {H : HashSeed} {B64 : Binary64}
    (samples : list str) : Profile :=
  analyze_method (StyleAnalyzer_init samples).

(** * Vocabulary of the statements *)

(** A string without white space at either end. *)
Definition no_lead (p : str) : Prop :=
  match p with
  | c :: _ => is_space c = false
  | [] => True
  end.

Definition stripped (p : str) : Prop := no_lead p /\ no_lead (rev p).

(** A string of white space only. *)
Definition blank (s : str) : bool := forallb is_space s.

(** The clauses that open the formatting description and the summary. *)
Definition paragraph_clauses : list str :=
  map lit [ "Uses very short paragraphs (1-2 sentences)";
            "Uses moderate-length paragraphs (3-4 sentences)";
            "Uses longer paragraphs (5+ sentences)" ]%string.

Definition bullet_clauses : list str :=
  map lit [ "Heavy use of bullet points and lists";
            "Occasional use of bullet points";
            "Rarely or never uses bullet points" ]%string.

Definition length_clauses : list str :=
  map lit [ "This writer uses notably short, punchy sentences";
            "This writer uses moderate-length sentences";
            "This writer tends toward longer, more detailed sentences" ]%string.

Definition variation_clauses : list str :=
  map lit [ "with high variation between short and long sentences, creating a dynamic rhythm";
            "with moderate variation in sentence length";
            "with consistent sentence lengths throughout" ]%string.

(** A list of clauses that opens with one clause of [a] and one of [b]. *)
Definition starts_with (a b : list str) (parts : list str) : Prop :=
  exists x y rest, In x a /\ In y b /\ parts = x :: y :: rest.

(** A prose field: clauses joined by a period and a space, a period at the
    end, the first two clauses taken from [a] and [b]. *)
Definition opens_with (a b : list str) (s : str) : Prop :=
  exists parts, starts_with a b parts
                /\ s = join (lit ". ") parts ++ lit ".".

(** The value of [excerpt] after the sentences of [l] have been added. *)
Definition glue (l : list str) : str :=
  flat_map (fun s => s ++ lit " ") l.

(** The greedy excerpt of a sample under a budget: the first [k] sentences,
    [k] between 1 and 3, joined by one space; it fits the budget, and where
    a further sentence was to be had among the first three, adding it would
    not fit. *)
Definition greedy_excerpt (budget : nat) (sentences : list str) (e : str)
    : Prop :=
  exists k,
    1 <= k <= 3 /\ k <= length sentences
    /\ e = join (lit " ") (firstn k sentences)
    /\ length e <= budget
    /\ (k < 3 -> k < length sentences ->
        budget < length (join (lit " ") (firstn (S k) sentences))).

(** The coefficient of variation that [analyze_rhythm] classifies, as a
    real number: [np.std(lengths) / max(np.mean(lengths), 1)]. *)
Definition cv_guarded (lengths : list nat) : R :=
  (sqrt (Q2R (np_var lengths)) / Rmax (Q2R (np_mean lengths)) 1)%R.



(** The characters of a text that are not white space, in order. *)
Definition visible (s : str) : str := filter (fun c => negb (is_space c)) s.

(** What may follow a newline where [split_paragraphs] breaks: white space
    up to a second newline (a blank line), or white space up to one of the
    characters [-], [•], [*] (a line that begins with a bullet). *)
Definition blank_line_ahead (r : str) : Prop :=
  exists ws b, r = ws ++ 10%N :: b /\ blank ws = true.

Definition bullet_ahead (r : str) : Prop :=
  exists ws c b, r = ws ++ c :: b /\ blank ws = true
                 /\ is_bullet_char c = true.

(** A blank line, or a line that begins with a bullet, inside [p]. *)
Definition has_blank_line (p : str) : Prop :=
  exists a r, p = a ++ 10%N :: r /\ blank_line_ahead r.

Definition has_bullet_line (p : str) : Prop :=
  exists a r, p = a ++ 10%N :: r /\ bullet_ahead r.

(** A line inside [p], after its first, that begins with a numbered-list
    marker as [analyze_formatting] recognises it. *)
Definition has_numbered_line {U : UnicodeDB} (p : str) : Prop :=
  exists a r, p = a ++ 10%N :: r /\ match_numbered r = true.

(** No newline of [acc] (a piece under construction, reversed) starts a
    match of the paragraph pattern in the text [rev acc ++ rest]. *)
Definition no_match_inside (acc rest : str) : Prop :=
  forall a r, rev acc = a ++ 10%N :: r -> paragraph_break (r ++ rest) = None.

(** The number of maximal runs of the class [p] that start in [s];
    [inside] tells whether the character before [s] is of the class. *)
Fixpoint run_starts (p : char -> bool) (inside : bool) (s : str) : nat :=
  match s with
  | [] => 0
  | c :: r => (if p c && negb inside then 1 else 0) + run_starts p (p c) r
  end.

Definition is_nil (A : Type) (l : list A) : bool :=
  match l with [] => true | _ => false end.

(** A rational between 0 and 1. *)
Definition unit_interval (q : Q) : Prop := (0 <= q <= 1)%Q.

(** The characters that one character of a text gives to [str.lower] of
    the text: one character, a word character exactly when the character
    of the text is one, or the two characters [i], U+0307 that the
    capital I with a dot, U+0130, gives. *)
Definition lower_piece {U : UnicodeDB} (c : char) (p : str) : Prop :=
  (exists d, p = [d] /\ is_word d = is_word c)
  \/ (c = 304%N /\ p = [105%N; 775%N]).

(** [str.lower] works character by character, in the way of
    [lower_piece], and the combining dot U+0307 is no word character.
    This holds of the Unicode database of every run: U+0130 is the one
    character whose lowercase has more than one character, and every other
    character is alphanumeric exactly when its lowercase is. *)
Definition lower_by_char (U : UnicodeDB) : Prop :=
  is_word 775%N = false
  /\ forall s, exists pieces,
       Forall2 lower_piece s pieces /\ lower s = concat pieces.

(** The number of characters of [s] that pass [f] together with the
    character after them. *)
Fixpoint count_ends (f : char -> option char -> bool) (s : str) : nat :=
  match s with
  | [] => 0
  | c :: r => (if f c (hd_error r) then 1 else 0) + count_ends f r
  end.

(** The last character of a word, and such a character other than [i]. *)
Definition word_end {U : UnicodeDB} (c : char) (next : option char)
    : bool :=
  is_word c && negb (is_word_opt next).

Definition word_end_not_i {U : UnicodeDB} (c : char) (next : option char)
    : bool :=
  word_end c next && negb (N.eqb c 105).

(** An instance of the parameters that knows one character beyond ASCII,
    the capital I with a dot: a letter, with [i], U+0307 as its
    lowercase. *)
Definition dotted_lower_char (c : char) : str :=
  if N.eqb c 304 then [105%N; 775%N] else [ascii_lower_char c].

Definition dotted_db : UnicodeDB :=
  {| uni_alnum := fun _ => false;
     uni_decimal := fun _ => false;
     uni_digit := fun _ => false;
     uni_lower := flat_map dotted_lower_char |}.

(** Descending order of the counts. *)
Definition by_count_desc (A : Type) (a b : A * nat) : Prop := snd b <= snd a.

(** The test of both loops of [extract_signature_phrases]: at least two
    occurrences, and not stop words only. *)
Definition qualifies {H : HashSeed} (item : list str * nat) : bool :=
  Nat.leb 2 (snd item) && negb (all_common (fst item)).

Definition phrase_of (item : list str * nat) : str :=
  join (lit " ") (fst item).

(** [if phrase not in phrases: phrases.append(phrase)] *)
Definition add_new (phrases : list str) (phrase : str) : list str :=
  if negb (str_in phrase phrases) then phrases ++ [phrase] else phrases.

(** The eight metrics that are a ratio of a count to a total. *)
Definition ratio_fields_unit (m : Metrics) : Prop :=
  unit_interval (short_sentence_ratio (sentence_metrics m))
  /\ unit_interval (long_sentence_ratio (sentence_metrics m))
  /\ unit_interval (question_ratio (question_metrics m))
  /\ unit_interval (exclamation_ratio (question_metrics m))
  /\ unit_interval (bullet_frequency (formatting_metrics m))
  /\ unit_interval (vocabulary_richness (vocabulary_metrics m))
  /\ unit_interval (contraction_ratio (vocabulary_metrics m))
  /\ unit_interval (opens_with_short_sentence (rhythm_metrics m)).

(** The metrics that the specification documents for an empty corpus. *)
Definition default_metrics : Metrics :=
  {| sentence_metrics :=
       {| avg_sentence_length := 0; sentence_length_std := 0;
          short_sentence_ratio := 0; long_sentence_ratio := 0 |};
     question_metrics := {| question_ratio := 0; exclamation_ratio := 0 |};
     formatting_metrics :=
       {| avg_paragraph_length := 0; uses_bullet_points := false;
          bullet_frequency := 0 |};
     vocabulary_metrics :=
       {| vocabulary_richness := 0; avg_word_length := 0;
          contraction_ratio := 0 |};
     punctuation_metrics :=
       {| emoji_frequency := 0; ellipsis_frequency := 0;
          dash_frequency := 0; parenthetical_frequency := 0 |};
     rhythm_metrics :=
       {| opens_with_short_sentence := 0;
          sentence_length_variation := lit "low" |} |}.

(** A sample of white space only, without the ideographic space. *)
Definition plain_blank (s : str) : bool :=
  forallb (fun c => is_space c && negb (N.eqb c 0x3000)) s.

(** Three samples that the caller of the analyzer accepts (at least 50
    characters each); they hold the candidate phrases [in fact],
    [for example] and [here's the thing], and none of the one-word
    candidates. *)
Definition phrase_corpus : list str :=
  map lit [ "In fact, the plan works well for the whole team today.";
            "For example, the team meets on Monday at nine o'clock.";
            "Here's the thing: we need more time for the project now."
          ]%string.

(** One string is a contiguous piece of another. *)
Definition substring (p t : str) : Prop := exists pre post, t = pre ++ p ++ post.

(** The only white space of a string is single spaces: every white-space
    character is U+0020 and the character after it is not white space. *)
Fixpoint single_spaced (s : str) : bool :=
  match s with
  | [] => true
  | c :: r =>
      (if is_space c
       then N.eqb c 32 && match r with
                          | d :: _ => negb (is_space d)
                          | [] => true
                          end
       else true)
      && single_spaced r
  end.

(** The text that [split_sentences] splits: white space collapsed, the
    ends stripped. *)
Definition normalized (text : str) : str := strip (collapse_ws false text).

(** A text without any of the characters [.], [!], [?]. *)
Definition no_terminator (text : str) : bool :=
  forallb (fun c => negb (sentence_end (Some c))) text.

(** The characters of a lowercased ASCII word token: a small letter, a
    digit or the underscore. *)
Definition lower_word_char (c : char) : bool :=
  in_range 97 122 c || in_range 48 57 c || N.eqb c 95.

(** The candidates of [extract_transition_words] that hold a space. *)
Definition multi_word_candidates : list str :=
  filter (existsb (N.eqb 32)) transition_candidates.

(** The test of the loop of [extract_vocabulary_preferences]: not a stop
    word, longer than two characters, at least two occurrences, not a
    number. *)
Definition distinctive {U : UnicodeDB} {H : HashSeed} (item : str * nat)
    : bool :=
  negb (set_mem (fst item) COMMON_WORDS)
  && Nat.ltb 2 (length (fst item))
  && Nat.leb 2 (snd item)
  && negb (isdigit (fst item)).

(** The test of the loop of [extract_sentence_starters]: at least two
    occurrences, and not one of the generic starters. *)
Definition recurring {H : HashSeed} (item : str * nat) : bool :=
  Nat.leb 2 (snd item) && negb (set_mem (fst item) generic_starters).

(** The first two words of a sentence, or its only word, lowercased. *)
Definition first_two_words {U : UnicodeDB} (sentence : str) : str :=
  lower (join (lit " ") (firstn 2 (split_ws [] sentence))).

(** The profile of a corpus without any text. *)
Definition blank_profile : Profile :=
  {| metrics := default_metrics;
     signature_phrases := [];
     vocabulary_preferences := [];
     sentence_starters := [];
     transition_words := [];
     formatting_style :=
       lit "Uses very short paragraphs (1-2 sentences). Rarely or never uses bullet points.";
     sample_excerpts := [];
     raw_style_summary :=
       lit "This writer uses notably short, punchy sentences. with consistent sentence lengths throughout. The vocabulary is focused and repetitive (which creates familiarity). Minimal contractions suggest a more formal tone." |}.

(** The test of [analyze_formatting] on one line: a bullet or a numbered
    item. *)
Definition list_item {U : UnicodeDB} (line : str) : bool :=
  match_bullet (strip line) || match_numbered (strip line).

(** The numeric fields of the metrics. *)
Definition numeric_fields (m : Metrics) : list Q :=
  [ avg_sentence_length (sentence_metrics m);
    sentence_length_std (sentence_metrics m);
    short_sentence_ratio (sentence_metrics m);
    long_sentence_ratio (sentence_metrics m);
    question_ratio (question_metrics m);
    exclamation_ratio (question_metrics m);
    avg_paragraph_length (formatting_metrics m);
    bullet_frequency (formatting_metrics m);
    vocabulary_richness (vocabulary_metrics m);
    avg_word_length (vocabulary_metrics m);
    contraction_ratio (vocabulary_metrics m);
    emoji_frequency (punctuation_metrics m);
    ellipsis_frequency (punctuation_metrics m);
    dash_frequency (punctuation_metrics m);
    parenthetical_frequency (punctuation_metrics m);
    opens_with_short_sentence (rhythm_metrics m) ].

(** What one sample gives to the excerpts: nothing when it has no
    sentence or when its first sentence alone is over the budget, and its
    greedy excerpt otherwise. *)
Definition sample_gives (budget : nat) (sample : str) (given : list str)
    : Prop :=
  match split_sentences sample with
  | [] => given = []
  | s :: _ =>
      if Nat.leb (length s) budget
      then exists e, given = [e]
                     /\ greedy_excerpt budget (split_sentences sample) e
      else given = []
  end.

(** What follows a newline at which the text is broken: a blank line, or
    a line that begins with a bullet. *)
Definition breaks_after (r : str) : Prop :=
  blank_line_ahead r \/ bullet_ahead r.

(** No newline of [t] is a place of a break. *)
Definition unbroken (t : str) : Prop :=
  forall a r, t = a ++ 10%N :: r -> ~ breaks_after r.

(** In the text [a], newline, [r] that newline is the first place of a
    break. *)
Definition first_break (a r : str) : Prop :=
  breaks_after r
  /\ forall a1 r1, a = a1 ++ 10%N :: r1 -> ~ breaks_after (r1 ++ 10%N :: r).

(** The paragraph that a fragment of the text gives: none when it is
    white space only, its stripped form otherwise. *)
Definition fragment (p : str) : list str :=
  if blank p then [] else [strip p].

(** * Properties *)

Unset Implicit Arguments.

(** ** Strings *)

Lemma str_eqb_eq (a b : str) : str_eqb a b = true <-> a = b.
Proof.
  revert b; induction a as [|x a IH]; intros [|y b]; simpl;
    try (split; [discriminate | discriminate]); try tauto.
  rewrite andb_true_iff, N.eqb_eq, IH.
  split; [intros [-> ->]; reflexivity | intros E; inversion E; auto].
Qed.

Lemma str_eqb_refl (a : str) : str_eqb a a = true.
Proof. apply str_eqb_eq; reflexivity. Qed.

Lemma str_in_In (x : str) (l : list str) : str_in x l = true <-> In x l.
Proof.
  unfold str_in; rewrite existsb_exists; split.
  - intros (y & Hy & E); apply str_eqb_eq in E; subst; assumption.
  - intros Hx; exists x; split; [assumption | apply str_eqb_refl].
Qed.

Lemma lstrip_no_lead (s : str) : no_lead (lstrip s).
Proof.
  induction s as [|c r IH]; simpl; [exact I|].
  destruct (is_space c) eqn:E; [assumption | simpl; assumption].
Qed.

Lemma lstrip_id (p : str) : no_lead p -> lstrip p = p.
Proof. destruct p as [|c r]; simpl; [reflexivity | intros ->; reflexivity]. Qed.

Lemma lstrip_split (s : str) :
  exists pre, s = pre ++ lstrip s /\ blank pre = true.
Proof.
  induction s as [|c r (pre & E & B)]; simpl.
  - exists []; split; reflexivity.
  - destruct (is_space c) eqn:Hc.
    + exists (c :: pre); split; [simpl; f_equal; exact E|].
      simpl; rewrite Hc; exact B.
    + exists []; split; reflexivity.
Qed.

Lemma no_lead_prefix (a b : str) : a <> [] -> no_lead (a ++ b) -> no_lead a.
Proof. destruct a; [congruence | simpl; auto]. Qed.

Lemma strip_stripped (s : str) : stripped (strip s).
Proof.
  unfold stripped, strip, rstrip; split.
  - destruct (lstrip_split (rev (lstrip s))) as (pre & E & _).
    destruct (lstrip (rev (lstrip s))) as [|c u] eqn:Hu; [exact I|].
    apply no_lead_prefix with (b := rev pre); [|].
    + intro A; apply (f_equal (@length char)) in A.
      rewrite length_rev in A; discriminate.
    + rewrite <- rev_app_distr, <- E, rev_involutive; apply lstrip_no_lead.
  - rewrite rev_involutive; apply lstrip_no_lead.
Qed.

Lemma strip_id (p : str) : stripped p -> strip p = p.
Proof.
  intros [A B]; unfold strip, rstrip.
  rewrite (lstrip_id _ A), (lstrip_id _ B); apply rev_involutive.
Qed.

Lemma endswith_app_dot (x : str) : endswith (x ++ lit ".") 46%N = true.
Proof. unfold endswith; rewrite rev_app_distr; reflexivity. Qed.

(** ** The prose fields *)

Lemma starts_with_app (a b : list str) (parts extra : list str) :
  starts_with a b parts -> starts_with a b (parts ++ extra).
Proof.
  intros (x & y & rest & Hx & Hy & ->).
  exists x, y, (rest ++ extra); auto.
Qed.

Lemma starts_with_append_if (a b : list str) (c : bool) (x : str)
    (parts : list str) :
  starts_with a b parts -> starts_with a b (append_if c x parts).
Proof.
  intros Hs; unfold append_if; destruct c;
    [apply starts_with_app|]; assumption.
Qed.

Lemma starts_with_pair (a b : list str) (x y : str) :
  In x a -> In y b -> starts_with a b ([x] ++ [y]).
Proof. intros Hx Hy; exists x, y, []; auto. Qed.

Ltac lit_in := apply in_map; simpl; tauto.

Ltac starts_with_steps :=
  repeat match goal with
    | |- starts_with _ _ (append_if _ _ _) => apply starts_with_append_if
    | |- starts_with _ _ ([_] ++ [_]) => apply starts_with_pair
    | |- starts_with _ _ (_ ++ _) => apply starts_with_app
    | |- starts_with _ _ (if ?c then _ else _) => destruct c
    | |- In (if ?c then _ else _) _ => destruct c
    | |- In (lit _) _ => lit_in
    end.

Section Prose.
Context {U : UnicodeDB} {H : HashSeed} {B64 : Binary64}.
Variable self : StyleAnalyzer.

Lemma describe_formatting_style_opens :
  opens_with paragraph_clauses bullet_clauses (describe_formatting_style self).
Proof.
  unfold describe_formatting_style, opens_with; cbv zeta.
  eexists; split; [|reflexivity].
  starts_with_steps.
Qed.

Lemma generate_style_summary_opens :
  opens_with length_clauses variation_clauses (generate_style_summary self).
Proof.
  unfold generate_style_summary, opens_with; cbv zeta.
  eexists; split; [|reflexivity].
  starts_with_steps.
Qed.

End Prose.

Lemma opens_with_not_empty (a b : list str) (s : str) :
  opens_with a b s -> s <> [] /\ endswith s 46%N = true.
Proof.
  intros (parts & _ & ->); split.
  - intro E; apply (f_equal (@length char)) in E.
    rewrite length_app in E; simpl in E; lia.
  - apply endswith_app_dot.
Qed.

(** C10.  Whatever the samples, the empty corpus included, the two prose
    fields of the profile are not empty: the formatting description opens
    with a paragraph-style clause and a bullet-usage clause, the style
    summary opens with a sentence-length clause and a variation clause, and
    both strings end with a period. *)
Theorem prose_fields_never_empty {U : UnicodeDB} {H : HashSeed} {B64 : Binary64}
    (corpus : list str) :
  let p := analyze corpus in
  opens_with paragraph_clauses bullet_clauses (formatting_style p)
  /\ opens_with length_clauses variation_clauses (raw_style_summary p)
  /\ formatting_style p <> [] /\ raw_style_summary p <> []
  /\ endswith (formatting_style p) 46%N = true
  /\ endswith (raw_style_summary p) 46%N = true.
Proof.
  simpl.
  pose proof (describe_formatting_style_opens (StyleAnalyzer_init corpus)) as F.
  pose proof (generate_style_summary_opens (StyleAnalyzer_init corpus)) as G.
  destruct (opens_with_not_empty _ _ _ F) as [F1 F2].
  destruct (opens_with_not_empty _ _ _ G) as [G1 G2].
  repeat split; assumption.
Qed.

(** ** The size caps of the ranked lists *)

Section Caps.
Context {U : UnicodeDB} {H : HashSeed}.

Lemma vocabulary_loop_length (top_n : nat) (items : list (str * nat))
    (distinctive : list str) :
  length distinctive < top_n ->
  length (vocabulary_loop top_n items distinctive) <= top_n.
Proof.
  revert distinctive; induction items as [|[word count] rest IH];
    intros d Hd; simpl; [lia|].
  match goal with |- context [if ?c then d ++ [word] else d] =>
    destruct c end.
  - destruct (Nat.leb top_n (length (d ++ [word]))) eqn:E.
    + rewrite length_app; simpl; lia.
    + apply IH; apply Nat.leb_gt in E; exact E.
  - destruct (Nat.leb top_n (length d)) eqn:E; [lia|].
    apply IH; exact Hd.
Qed.

Lemma starter_loop_length (top_n : nat) (items : list (str * nat))
    (result : list str) :
  length result < top_n ->
  length (starter_loop top_n items result) <= top_n.
Proof.
  revert result; induction items as [|[starter count] rest IH];
    intros d Hd; simpl; [lia|].
  match goal with |- context [if ?c then d ++ [starter] else d] =>
    destruct c end.
  - destruct (Nat.leb top_n (length (d ++ [starter]))) eqn:E.
    + rewrite length_app; simpl; lia.
    + apply IH; apply Nat.leb_gt in E; exact E.
  - destruct (Nat.leb top_n (length d)) eqn:E; [lia|].
    apply IH; exact Hd.
Qed.

Lemma extract_transition_words_length (self : StyleAnalyzer) (top_n : nat) :
  length (extract_transition_words self top_n) <= top_n.
Proof.
  unfold extract_transition_words; rewrite length_map; apply firstn_le_length.
Qed.

End Caps.

(** C9.  The ranked lists of the profile keep to their default caps: at
    most 10 signature phrases, 15 vocabulary preferences, 10 sentence
    starters and 10 transition words. *)
Theorem ranked_lists_within_caps {U : UnicodeDB} {H : HashSeed} {B64 : Binary64}
    (corpus : list str) :
  let p := analyze corpus in
  length (signature_phrases p) <= 10
  /\ length (vocabulary_preferences p) <= 15
  /\ length (sentence_starters p) <= 10
  /\ length (transition_words p) <= 10.
Proof.
  simpl; repeat split.
  - unfold extract_signature_phrases; apply firstn_le_length.
  - unfold extract_vocabulary_preferences.
    apply vocabulary_loop_length; simpl; lia.
  - unfold extract_sentence_starters.
    apply starter_loop_length; simpl; lia.
  - apply extract_transition_words_length.
Qed.

(** ** Sentences are stripped *)

Lemma split_sentences_stripped (text s : str) :
  In s (split_sentences text) -> stripped s /\ s <> [].
Proof.
  unfold split_sentences; rewrite in_map_iff.
  intros (x & <- & Hx); apply filter_In in Hx; destruct Hx as [_ K].
  split; [apply strip_stripped|].
  unfold keep_sentence in K; destruct (strip x); [discriminate | discriminate].
Qed.

(** ** Excerpts *)

Lemma glue_app (a b : list str) : glue (a ++ b) = glue a ++ glue b.
Proof. unfold glue; apply flat_map_app. Qed.

Lemma glue_snoc (a : list str) (s : str) :
  glue (a ++ [s]) = glue a ++ s ++ lit " ".
Proof. rewrite glue_app; unfold glue; simpl; rewrite app_nil_r; reflexivity. Qed.

Lemma glue_join (l : list str) :
  l <> [] -> glue l = join (lit " ") l ++ lit " ".
Proof.
  induction l as [|x [|y r] IH]; intros Hl; [congruence | |].
  - unfold glue; simpl; rewrite app_nil_r; reflexivity.
  - change (glue (x :: y :: r)) with ((x ++ lit " ") ++ glue (y :: r)).
    rewrite IH by discriminate.
    change (join (lit " ") (x :: y :: r))
      with (x ++ lit " " ++ join (lit " ") (y :: r)).
    rewrite <- !app_assoc; reflexivity.
Qed.

Lemma join_not_empty (sep : str) (l : list str) :
  l <> [] -> Forall (fun s => s <> []) l -> join sep l <> [].
Proof.
  destruct l as [|x [|y r]]; intros Hl Hf; [congruence | |];
    inversion Hf as [|? ? Hx _]; subst; simpl.
  - assumption.
  - destruct x; [congruence | discriminate].
Qed.

Lemma no_lead_app (a b : str) : a <> [] -> no_lead a -> no_lead (a ++ b).
Proof. destruct a; [congruence | simpl; auto]. Qed.

Lemma join_stripped (l : list str) :
  l <> [] -> Forall (fun s => stripped s /\ s <> []) l ->
  stripped (join (lit " ") l).
Proof.
  induction l as [|x [|y r] IH]; intros Hl Hf; [congruence | |];
    inversion Hf as [|? ? [[Hx1 Hx2] Hx] Hr]; subst.
  - split; assumption.
  - change (join (lit " ") (x :: y :: r))
      with (x ++ lit " " ++ join (lit " ") (y :: r)).
    destruct (IH ltac:(discriminate) Hr) as [_ J2].
    assert (Jn : join (lit " ") (y :: r) <> []).
    { apply join_not_empty; [discriminate|].
      eapply Forall_impl; [|exact Hr]; simpl; tauto. }
    split.
    + apply no_lead_app; assumption.
    + rewrite !rev_app_distr, <- app_assoc.
      apply no_lead_app; [|assumption].
      intro E; apply Jn; apply (f_equal (@rev char)) in E.
      rewrite rev_involutive in E; exact E.
Qed.

Lemma strip_trailing_space (p : str) :
  stripped p -> p <> [] -> strip (p ++ lit " ") = p.
Proof.
  intros [A B] Hp; unfold strip, rstrip.
  rewrite (lstrip_id (p ++ lit " ")) by (apply no_lead_app; assumption).
  rewrite rev_app_distr; simpl.
  rewrite (lstrip_id _ B); apply rev_involutive.
Qed.

Lemma excerpt_loop_greedy (m : nat) (sents taken : list str) :
  exists j,
    j <= length sents
    /\ excerpt_loop m sents (glue taken) = glue (taken ++ firstn j sents)
    /\ (0 < j -> length (glue (taken ++ firstn j sents)) <= m + 1)
    /\ (j < length sents ->
        m + 1 < length (glue (taken ++ firstn (S j) sents))).
Proof.
  revert taken; induction sents as [|s rest IH]; intros taken.
  - exists 0; simpl; rewrite app_nil_r; repeat split; lia.
  - simpl excerpt_loop.
    destruct (Nat.leb (length (glue taken) + length s) m) eqn:E.
    + rewrite <- glue_snoc.
      destruct (IH (taken ++ [s])) as (j & Hj & Eq & Hle & Hgt).
      exists (S j).
      change (firstn (S j) (s :: rest)) with (s :: firstn j rest).
      change (firstn (S (S j)) (s :: rest)) with (s :: firstn (S j) rest).
      replace (taken ++ s :: firstn j rest)
        with ((taken ++ [s]) ++ firstn j rest)
        by (rewrite <- app_assoc; reflexivity).
      replace (taken ++ s :: firstn (S j) rest)
        with ((taken ++ [s]) ++ firstn (S j) rest)
        by (rewrite <- app_assoc; reflexivity).
      repeat split.
      * simpl; lia.
      * exact Eq.
      * intros _; destruct j as [|j]; [|apply Hle; lia].
        simpl; rewrite app_nil_r, glue_snoc, !length_app; simpl.
        apply Nat.leb_le in E; lia.
      * intros Hlt; apply Hgt; simpl in Hlt; lia.
    + exists 0; simpl firstn; rewrite app_nil_r; repeat split; try lia.
      intros _; rewrite glue_snoc, !length_app; simpl.
      apply Nat.leb_gt in E; lia.
Qed.

Lemma firstn_In (A : Type) (n : nat) (l : list A) (x : A) :
  In x (firstn n l) -> In x l.
Proof.
  intros Hx; rewrite <- (firstn_skipn n l); apply in_or_app; left; exact Hx.
Qed.

Lemma firstn_not_nil (A : Type) (k : nat) (l : list A) :
  0 < k -> l <> [] -> firstn k l <> [].
Proof. destruct k, l; simpl; try lia; congruence. Qed.

Lemma excerpt_of_spec (m : nat) (sample : str) :
  (exists e, excerpt_of m sample = [e]
             /\ greedy_excerpt m (split_sentences sample) e)
  \/ (excerpt_of m sample = []
      /\ match split_sentences sample with
         | [] => True
         | s :: _ => m < length s
         end).
Proof.
  unfold excerpt_of.
  pose proof (split_sentences_stripped sample) as St.
  destruct (split_sentences sample) as [|s0 l0] eqn:Es; [right; auto|].
  cbv beta iota zeta.
  assert (Hl : s0 :: l0 <> []) by discriminate.
  assert (Hf : Forall (fun s => stripped s /\ s <> []) (s0 :: l0))
    by (apply Forall_forall; exact St).
  remember (s0 :: l0) as l eqn:El.
  destruct (excerpt_loop_greedy m (firstn 3 l) []) as (j & Hj & Eq & Hle & Hgt).
  change (glue []) with (@nil char) in Eq; cbn [app] in *.
  rewrite Eq; clear Eq.
  assert (H3 : j <= 3) by (rewrite length_firstn in Hj; lia).
  assert (Hjl : j <= length l) by (rewrite length_firstn in Hj; lia).
  rewrite firstn_firstn in *.
  replace (Nat.min j 3) with j in * by lia.
  destruct j as [|j].
  - right; split; [reflexivity|].
    subst l; specialize (Hgt ltac:(rewrite length_firstn; simpl; lia)).
    change (firstn 1 (s0 :: l0)) with [s0] in Hgt.
    unfold glue in Hgt; simpl flat_map in Hgt.
    rewrite app_nil_r, length_app in Hgt; simpl in Hgt; lia.
  - left.
    assert (Hk : firstn (S j) l <> []) by (apply firstn_not_nil; [lia | exact Hl]).
    assert (Hkf : Forall (fun s => stripped s /\ s <> []) (firstn (S j) l)).
    { apply Forall_forall; intros x Hx; apply firstn_In in Hx.
      rewrite Forall_forall in Hf; auto. }
    pose proof (join_stripped _ Hk Hkf) as Js.
    assert (Jn : join (lit " ") (firstn (S j) l) <> []).
    { apply join_not_empty; [exact Hk|].
      eapply Forall_impl; [|exact Hkf]; simpl; tauto. }
    rewrite (glue_join _ Hk) in *.
    rewrite (strip_trailing_space _ Js Jn).
    destruct (join (lit " ") (firstn (S j) l)) as [|c e'] eqn:Ej; [congruence|].
    exists (c :: e'); split; [reflexivity|].
    exists (S j); rewrite Ej; repeat split; try lia.
    + specialize (Hle ltac:(lia)); rewrite length_app in Hle; simpl in *; lia.
    + intros Hlt3 Hltl.
      specialize (Hgt ltac:(rewrite length_firstn; lia)).
      replace (Nat.min (S (S j)) 3) with (S (S j)) in Hgt by lia.
      rewrite glue_join in Hgt
        by (apply firstn_not_nil; [lia | exact Hl]).
      rewrite length_app in Hgt; change (length (lit " ")) with 1 in Hgt; lia.
Qed.

Lemma excerpt_of_greedy (m : nat) (sample e : str) :
  In e (excerpt_of m sample) -> greedy_excerpt m (split_sentences sample) e.
Proof.
  destruct (excerpt_of_spec m sample) as [(e' & -> & G) | [-> _]].
  - intros [<- | []]; exact G.
  - intros [].
Qed.

Lemma excerpt_of_at_most_one (m : nat) (sample : str) :
  length (excerpt_of m sample) <= 1.
Proof.
  destruct (excerpt_of_spec m sample) as [(e' & -> & _) | [-> _]]; simpl; lia.
Qed.

Lemma glue_firstn_le (j k : nat) (l : list str) :
  j <= k -> length (glue (firstn j l)) <= length (glue (firstn k l)).
Proof.
  intros Hjk.
  rewrite <- (firstn_skipn j (firstn k l)), firstn_firstn, glue_app, length_app.
  replace (Nat.min j k) with j by lia; lia.
Qed.

Lemma join_firstn_le (j k : nat) (l : list str) :
  1 <= j -> j <= k -> l <> [] ->
  length (join (lit " ") (firstn j l))
  <= length (join (lit " ") (firstn k l)).
Proof.
  intros Hj Hjk Hl.
  pose proof (glue_firstn_le j k l Hjk) as G.
  rewrite !glue_join, !length_app in G
    by (apply firstn_not_nil; [lia | exact Hl]).
  lia.
Qed.

(** The budget and the sentences fix the greedy excerpt. *)
Lemma greedy_excerpt_unique (budget : nat) (sentences : list str)
    (e e' : str) :
  greedy_excerpt budget sentences e -> greedy_excerpt budget sentences e' ->
  e = e'.
Proof.
  intros (j & Hj & Hjl & -> & Fj & Nj) (k & Hk & Hkl & -> & Fk & Nk).
  assert (Hl : sentences <> []) by (destruct sentences; simpl in *; [lia | discriminate]).
  destruct (Nat.lt_trichotomy j k) as [Lt | [-> | Gt]]; [| reflexivity |].
  - specialize (Nj ltac:(lia) ltac:(lia)).
    pose proof (join_firstn_le (S j) k sentences ltac:(lia) ltac:(lia) Hl).
    lia.
  - specialize (Nk ltac:(lia) ltac:(lia)).
    pose proof (join_firstn_le (S k) j sentences ltac:(lia) ltac:(lia) Hl).
    lia.
Qed.

(** Whether a sample gives an excerpt is decided by its first sentence. *)
Lemma excerpt_of_gives (m : nat) (sample : str) :
  sample_gives m sample (excerpt_of m sample).
Proof.
  unfold sample_gives.
  destruct (excerpt_of_spec m sample)
    as [(e & Ee & G) | [E M]].
  - destruct G as (k & Hk & Hkl & Ej & Hlen & Nk).
    destruct (split_sentences sample) as [|s l] eqn:Es;
      [simpl in Hkl; lia|].
    assert (Fit : length s <= m).
    { pose proof (join_firstn_le 1 k (s :: l) ltac:(lia) ltac:(lia)
                    ltac:(discriminate)) as J.
      change (join (lit " ") (firstn 1 (s :: l))) with s in J.
      rewrite <- Ej in J; lia. }
    replace (Nat.leb (length s) m) with true
      by (symmetry; apply Nat.leb_le; exact Fit).
    exists e; split; [exact Ee|].
    exists k; repeat split; try assumption; lia.
  - destruct (split_sentences sample) as [|s l]; [exact E|].
    replace (Nat.leb (length s) m) with false
      by (symmetry; apply Nat.leb_gt; exact M).
    exact E.
Qed.

(** C8.  Each sample gives at most one excerpt: the greedy concatenation
    of its first sentences, at most three, while the joined text fits 200
    characters, stopping at the first sentence that would not fit.  A
    sample whose first sentence fits does give its excerpt, the one that
    the budget and the sentences fix; a sample without a sentence, or with
    a first sentence of more than 200 characters, gives none.  The result
    takes these excerpts in the order of the samples, at most five of
    them, and each has at most 200 characters. *)
Theorem excerpts_greedy_and_bounded {U : UnicodeDB} {H : HashSeed}
    {B64 : Binary64} (corpus : list str) :
  let E := sample_excerpts (analyze corpus) in
  E = firstn 5 (flat_map (excerpt_of 200) corpus)
  /\ (forall sample, length (excerpt_of 200 sample) <= 1)
  /\ (forall sample e, In e (excerpt_of 200 sample) ->
        greedy_excerpt 200 (split_sentences sample) e)
  /\ (forall sample, sample_gives 200 sample (excerpt_of 200 sample))
  /\ (forall sentences e e',
        greedy_excerpt 200 sentences e -> greedy_excerpt 200 sentences e' ->
        e = e')
  /\ length E <= 5
  /\ Forall (fun e => length e <= 200) E.
Proof.
  cbv zeta.
  change (sample_excerpts (analyze corpus))
    with (firstn 5 (flat_map (excerpt_of 200) corpus)).
  split; [reflexivity|].
  split; [intros; apply excerpt_of_at_most_one|].
  split; [intros sample e; apply excerpt_of_greedy|].
  split; [intros sample; apply excerpt_of_gives|].
  split; [intros sentences e e'; apply greedy_excerpt_unique|].
  split; [apply firstn_le_length|].
  apply Forall_forall; intros e He.
  apply firstn_In in He; apply in_flat_map in He.
  destruct He as (sample & _ & He).
  apply excerpt_of_greedy in He.
  destruct He as (k & _ & _ & _ & Hlen & _); exact Hlen.
Qed.

(** ** Standard deviations as real numbers *)

Lemma Qltb_lt (a b : Q) : Qltb a b = true <-> (a < b)%Q.
Proof.
  unfold Qltb; rewrite negb_true_iff, <- not_true_iff_false, Qle_bool_iff.
  split; [apply Qnot_le_lt | apply Qlt_not_le].
Qed.





Lemma sqrt_gt (a v : R) : (0 <= a)%R -> (0 <= v)%R ->
  (a * a < v <-> a < sqrt v)%R.
Proof.
  intros Ha Hv; split; intros A.
  - rewrite <- (sqrt_square a Ha); apply sqrt_lt_1_alt; split; [nra | exact A].
  - pose proof (sqrt_sqrt v Hv) as E; pose proof (sqrt_pos v) as P; nra.
Qed.

Lemma sqrt_div_gt (v m q : R) : (0 <= v)%R -> (0 < m)%R -> (0 <= q)%R ->
  (q * q < v / (m * m) <-> q < sqrt v / m)%R.
Proof.
  intros Hv Hm Hq.
  assert (E1 : (q * q < v / (m * m) <-> (q * m) * (q * m) < v)%R).
  { split; intros A.
    - assert (E : (v = v / (m * m) * (m * m))%R) by (field; lra).
      rewrite E; clear E; assert (0 < m * m)%R by nra; nra.
    - assert (E : (q * q = (q * m * (q * m)) / (m * m))%R) by (field; lra).
      rewrite E; unfold Rdiv; apply Rmult_lt_compat_r; [|exact A].
      apply Rinv_0_lt_compat; nra. }
  assert (E2 : (q < sqrt v / m <-> q * m < sqrt v)%R).
  { split; intros A.
    - assert (E : (sqrt v = sqrt v / m * m)%R) by (field; lra).
      rewrite E; clear E; nra.
    - assert (E : (q = q * m / m)%R) by (field; lra).
      rewrite E; unfold Rdiv; apply Rmult_lt_compat_r; [|exact A].
      apply Rinv_0_lt_compat; exact Hm. }
  rewrite E1, E2; apply sqrt_gt; [nra | exact Hv].
Qed.









(** ** White space *)

Lemma blank_app (a b : str) : blank (a ++ b) = blank a && blank b.
Proof. apply forallb_app. Qed.

Lemma blank_rev (a : str) : blank a = true -> blank (rev a) = true.
Proof.
  unfold blank; rewrite !forallb_forall; intros Ha x Hx.
  apply Ha, in_rev; exact Hx.
Qed.

Lemma lstrip_blank (s : str) : blank s = true -> lstrip s = [].
Proof.
  induction s as [|c r IH]; simpl; [reflexivity|].
  intros B; apply andb_true_iff in B; destruct B as [-> B]; auto.
Qed.

Lemma lstrip_nil_blank (s : str) : lstrip s = [] -> blank s = true.
Proof.
  intros E; destruct (lstrip_split s) as (pre & Es & B).
  rewrite E, app_nil_r in Es; subst; exact B.
Qed.

Lemma strip_split (p : str) :
  exists pre post,
    p = pre ++ strip p ++ post /\ blank pre = true /\ blank post = true.
Proof.
  destruct (lstrip_split p) as (pre & E1 & B1).
  destruct (lstrip_split (rev (lstrip p))) as (pre2 & E2 & B2).
  exists pre, (rev pre2); repeat split.
  - unfold strip, rstrip.
    rewrite <- rev_app_distr, <- E2, rev_involutive; exact E1.
  - exact B1.
  - apply blank_rev; exact B2.
Qed.

Lemma strip_blank (p : str) : blank p = true -> strip p = [].
Proof.
  intros B; unfold strip, rstrip.
  rewrite (lstrip_blank _ B); reflexivity.
Qed.

Lemma strip_nil_blank (p : str) : strip p = [] -> blank p = true.
Proof.
  intros E; destruct (strip_split p) as (pre & post & Ep & B1 & B2).
  rewrite E in Ep; simpl in Ep; rewrite Ep, blank_app, B1, B2; reflexivity.
Qed.

Lemma visible_app (a b : str) : visible (a ++ b) = visible a ++ visible b.
Proof. apply filter_app. Qed.

Lemma visible_blank (a : str) : blank a = true -> visible a = [].
Proof.
  induction a as [|c r IH]; simpl; [reflexivity|].
  intros B; apply andb_true_iff in B; destruct B as [-> B]; simpl; auto.
Qed.

Lemma visible_nil_blank (a : str) : visible a = [] -> blank a = true.
Proof.
  induction a as [|c r IH]; simpl; [reflexivity|].
  destruct (is_space c); simpl; [exact IH | discriminate].
Qed.

Lemma visible_strip (p : str) : visible (strip p) = visible p.
Proof.
  destruct (strip_split p) as (pre & post & Ep & B1 & B2).
  rewrite Ep at 2; rewrite !visible_app.
  rewrite (visible_blank _ B1), (visible_blank _ B2), app_nil_r; reflexivity.
Qed.

Lemma visible_skipn (k : nat) (s : str) :
  blank (firstn k s) = true -> visible (skipn k s) = visible s.
Proof.
  intros B; rewrite <- (firstn_skipn k s) at 2.
  rewrite visible_app, (visible_blank _ B); reflexivity.
Qed.

(** ** Paragraphs *)

Lemma ws_prefix_blank (r : str) : blank (ws_prefix r) = true.
Proof.
  induction r as [|c r IH]; simpl; [reflexivity|].
  destruct (is_space c) eqn:E; simpl; [rewrite E; exact IH | reflexivity].
Qed.

Lemma ws_prefix_lstrip (r : str) : r = ws_prefix r ++ lstrip r.
Proof.
  induction r as [|c r IH]; simpl; [reflexivity|].
  destruct (is_space c); simpl; [f_equal; exact IH | reflexivity].
Qed.

Lemma ws_prefix_app (ws x : str) :
  blank ws = true -> ws_prefix (ws ++ x) = ws ++ ws_prefix x.
Proof.
  induction ws as [|c r IH]; simpl; [reflexivity|].
  intros B; apply andb_true_iff in B; destruct B as [-> B].
  f_equal; auto.
Qed.

Lemma lstrip_app_blank (ws x : str) :
  blank ws = true -> lstrip (ws ++ x) = lstrip x.
Proof.
  induction ws as [|c r IH]; simpl; [reflexivity|].
  intros B; apply andb_true_iff in B; destruct B as [-> B]; auto.
Qed.

Lemma last_newline_bound (ws : str) (k : nat) :
  last_newline ws = Some k -> 1 <= k <= length ws.
Proof.
  revert k; induction ws as [|c r IH]; simpl; intros k; [discriminate|].
  destruct (last_newline r) as [j|].
  - intros E; inversion E; subst; specialize (IH j eq_refl); lia.
  - destruct (N.eqb c 10); [|discriminate].
    intros E; inversion E; subst; lia.
Qed.

Lemma last_newline_found (ws : str) :
  In 10%N ws -> last_newline ws <> None.
Proof.
  induction ws as [|c r IH]; simpl; [tauto|].
  intros [-> | Hin].
  - destruct (last_newline r); [discriminate|].
    rewrite N.eqb_refl; discriminate.
  - destruct (last_newline r); [discriminate|]; tauto.
Qed.

Lemma paragraph_break_blank (r : str) (k : nat) :
  paragraph_break r = Some k -> blank (firstn k r) = true.
Proof.
  unfold paragraph_break.
  destruct (last_newline (ws_prefix r)) as [j|] eqn:E.
  - intros Ek; inversion Ek; subst j.
    apply last_newline_bound in E.
    rewrite (ws_prefix_lstrip r) at 1.
    rewrite firstn_app.
    replace (k - length (ws_prefix r)) with 0 by lia.
    rewrite firstn_0, app_nil_r.
    pose proof (ws_prefix_blank r) as B.
    rewrite <- (firstn_skipn k (ws_prefix r)), blank_app in B.
    apply andb_true_iff in B; tauto.
  - destruct (lstrip r) as [|d ?]; [discriminate|].
    destruct (is_bullet_char d); [|discriminate].
    intros Ek; inversion Ek; reflexivity.
Qed.

Lemma bullet_not_space (c : char) :
  is_bullet_char c = true -> is_space c = false.
Proof.
  unfold is_bullet_char; rewrite !orb_true_iff, !N.eqb_eq.
  intros [[-> | ->] | ->]; reflexivity.
Qed.

Lemma blank_line_ahead_matches (r post : str) :
  blank_line_ahead r -> paragraph_break (r ++ post) <> None.
Proof.
  intros (ws & b & -> & B); unfold paragraph_break.
  rewrite <- app_assoc, (ws_prefix_app _ _ B); simpl.
  match goal with |- context [last_newline ?x] =>
    destruct (last_newline x) eqn:E; [discriminate|];
    exfalso; revert E; apply last_newline_found
  end.
  apply in_or_app; right; left; reflexivity.
Qed.

Lemma bullet_ahead_matches (r post : str) :
  bullet_ahead r -> paragraph_break (r ++ post) <> None.
Proof.
  intros (ws & c & b & -> & B & Hc); unfold paragraph_break.
  rewrite <- app_assoc, (ws_prefix_app _ _ B), (lstrip_app_blank _ _ B); simpl.
  rewrite (bullet_not_space _ Hc), Hc.
  match goal with |- context [last_newline ?x] =>
    destruct (last_newline x); discriminate
  end.
Qed.

Lemma snoc_eq_app_cons (A : Type) (l a r : list A) (c x : A) :
  l ++ [c] = a ++ x :: r ->
  (r = [] /\ l = a /\ c = x) \/ (exists r', r = r' ++ [c] /\ l = a ++ x :: r').
Proof.
  destruct r as [|y r0 _] using rev_ind; intros E.
  - left; apply (app_inj_tail l a c x) in E; tauto.
  - right; exists r0.
    rewrite app_comm_cons, app_assoc in E.
    apply app_inj_tail in E; destruct E as [-> ->]; auto.
Qed.

Lemma no_match_inside_step (acc rest : str) (c : char) :
  no_match_inside acc (c :: rest) ->
  (c = 10%N -> paragraph_break rest = None) ->
  no_match_inside (c :: acc) rest.
Proof.
  intros Inv Hc a r E; simpl in E.
  apply snoc_eq_app_cons in E; destruct E as [(-> & _ & ->) | (r' & -> & E)].
  - apply Hc; reflexivity.
  - rewrite <- app_assoc; apply (Inv a r' E).
Qed.

(** A piece of the split holds no place where the pattern would match. *)
Lemma split_paragraph_re_clean (rest : str) :
  forall skip acc p,
    (0 < skip -> acc = []) ->
    no_match_inside acc rest ->
    In p (split_paragraph_re skip acc rest) ->
    forall a r, p = a ++ 10%N :: r -> paragraph_break r = None.
Proof.
  assert (Done : forall acc rest0 a r,
             no_match_inside acc rest0 -> rev acc = a ++ 10%N :: r ->
             paragraph_break r = None).
  { intros acc rest0 a r Inv E.
    destruct (paragraph_break r) as [k|] eqn:Ek; [|reflexivity].
    exfalso.
    assert (M : blank_line_ahead r \/ bullet_ahead r).
    { unfold paragraph_break in Ek.
      destruct (last_newline (ws_prefix r)) as [j|] eqn:El.
      - left.
        assert (Hin : In 10%N (ws_prefix r)).
        { clear -El; revert j El; induction (ws_prefix r) as [|c w IH];
            simpl; intros j; [discriminate|].
          destruct (last_newline w) as [i|].
          - intros _; right; eapply IH; reflexivity.
          - destruct (N.eqb c 10) eqn:Ec; [|discriminate].
            apply N.eqb_eq in Ec; subst; intros _; left; reflexivity. }
        apply in_split in Hin; destruct Hin as (w1 & w2 & Ew).
        exists w1, (w2 ++ lstrip r); split.
        + rewrite (ws_prefix_lstrip r) at 1; rewrite Ew, <- app_assoc.
          reflexivity.
        + pose proof (ws_prefix_blank r) as B; rewrite Ew, blank_app in B.
          apply andb_true_iff in B; tauto.
      - right; destruct (lstrip r) as [|d t] eqn:Et; [discriminate|].
        destruct (is_bullet_char d) eqn:Ed; [|discriminate].
        exists (ws_prefix r), d, t; repeat split.
        + rewrite <- Et; apply ws_prefix_lstrip.
        + apply ws_prefix_blank.
        + exact Ed. }
    specialize (Inv a r E).
    destruct M as [M | M];
      [apply (blank_line_ahead_matches _ rest0) in M
      | apply (bullet_ahead_matches _ rest0) in M]; apply M; exact Inv. }
  induction rest as [|c rest IH]; intros skip acc p Hs Inv Hp a r E.
  - simpl in Hp; destruct Hp as [<- | []]; eapply Done; eassumption.
  - simpl in Hp; destruct skip as [|k].
    + destruct (N.eqb c 10) eqn:Ec.
      * apply N.eqb_eq in Ec; subst c.
        destruct (paragraph_break rest) as [k|] eqn:Ek.
        -- destruct Hp as [<- | Hp]; [eapply Done; eassumption|].
           eapply (IH k []); try eassumption; [reflexivity|].
           intros a' r' E'; destruct a'; discriminate.
        -- eapply (IH 0 (10%N :: acc)); try eassumption; [lia|].
           apply no_match_inside_step; [exact Inv | intros _; exact Ek].
      * eapply (IH 0 (c :: acc)); try eassumption; [lia|].
        apply no_match_inside_step; [exact Inv|].
        intros ->; discriminate.
    + rewrite (Hs ltac:(lia)) in *.
      eapply (IH k []); try eassumption; [reflexivity|].
      intros a' r' E'; destruct a'; discriminate.
Qed.

(** The split drops white space only. *)
Lemma split_paragraph_re_visible (rest : str) :
  forall skip acc,
    blank (firstn skip rest) = true ->
    visible (concat (split_paragraph_re skip acc rest))
    = visible (rev acc) ++ visible (skipn skip rest).
Proof.
  induction rest as [|c rest IH]; intros skip acc B.
  - simpl; rewrite skipn_nil, !app_nil_r; reflexivity.
  - simpl split_paragraph_re; destruct skip as [|k].
    + assert (Keep : visible (concat (split_paragraph_re 0 (c :: acc) rest))
                     = visible (rev acc) ++ visible (skipn 0 (c :: rest))).
      { rewrite (IH 0 (c :: acc) eq_refl); simpl rev; simpl skipn.
        change (c :: rest) with ([c] ++ rest).
        rewrite !visible_app, <- app_assoc; reflexivity. }
      destruct (N.eqb c 10) eqn:Ec; [|exact Keep].
      apply N.eqb_eq in Ec; subst c.
      destruct (paragraph_break rest) as [k|] eqn:Ek; [|exact Keep].
      apply paragraph_break_blank in Ek.
      simpl concat; rewrite visible_app, (IH k [] Ek); simpl.
      rewrite (visible_skipn _ _ Ek); reflexivity.
    + simpl in B; apply andb_true_iff in B; destruct B as [Hc B].
      rewrite (IH k acc B); simpl skipn; reflexivity.
Qed.

Lemma split_paragraphs_clean (text q : str) :
  In q (split_paragraphs text) ->
  q <> [] /\ stripped q /\ ~ has_blank_line q /\ ~ has_bullet_line q.
Proof.
  unfold split_paragraphs; rewrite in_map_iff.
  intros (p & <- & Hp); apply filter_In in Hp; destruct Hp as [Hp Nb].
  assert (Clean : forall a r, p = a ++ 10%N :: r -> paragraph_break r = None).
  { apply (split_paragraph_re_clean text 0 [] p); [lia | | exact Hp].
    intros a r E; destruct a; discriminate. }
  destruct (strip_split p) as (pre & post & Ep & _ & _).
  assert (Inside : forall a r, strip p = a ++ 10%N :: r ->
                               paragraph_break (r ++ post) = None).
  { intros a r E; apply (Clean (pre ++ a)).
    rewrite Ep at 1; rewrite E, <- !app_assoc; reflexivity. }
  repeat split.
  - unfold nonblank in Nb; destruct (strip p); [discriminate | discriminate].
  - apply strip_stripped.
  - apply strip_stripped.
  - intros (a & r & E & M).
    apply (blank_line_ahead_matches r post M), (Inside a r E).
  - intros (a & r & E & M).
    apply (bullet_ahead_matches r post M), (Inside a r E).
Qed.

Lemma split_paragraphs_visible (text : str) :
  visible (concat (split_paragraphs text)) = visible text.
Proof.
  unfold split_paragraphs.
  pose proof (split_paragraph_re_visible text 0 [] eq_refl) as V.
  change (visible (rev []) ++ visible (skipn 0 text)) with (visible text) in V.
  rewrite <- V; clear V.
  induction (split_paragraph_re 0 [] text) as [|p l IH]; [reflexivity|].
  simpl filter; simpl concat at 2; rewrite visible_app, <- IH.
  destruct (nonblank p) eqn:Nb.
  - simpl; rewrite visible_app, visible_strip; reflexivity.
  - unfold nonblank in Nb.
    assert (B : blank p = true)
      by (apply strip_nil_blank; destruct (strip p); [reflexivity | discriminate]).
    rewrite (visible_blank _ B); reflexivity.
Qed.

(** A text without a place of a match is one piece. *)
Lemma split_paragraph_re_whole (s : str) :
  (forall a r, s = a ++ 10%N :: r -> paragraph_break r = None) ->
  forall acc, split_paragraph_re 0 acc s = [rev acc ++ s].
Proof.
  induction s as [|c s IH]; intros Hn acc; simpl.
  - rewrite app_nil_r; reflexivity.
  - assert (Hs : forall a r, s = a ++ 10%N :: r -> paragraph_break r = None).
    { intros a r E; apply (Hn (c :: a)); rewrite E; reflexivity. }
    assert (Keep : split_paragraph_re 0 (c :: acc) s = [rev acc ++ c :: s]).
    { rewrite (IH Hs); simpl; rewrite <- app_assoc; reflexivity. }
    destruct (N.eqb c 10) eqn:Ec; [|exact Keep].
    apply N.eqb_eq in Ec; subst c.
    rewrite (Hn [] s eq_refl); exact Keep.
Qed.

Lemma last_newline_none (ws : str) :
  ~ In 10%N ws -> last_newline ws = None.
Proof.
  intros Hn; destruct (last_newline ws) eqn:E; [|reflexivity].
  exfalso; apply Hn.
  revert n E; induction ws as [|c w IH]; simpl; intros n; [discriminate|].
  destruct (last_newline w) as [i|].
  - intros _; right; apply (IH ltac:(intro A; apply Hn; right; exact A) i).
    reflexivity.
  - destruct (N.eqb c 10) eqn:Ec; [|discriminate].
    apply N.eqb_eq in Ec; subst; intros _; left; reflexivity.
Qed.

Lemma last_newline_app (x y : str) :
  last_newline y = None ->
  last_newline (x ++ 10%N :: y) = Some (S (length x)).
Proof.
  intros Hy; induction x as [|c x IH]; simpl.
  - rewrite Hy; reflexivity.
  - rewrite IH; reflexivity.
Qed.

Lemma ws_prefix_no_blank_line (r : str) :
  ~ blank_line_ahead r -> last_newline (ws_prefix r) = None.
Proof.
  intros Hn; apply last_newline_none; intros Hin.
  apply in_split in Hin; destruct Hin as (w1 & w2 & Ew).
  apply Hn; exists w1, (w2 ++ lstrip r); split.
  - rewrite (ws_prefix_lstrip r) at 1; rewrite Ew, <- app_assoc.
    reflexivity.
  - pose proof (ws_prefix_blank r) as B; rewrite Ew, blank_app in B.
    apply andb_true_iff in B; tauto.
Qed.

Lemma paragraph_break_none (r : str) :
  ~ breaks_after r -> paragraph_break r = None.
Proof.
  intros Hn; unfold paragraph_break.
  rewrite ws_prefix_no_blank_line by (intro A; apply Hn; left; exact A).
  destruct (lstrip r) as [|d t] eqn:Et; [reflexivity|].
  destruct (is_bullet_char d) eqn:Ed; [|reflexivity].
  exfalso; apply Hn; right; exists (ws_prefix r), d, t; repeat split.
  - rewrite <- Et; apply ws_prefix_lstrip.
  - apply ws_prefix_blank.
  - exact Ed.
Qed.

(** At a blank line the match runs to the last newline of the white
    space that follows. *)
Lemma paragraph_break_blank_line (ws rest : str) :
  blank ws = true -> ~ blank_line_ahead rest ->
  paragraph_break (ws ++ 10%N :: rest) = Some (S (length ws)).
Proof.
  intros B Hn; unfold paragraph_break.
  assert (B1 : blank (ws ++ [10%N]) = true)
    by (rewrite blank_app, B; reflexivity).
  replace (ws ++ 10%N :: rest) with ((ws ++ [10%N]) ++ rest)
    by (rewrite <- app_assoc; reflexivity).
  rewrite (ws_prefix_app _ _ B1), <- app_assoc; cbn [app].
  rewrite (last_newline_app ws _ (ws_prefix_no_blank_line rest Hn)).
  reflexivity.
Qed.

(** Before a bullet line the match is the newline alone. *)
Lemma paragraph_break_bullet (r : str) :
  bullet_ahead r -> ~ blank_line_ahead r -> paragraph_break r = Some 0.
Proof.
  intros (ws & c & b & -> & B & Hc) Hn; unfold paragraph_break.
  rewrite (ws_prefix_no_blank_line _ Hn), (lstrip_app_blank _ _ B).
  cbn [lstrip]; rewrite (bullet_not_space _ Hc), Hc; reflexivity.
Qed.

Lemma split_paragraph_re_skip (k : nat) :
  forall r, split_paragraph_re k [] r = split_paragraph_re 0 [] (skipn k r).
Proof.
  induction k as [|k IH]; intros r; [reflexivity|].
  destruct r as [|c r]; [reflexivity|]; cbn [split_paragraph_re skipn].
  apply IH.
Qed.

(** The scan up to the first match. *)
Lemma split_paragraph_re_first (a : str) :
  forall acc r k,
    (forall a1 r1, a = a1 ++ 10%N :: r1 ->
                   paragraph_break (r1 ++ 10%N :: r) = None) ->
    paragraph_break r = Some k ->
    split_paragraph_re 0 acc (a ++ 10%N :: r)
    = (rev acc ++ a) :: split_paragraph_re 0 [] (skipn k r).
Proof.
  induction a as [|c a IH]; intros acc r k Hn Hk.
  - cbn [app split_paragraph_re]; rewrite N.eqb_refl, Hk, app_nil_r.
    rewrite split_paragraph_re_skip; reflexivity.
  - assert (Ha : forall a1 r1, a = a1 ++ 10%N :: r1 ->
                               paragraph_break (r1 ++ 10%N :: r) = None).
    { intros a1 r1 E; apply (Hn (c :: a1)); rewrite E; reflexivity. }
    assert (Keep : split_paragraph_re 0 (c :: acc) (a ++ 10%N :: r)
                   = (rev acc ++ c :: a)
                       :: split_paragraph_re 0 [] (skipn k r)).
    { rewrite (IH (c :: acc) r k Ha Hk); cbn [rev].
      rewrite <- app_assoc; reflexivity. }
    cbn [app split_paragraph_re].
    destruct (N.eqb c 10) eqn:Ec; [|exact Keep].
    apply N.eqb_eq in Ec; subst c.
    rewrite (Hn [] a eq_refl); exact Keep.
Qed.

Lemma fragment_filter (p : str) (l : list str) :
  map strip (filter nonblank (p :: l))
  = fragment p ++ map strip (filter nonblank l).
Proof.
  unfold fragment, nonblank; cbn [filter].
  destruct (blank p) eqn:B.
  - rewrite (strip_blank p B); reflexivity.
  - destruct (strip p) as [|c t] eqn:E.
    + apply strip_nil_blank in E; congruence.
    + cbn [map app]; rewrite E; reflexivity.
Qed.

Lemma split_paragraphs_unbroken (text : str) :
  unbroken text -> split_paragraphs text = fragment text.
Proof.
  intros Hu; unfold split_paragraphs.
  rewrite (split_paragraph_re_whole text); cbn [rev app].
  - rewrite fragment_filter, app_nil_r; reflexivity.
  - intros a r E; apply paragraph_break_none, (Hu a r E).
Qed.

Lemma split_paragraphs_at_break (a r : str) (k : nat) :
  (forall a1 r1, a = a1 ++ 10%N :: r1 -> ~ breaks_after (r1 ++ 10%N :: r)) ->
  paragraph_break r = Some k ->
  split_paragraphs (a ++ 10%N :: r)
  = fragment a ++ split_paragraphs (skipn k r).
Proof.
  intros Hn Hk; unfold split_paragraphs.
  rewrite (split_paragraph_re_first a [] r k); [|
    intros a1 r1 E; apply paragraph_break_none, (Hn a1 r1 E) | exact Hk].
  cbn [rev app]; apply fragment_filter.
Qed.

(** C6, as amended.  Paragraph splitting breaks the text at every blank
    line and before every line whose first character after white space is
    one of [-], [•], [*], and nowhere else: a numbered-list marker causes
    no break.  A text without such a place is one paragraph.  At the first
    such place the text before it is one paragraph and the text after it
    is split in the same way: after a blank line that is the text behind
    the last newline of the white space, before a bullet line it is the
    line itself.  A fragment of white space only is dropped, the others
    are stripped: every returned paragraph is a non-empty string without
    white space at either end, it holds no blank line and no bullet line
    after its first, and the paragraphs together keep the characters of
    the text that are not white space. *)
Theorem split_paragraphs_breaks (text : str) :
  Forall (fun p => p <> [] /\ stripped p
                   /\ ~ has_blank_line p /\ ~ has_bullet_line p)
         (split_paragraphs text)
  /\ visible (concat (split_paragraphs text)) = visible text
  /\ (unbroken text -> split_paragraphs text = fragment text)
  /\ (forall a ws rest,
        text = a ++ 10%N :: ws ++ 10%N :: rest ->
        first_break a (ws ++ 10%N :: rest) ->
        blank ws = true -> ~ blank_line_ahead rest ->
        split_paragraphs text = fragment a ++ split_paragraphs rest)
  /\ (forall a r,
        text = a ++ 10%N :: r ->
        first_break a r -> ~ blank_line_ahead r ->
        split_paragraphs text = fragment a ++ split_paragraphs r).
Proof.
  split; [|split; [apply split_paragraphs_visible|]].
  { apply Forall_forall; intros q Hq; apply split_paragraphs_clean with text.
    exact Hq. }
  split; [apply split_paragraphs_unbroken|].
  split.
  - intros a ws rest -> [_ Hn] B Hb.
    rewrite (split_paragraphs_at_break a _ _ Hn
               (paragraph_break_blank_line ws rest B Hb)).
    replace (skipn (S (length ws)) (ws ++ 10%N :: rest)) with rest;
      [reflexivity|].
    replace (ws ++ 10%N :: rest) with ((ws ++ [10%N]) ++ rest)
      by (rewrite <- app_assoc; reflexivity).
    rewrite skipn_app, skipn_all2 by (rewrite length_app; simpl; lia).
    rewrite length_app; cbn [length app].
    replace (S (length ws) - (length ws + 1)) with 0 by lia; reflexivity.
  - intros a r -> [Hb Hn] Hnb.
    destruct Hb as [Hb | Hb]; [contradiction|].
    rewrite (split_paragraphs_at_break a r 0 Hn
               (paragraph_break_bullet r Hb Hnb)).
    reflexivity.
Qed.

(** C6 as stated fails: the paragraph pattern knows no numbered-list
    marker.  The text of two lines [a] and [1. b] stays one paragraph,
    with the numbered line inside it. *)
Lemma numbered_line_does_not_break :
  let text := lit "a" ++ 10%N :: lit "1. b" in
  split_paragraphs text = [text]
  /\ @has_numbered_line ascii_db text.
Proof.
  split; [reflexivity|].
  exists (lit "a"), (lit "1. b"); split; reflexivity.
Qed.

(** ** A corpus without paragraphs has no sentences *)

Lemma collapse_ws_blank (b : bool) (t : str) :
  blank t = true -> blank (collapse_ws b t) = true.
Proof.
  revert b; induction t as [|c r IH]; intros b B; [reflexivity|].
  simpl in B; apply andb_true_iff in B; destruct B as [Hc B].
  simpl; rewrite Hc; destruct b; simpl; auto.
Qed.

Lemma split_sentences_blank (text : str) :
  blank text = true -> split_sentences text = [].
Proof.
  intros B; unfold split_sentences.
  rewrite (strip_blank _ (collapse_ws_blank false text B)); reflexivity.
Qed.

Lemma split_paragraphs_nil_blank (text : str) :
  split_paragraphs text = [] -> blank text = true.
Proof.
  intros E; apply visible_nil_blank.
  rewrite <- split_paragraphs_visible, E; reflexivity.
Qed.

Lemma flat_map_nil (A B : Type) (f : A -> list B) (l : list A) :
  flat_map f l = [] -> forall x, In x l -> f x = [].
Proof.
  induction l as [|y l IH]; simpl; [tauto|].
  intros E; apply app_eq_nil in E; destruct E as [E1 E2].
  intros x [<- | Hx]; auto.
Qed.

Lemma flat_map_all_nil (A B : Type) (f : A -> list B) (l : list A) :
  (forall x, In x l -> f x = []) -> flat_map f l = [].
Proof.
  induction l as [|y l IH]; simpl; [reflexivity|].
  intros E; rewrite (E y (or_introl eq_refl)), IH; auto.
Qed.


(** ** Sentence length variation *)


Lemma classify_variation_cases (cv : Q) :
  ((double_0_7 < cv)%Q -> classify_variation cv = lit "high")
  /\ ((cv <= double_0_7)%Q -> (double_0_4 < cv)%Q ->
      classify_variation cv = lit "medium")
  /\ ((cv <= double_0_4)%Q -> classify_variation cv = lit "low").
Proof.
  unfold classify_variation.
  assert (Lt : (double_0_4 < double_0_7)%Q) by reflexivity.
  assert (No : forall a b, (b <= a)%Q -> Qltb a b = false).
  { intros a b Hle; apply not_true_iff_false; rewrite Qltb_lt.
    apply Qle_not_lt; exact Hle. }
  split; [|split].
  - intros Hc; apply Qltb_lt in Hc; rewrite Hc; reflexivity.
  - intros Hle Hlt; rewrite (No _ _ Hle).
    apply Qltb_lt in Hlt; rewrite Hlt; reflexivity.
  - intros Hle; rewrite (No _ _ Hle).
    rewrite (No double_0_7 cv); [reflexivity|].
    eapply Qle_trans; [exact Hle | apply Qlt_le_weak; exact Lt].
Qed.



(** ** Sets under a hash seed *)

Lemma dedup_In (x : str) (l : list str) : In x (dedup l) <-> In x l.
Proof.
  induction l as [|y r IH]; simpl; [tauto|].
  rewrite filter_In, IH, negb_true_iff.
  destruct (str_eqb y x) eqn:E.
  - apply str_eqb_eq in E; subst; tauto.
  - assert (y <> x) by (intro A; apply str_eqb_eq in A; congruence).
    tauto.
Qed.

Lemma dedup_length (l : list str) : length (dedup l) <= length l.
Proof.
  induction l as [|y r IH]; simpl; [lia|].
  pose proof (filter_length_le (fun z => negb (str_eqb y z)) (dedup r)); lia.
Qed.

Lemma set_mem_seed (H : HashSeed) (x : str) (l : list str) :
  seed_ok H -> set_mem x (@py_set H l) = str_in x l.
Proof.
  intros ok; apply eq_true_iff_eq; unfold set_mem, py_set.
  rewrite !str_in_In, <- (dedup_In x l).
  split; apply Permutation_in; [|apply Permutation_sym]; apply ok.
Qed.

Lemma set_len_seed (H : HashSeed) (l : list str) :
  seed_ok H -> length (@py_set H l) = length (dedup l).
Proof. intros ok; apply Permutation_length, ok. Qed.

Lemma seed_first_ok : seed_ok seed_first.
Proof. intros l; apply Permutation_refl. Qed.

Lemma seed_rev_ok : seed_ok seed_rev.
Proof. intros l; apply Permutation_sym, Permutation_rev. Qed.

(** ** The profile does not depend on the hash seed *)

Section Seeds.
Context {U : UnicodeDB} {B64 : Binary64}.
Variables H1 H2 : HashSeed.
Hypothesis ok1 : seed_ok H1.
Hypothesis ok2 : seed_ok H2.

Lemma all_common_seed (gram : list str) :
  @all_common H1 gram = @all_common H2 gram.
Proof.
  unfold all_common, COMMON_WORDS.
  induction gram as [|w gram IH]; simpl; [reflexivity|].
  rewrite IH, (set_mem_seed H1 _ _ ok1), (set_mem_seed H2 _ _ ok2).
  reflexivity.
Qed.

Lemma trigram_loop_seed (top_n : nat) (items : list (list str * nat))
    (phrases : list str) :
  @trigram_loop H1 top_n items phrases = @trigram_loop H2 top_n items phrases.
Proof.
  revert phrases; induction items as [|[g c] rest IH]; intros phrases;
    [reflexivity|].
  simpl; rewrite all_common_seed, !IH; reflexivity.
Qed.

Lemma bigram_loop_seed (top_n : nat) (items : list (list str * nat))
    (phrases : list str) :
  @bigram_loop H1 top_n items phrases = @bigram_loop H2 top_n items phrases.
Proof.
  revert phrases; induction items as [|[g c] rest IH]; intros phrases;
    [reflexivity|].
  simpl; rewrite all_common_seed, !IH; reflexivity.
Qed.

Lemma vocabulary_loop_seed (top_n : nat) (items : list (str * nat))
    (distinctive : list str) :
  @vocabulary_loop U H1 top_n items distinctive
  = @vocabulary_loop U H2 top_n items distinctive.
Proof.
  revert distinctive; induction items as [|[w c] rest IH]; intros d;
    [reflexivity|].
  simpl; unfold COMMON_WORDS.
  rewrite (set_mem_seed H1 _ _ ok1), (set_mem_seed H2 _ _ ok2), !IH.
  reflexivity.
Qed.

Lemma starter_loop_seed (top_n : nat) (items : list (str * nat))
    (result : list str) :
  @starter_loop H1 top_n items result = @starter_loop H2 top_n items result.
Proof.
  revert result; induction items as [|[w c] rest IH]; intros d;
    [reflexivity|].
  simpl; unfold generic_starters.
  rewrite (set_mem_seed H1 _ _ ok1), (set_mem_seed H2 _ _ ok2), !IH.
  reflexivity.
Qed.

Lemma analyze_vocabulary_seed (self : StyleAnalyzer) :
  @analyze_vocabulary U H1 self = @analyze_vocabulary U H2 self.
Proof.
  unfold analyze_vocabulary.
  rewrite (set_len_seed H1 _ ok1), (set_len_seed H2 _ ok2); reflexivity.
Qed.

(** C1.  The pipeline is a function of the samples alone.  The one thing
    that differs between two runs of the same Python program is the hash
    seed, which sets the iteration order of the sets the analyzer builds
    (the stop words, the generic starters, the distinct words); only
    membership and size of these sets are used, so two runs on the same
    samples in the same order give the same profile, every rounded metric
    included.  No clock and no random source is read. *)
Theorem analyze_deterministic (corpus : list str) :
  @analyze U H1 B64 corpus = @analyze U H2 B64 corpus.
Proof.
  unfold analyze, analyze_method.
  unfold extract_signature_phrases, extract_vocabulary_preferences,
    extract_sentence_starters, generate_style_summary.
  rewrite trigram_loop_seed, bigram_loop_seed, vocabulary_loop_seed,
    starter_loop_seed, analyze_vocabulary_seed.
  reflexivity.
Qed.

End Seeds.

(** ** Rounding keeps a ratio in the unit interval *)

Lemma round_half_even_bounds (n : Z) (d : positive) (P : Z) :
  (0 <= n <= P * Zpos d)%Z ->
  (0 <= round_half_even (n # d) <= P)%Z.
Proof.
  intros [Hn Hp]; unfold round_half_even; simpl Qnum; simpl Qden.
  pose proof (Z.div_mod n (Zpos d) ltac:(lia)) as Ed.
  pose proof (Z.mod_pos_bound n (Zpos d) ltac:(lia)) as Hm.
  assert (Hf : (0 <= n / Zpos d <= P)%Z) by nia.
  destruct (2 * (n mod Zpos d) <? Zpos d)%Z eqn:E1; [exact Hf|].
  apply Z.ltb_ge in E1.
  assert (n / Zpos d < P)%Z by nia.
  destruct (Zpos d <? 2 * (n mod Zpos d))%Z; [lia|].
  destruct (Z.even (n / Zpos d)); lia.
Qed.

Lemma py_round_unit (q : Q) (ndigits : nat) :
  unit_interval q -> unit_interval (py_round q ndigits).
Proof.
  unfold unit_interval, py_round; intros [H0 H1].
  rewrite Qred_correct.
  destruct q as [n d]; unfold Qle in *; simpl in H0, H1.
  change ((n # d) * inject_Z (Zpos (pow10 ndigits)))%Q
    with (Qmake (n * Zpos (pow10 ndigits)) (d * 1)).
  rewrite Pos.mul_1_r; simpl Qnum; simpl Qden.
  pose proof (round_half_even_bounds (n * Zpos (pow10 ndigits)) d
                (Zpos (pow10 ndigits))) as B.
  assert (Hn : (0 <= n <= Zpos d)%Z) by lia.
  assert (Hp : (0 < Zpos (pow10 ndigits))%Z) by lia.
  specialize (B ltac:(nia)); lia.
Qed.

Lemma py_div_unit (a b : nat) : a <= b -> unit_interval (py_div a b).
Proof.
  intros Hab; unfold unit_interval, py_div, Qle; simpl.
  destruct b as [|b]; [replace a with 0 by lia; simpl; lia|].
  rewrite Z.mul_1_r, <- positive_nat_Z, Nat2Pos.id by discriminate; lia.
Qed.

Lemma unit_interval_zero : unit_interval 0.
Proof. split; discriminate. Qed.

Lemma count_if_le (A : Type) (p : A -> bool) (l : list A) :
  count_if p l <= length l.
Proof. apply filter_length_le. Qed.

Lemma ratio_unit (A : Type) (p : A -> bool) (l : list A) (ndigits : nat) :
  unit_interval (py_round (py_div (count_if p l) (length l)) ndigits).
Proof. apply py_round_unit, py_div_unit, count_if_le. Qed.

Lemma ratio_max_unit (A : Type) (p : A -> bool) (l : list A)
    (ndigits : nat) :
  unit_interval
    (py_round (py_div (count_if p l) (Nat.max (length l) 1)) ndigits).
Proof.
  apply py_round_unit, py_div_unit.
  pose proof (count_if_le A p l); lia.
Qed.

(** ** Counting words *)

Lemma findall_runs_length (p : char -> bool) (s : str) :
  forall acc,
    length (findall_runs p acc s)
    = run_starts p (negb (is_nil acc)) s + (if is_nil acc then 0 else 1).
Proof.
  induction s as [|c r IH]; intros acc; simpl.
  - destruct acc; reflexivity.
  - destruct (p c) eqn:Hc; simpl.
    + rewrite IH; simpl; destruct acc; simpl; lia.
    + destruct acc; simpl; rewrite IH; simpl; lia.
Qed.

Lemma run_starts_step (p : char -> bool) (b : bool) (c : char) (r : str) :
  run_starts p (p c) r <= run_starts p b (c :: r).
Proof. simpl; lia. Qed.

Lemma run_starts_sep (p : char -> bool) (a : str) :
  forall b c r,
    p c = false ->
    run_starts p b (a ++ c :: r) = run_starts p b a + run_starts p false r.
Proof.
  induction a as [|x a IH]; intros b c r Hc; simpl.
  - rewrite Hc; reflexivity.
  - rewrite (IH _ c r Hc); lia.
Qed.

Section WordCounts.
Context {U : UnicodeDB}.

Lemma count_words_starts (s : str) :
  count_words s = run_starts is_word false s.
Proof.
  unfold count_words, findall_words; rewrite findall_runs_length; simpl; lia.
Qed.

Lemma get_words_length (s : str) : length (get_words s) = count_words s.
Proof. unfold get_words; apply length_map. Qed.

Lemma count_words_join (corpus : list str) :
  count_words (join [10%N; 10%N] corpus)
  = length (flat_map get_words corpus).
Proof.
  induction corpus as [|x [|y r] IH].
  - reflexivity.
  - change (join [10%N; 10%N] [x]) with x.
    change (flat_map get_words [x]) with (get_words x ++ []).
    rewrite app_nil_r, get_words_length; reflexivity.
  - change (join [10%N; 10%N] (x :: y :: r))
      with (x ++ 10%N :: 10%N :: join [10%N; 10%N] (y :: r)).
    change (flat_map get_words (x :: y :: r))
      with (get_words x ++ flat_map get_words (y :: r)).
    rewrite length_app, <- IH, get_words_length, !count_words_starts.
    rewrite run_starts_sep by reflexivity; reflexivity.
Qed.

(** A character that matches a small letter of a contraction is a word
    character. *)
Lemma ci_eq_word (p c : char) :
  in_range 97 122 p = true -> ci_eq p c = true -> is_word c = true.
Proof.
  unfold in_range, ci_eq, ascii_upper, in_range.
  rewrite !andb_true_iff, !orb_true_iff, !andb_true_iff, !orb_true_iff,
    !N.leb_le, !N.eqb_eq.
  intros [Lo Hi] Hc.
  assert (Ascii : (65 <= c <= 90)%N \/ (97 <= c <= 122)%N -> is_word c = true).
  { intros Hr; unfold is_word, is_ascii, ascii_alnum, in_range.
    replace (N.ltb c 128) with true by (symmetry; apply N.ltb_lt; lia).
    destruct Hr as [Hr | Hr].
    - replace (N.leb 65 c) with true by (symmetry; apply N.leb_le; lia).
      replace (N.leb c 90) with true by (symmetry; apply N.leb_le; lia).
      simpl; rewrite !orb_true_r; reflexivity.
    - replace (N.leb 97 c) with true by (symmetry; apply N.leb_le; lia).
      replace (N.leb c 122) with true by (symmetry; apply N.leb_le; lia).
      simpl; rewrite !orb_true_r; reflexivity. }
  destruct Hc as [[[[Hc | [[Hu1 Hu2] Hc]] | [_ [Hc | Hc]]] | [_ Hc]] | [_ Hc]];
    try (apply Ascii; lia); subst c; reflexivity.
Qed.

Lemma contractions_start_with_letter :
  forallb (fun pat => match pat with
                      | p :: _ => in_range 97 122 p
                      | [] => false
                      end) CONTRACTIONS_list = true.
Proof. vm_compute; reflexivity. Qed.

Lemma contraction_at_word (prev : option char) (c : char) (r : str)
    (n : nat) :
  contraction_at prev (c :: r) = Some n ->
  is_word c = true /\ is_word_opt prev = false.
Proof.
  unfold contraction_at.
  destruct (find (contraction_alt prev (c :: r)) CONTRACTIONS_list)
    as [pat|] eqn:Ef; [|discriminate].
  intros _; apply find_some in Ef; destruct Ef as [Hin Alt].
  pose proof contractions_start_with_letter as L.
  rewrite forallb_forall in L; specialize (L pat Hin).
  destruct pat as [|p pat]; [discriminate|].
  unfold contraction_alt in Alt; simpl in Alt.
  rewrite !andb_true_iff in Alt; destruct Alt as [[Wb [Ci _]] _].
  pose proof (ci_eq_word p c L Ci) as Hw.
  unfold word_boundary in Wb; simpl in Wb; rewrite Hw in Wb.
  split; [exact Hw|]; destruct (is_word_opt prev); [discriminate | reflexivity].
Qed.

Lemma count_matches_cons (m : option char -> str -> option nat)
    (skip : nat) (prev : option char) (c : char) (r : str) :
  count_matches m skip prev (c :: r)
  = match skip with
    | S k => count_matches m k (Some c) r
    | O =>
        match m prev (c :: r) with
        | Some n => S (count_matches m (n - 1) (Some c) r)
        | None => count_matches m 0 (Some c) r
        end
    end.
Proof. reflexivity. Qed.

(** Every match of [CONTRACTIONS] starts where a word starts. *)
Lemma count_contractions_le (s : str) :
  forall skip prev b,
    (skip = 0 -> b = is_word_opt prev) ->
    count_matches contraction_at skip prev s <= run_starts is_word b s.
Proof.
  induction s as [|c r IH]; intros skip prev b Hb; [simpl; lia|].
  pose proof (run_starts_step is_word b c r) as Step.
  rewrite count_matches_cons; destruct skip as [|k].
  - specialize (Hb eq_refl); subst b.
    destruct (contraction_at prev (c :: r)) as [n|] eqn:En.
    + destruct (contraction_at_word prev c r n En) as [Hw Hp].
      pose proof (IH (n - 1) (Some c) (is_word c) (fun _ => eq_refl)) as B.
      clear IH En Step.
      change (run_starts is_word (is_word_opt prev) (c :: r))
        with ((if is_word c && negb (is_word_opt prev) then 1 else 0)
              + run_starts is_word (is_word c) r).
      rewrite Hw, Hp; rewrite Hw in B; simpl andb; cbv iota; lia.
    + pose proof (IH 0 (Some c) (is_word c) (fun _ => eq_refl)); lia.
  - pose proof (IH k (Some c) (is_word c) (fun _ => eq_refl)); lia.
Qed.

Lemma count_contractions_words (text : str) :
  count_contractions text <= count_words text.
Proof.
  rewrite count_words_starts; unfold count_contractions.
  exact (count_contractions_le text 0 None false (fun _ => eq_refl)).
Qed.

End WordCounts.

(** ** Lowercasing and the words of a text *)

Section AsciiWords.
Context {U : UnicodeDB}.

Lemma is_word_ascii_lower (c : char) :
  is_word (ascii_lower_char c) = is_word c.
Proof.
  unfold ascii_lower_char, ascii_upper.
  destruct (in_range 65 90 c) eqn:E; [|reflexivity].
  unfold in_range in E; apply andb_true_iff in E.
  rewrite !N.leb_le in E; destruct E as [Lo Hi].
  unfold is_word, is_ascii, ascii_alnum, in_range.
  replace (N.ltb (c + 32) 128) with true by (symmetry; apply N.ltb_lt; lia).
  replace (N.ltb c 128) with true by (symmetry; apply N.ltb_lt; lia).
  replace (N.leb 97 (c + 32)) with true by (symmetry; apply N.leb_le; lia).
  replace (N.leb (c + 32) 122) with true by (symmetry; apply N.leb_le; lia).
  replace (N.leb 65 c) with true by (symmetry; apply N.leb_le; lia).
  replace (N.leb c 90) with true by (symmetry; apply N.leb_le; lia).
  simpl; rewrite !orb_true_r; reflexivity.
Qed.

Lemma join_ascii (corpus : list str) :
  forallb (forallb is_ascii) corpus = true ->
  forallb is_ascii (join [10%N; 10%N] corpus) = true.
Proof.
  induction corpus as [|x [|y r] IH]; intros A; [reflexivity | |].
  - simpl in A; apply andb_true_iff in A; tauto.
  - change (join [10%N; 10%N] (x :: y :: r))
      with (x ++ [10%N; 10%N] ++ join [10%N; 10%N] (y :: r)).
    change (forallb (forallb is_ascii) (x :: y :: r))
      with (forallb is_ascii x && forallb (forallb is_ascii) (y :: r)) in A.
    apply andb_true_iff in A; destruct A as [Ax Ar].
    rewrite !forallb_app, Ax, (IH Ar); reflexivity.
Qed.

(** A text has as many words as it has last characters of words. *)
Lemma count_ends_starts (s : str) :
  forall b,
    count_ends word_end s
    = run_starts is_word b s
      + (if b && is_word_opt (hd_error s) then 1 else 0).
Proof.
  induction s as [|c r IH]; intros b.
  - cbn [count_ends run_starts hd_error is_word_opt].
    rewrite andb_false_r; reflexivity.
  - cbn [count_ends run_starts hd_error is_word_opt].
    rewrite (IH (is_word c)); unfold word_end.
    destruct (is_word c), b, (is_word_opt (hd_error r)); simpl; lia.
Qed.

Lemma count_words_ends (s : str) : count_words s = count_ends word_end s.
Proof.
  rewrite count_words_starts, (count_ends_starts s false); simpl; lia.
Qed.

Lemma count_ends_skipn (f : char -> option char -> bool) (n : nat) :
  forall s x,
    nth_error s n = Some x -> f x (nth_error s (S n)) = true ->
    S (count_ends f (skipn (S n) s)) <= count_ends f s.
Proof.
  induction n as [|n IH]; intros [|c r] x Hx Hf; try discriminate.
  - injection Hx as ->; cbn [skipn count_ends].
    replace (hd_error r) with (nth_error (x :: r) 1)
      by (destruct r; reflexivity).
    rewrite Hf; lia.
  - cbn [nth_error] in Hx, Hf.
    pose proof (IH r x Hx Hf) as B.
    change (skipn (S (S n)) (c :: r)) with (skipn (S n) r).
    cbn [count_ends]; lia.
Qed.

(** Where every match ends with a character that passes [f], there are
    at most as many matches as such characters. *)
Lemma count_matches_ends (m : option char -> str -> option nat)
    (f : char -> option char -> bool) :
  (forall prev s n, m prev s = Some n ->
     exists x, nth_error s (n - 1) = Some x /\ 1 <= n
               /\ f x (nth_error s n) = true) ->
  forall s k prev, count_matches m k prev s <= count_ends f (skipn k s).
Proof.
  intros Hm; induction s as [|c r IH]; intros k prev.
  - destruct k; simpl; lia.
  - rewrite count_matches_cons; destruct k as [|k].
    + cbn [skipn].
      destruct (m prev (c :: r)) as [n|] eqn:En.
      * destruct (Hm prev (c :: r) n En) as (x & Hx & Hn & Hf).
        pose proof (IH (n - 1) (Some c)) as B.
        replace n with (S (n - 1)) in Hf by lia.
        pose proof (count_ends_skipn f (n - 1) (c :: r) x Hx Hf) as E.
        change (skipn (S (n - 1)) (c :: r)) with (skipn (n - 1) r) in E.
        lia.
      * pose proof (IH 0 (Some c)) as B; cbn [skipn count_ends] in *; lia.
    + exact (IH k (Some c)).
Qed.

Lemma match_literal_last (pre : str) (p : char) :
  forall s,
    match_literal (pre ++ [p]) s = true ->
    exists x, nth_error s (length pre) = Some x /\ ci_eq p x = true.
Proof.
  induction pre as [|q pre IH]; intros [|c s] M; try discriminate.
  - cbn [app match_literal] in M; apply andb_true_iff in M.
    exists c; split; [reflexivity | tauto].
  - cbn [app match_literal] in M; apply andb_true_iff in M.
    destruct M as [_ M]; exact (IH s M).
Qed.

Lemma contractions_end_with_letter :
  forallb (fun pat => match rev pat with
                      | p :: _ => in_range 97 122 p && negb (N.eqb p 105)
                      | [] => false
                      end) CONTRACTIONS_list = true.
Proof. vm_compute; reflexivity. Qed.

Lemma ci_eq_not_i (p x : char) :
  ci_eq p x = true -> N.eqb p 105 = false -> N.eqb x 105 = false.
Proof.
  intros C Hp; destruct (N.eqb x 105) eqn:Ex; [|reflexivity].
  apply N.eqb_eq in Ex; subst x; unfold ci_eq in C.
  rewrite Hp, N.eqb_sym, Hp in C; cbn in C.
  rewrite !andb_false_r in C; discriminate.
Qed.

(** Every match of [CONTRACTIONS] ends with the last character of a
    word, and that character is not [i]. *)
Lemma contraction_at_end (prev : option char) (s : str) (n : nat) :
  contraction_at prev s = Some n ->
  exists x, nth_error s (n - 1) = Some x /\ 1 <= n
            /\ word_end_not_i x (nth_error s n) = true.
Proof.
  unfold contraction_at.
  destruct (find (contraction_alt prev s) CONTRACTIONS_list)
    as [pat|] eqn:Ef; [|discriminate].
  intros E; injection E as <-.
  apply find_some in Ef; destruct Ef as [Hin Alt].
  pose proof contractions_end_with_letter as L.
  rewrite forallb_forall in L; specialize (L pat Hin).
  destruct (rev pat) as [|p rp] eqn:Er; [discriminate|].
  apply andb_true_iff in L; destruct L as [Lp Li].
  apply negb_true_iff in Li.
  assert (Ep : pat = rev rp ++ [p]).
  { rewrite <- (rev_involutive pat), Er; reflexivity. }
  unfold contraction_alt in Alt.
  apply andb_true_iff in Alt; destruct Alt as [Alt Wb].
  apply andb_true_iff in Alt; destruct Alt as [_ M].
  rewrite Ep in M; apply match_literal_last in M.
  destruct M as (x & Hx & Cx).
  assert (El : length pat - 1 = length (rev rp))
    by (rewrite Ep, length_app; simpl; lia).
  rewrite El in *; exists x.
  split; [exact Hx|].
  split; [rewrite Ep, length_app; simpl; lia|].
  pose proof (ci_eq_word p x Lp Cx) as Hw.
  rewrite Hx in Wb; unfold word_boundary in Wb; cbn [is_word_opt] in Wb.
  rewrite Hw in Wb.
  unfold word_end_not_i, word_end.
  rewrite Hw, (ci_eq_not_i p x Cx Li).
  destruct (is_word_opt (nth_error s (length pat))); [discriminate|].
  reflexivity.
Qed.

Lemma lower_piece_hd (T : str) (ps : list str) :
  Forall2 lower_piece T ps ->
  is_word_opt (hd_error (concat ps)) = is_word_opt (hd_error T).
Proof.
  intros [|c p T' ps' [(d & -> & Hd) | [-> ->]] _]; [reflexivity | |].
  - exact Hd.
  - reflexivity.
Qed.

(** Lowercasing adds no last character of a word, the [i] of U+0130
    apart. *)
Lemma count_ends_pieces (T : str) (ps : list str) :
  is_word 775%N = false ->
  Forall2 lower_piece T ps ->
  count_ends word_end_not_i (concat ps) <= count_ends word_end T.
Proof.
  intros Dot F2; induction F2 as [|c p T' ps' Hp F2 IH]; [apply Nat.le_refl|].
  pose proof (lower_piece_hd T' ps' F2) as Hd.
  destruct Hp as [(d & -> & Ed) | [-> ->]].
  - cbn [concat app count_ends].
    assert (E : word_end_not_i d (hd_error (concat ps'))
                = word_end c (hd_error T') && negb (N.eqb d 105)).
    { unfold word_end_not_i, word_end; rewrite Hd, Ed; reflexivity. }
    rewrite E; destruct (word_end c (hd_error T'));
      [destruct (negb (N.eqb d 105))|]; simpl; lia.
  - cbn [concat app count_ends hd_error].
    assert (E1 : word_end_not_i 105%N (Some 775%N) = false).
    { unfold word_end_not_i; rewrite N.eqb_refl, andb_false_r; reflexivity. }
    assert (E2 : word_end_not_i 775%N (hd_error (concat ps')) = false).
    { unfold word_end_not_i, word_end; rewrite Dot; reflexivity. }
    rewrite E1, E2; lia.
Qed.

(** The contractions found in the lowercased text are at most as many
    as the words of the text itself. *)
Lemma count_contractions_lower (text : str) :
  lower_by_char U -> count_contractions (lower text) <= count_words text.
Proof.
  intros [Dot Pieces].
  destruct (Pieces text) as (ps & F2 & ->).
  rewrite count_words_ends.
  apply (Nat.le_trans _ (count_ends word_end_not_i (concat ps)));
    [|apply count_ends_pieces; assumption].
  exact (count_matches_ends contraction_at word_end_not_i contraction_at_end
           (concat ps) 0 None).
Qed.

End AsciiWords.

(** ** The ratio fields *)

Section Ratios.
Context {U : UnicodeDB} {H : HashSeed} {B64 : Binary64}.
Variable self : StyleAnalyzer.

Lemma sentence_ratios_unit :
  unit_interval (short_sentence_ratio (analyze_sentence_structure self))
  /\ unit_interval (long_sentence_ratio (analyze_sentence_structure self)).
Proof.
  unfold analyze_sentence_structure.
  destruct (all_sentences self) as [|s l];
    [split; apply unit_interval_zero|].
  cbv zeta; cbn [short_sentence_ratio long_sentence_ratio].
  split; apply ratio_unit.
Qed.

Lemma question_ratios_unit :
  unit_interval (question_ratio (analyze_questions_hooks self))
  /\ unit_interval (exclamation_ratio (analyze_questions_hooks self)).
Proof.
  unfold analyze_questions_hooks.
  destruct (all_sentences self) as [|s l];
    [split; apply unit_interval_zero|].
  cbv zeta; cbn [question_ratio exclamation_ratio].
  split; apply ratio_unit.
Qed.

Lemma bullet_frequency_unit :
  unit_interval (bullet_frequency (analyze_formatting self)).
Proof.
  unfold analyze_formatting.
  destruct (all_paragraphs self) as [|s l]; [apply unit_interval_zero|].
  cbv zeta; cbn [bullet_frequency]; apply ratio_max_unit.
Qed.

Lemma opens_with_short_sentence_unit :
  unit_interval (opens_with_short_sentence (analyze_rhythm self)).
Proof.
  unfold analyze_rhythm.
  destruct (all_paragraphs self) as [|s l]; [apply unit_interval_zero|].
  cbv zeta; cbn [opens_with_short_sentence]; apply ratio_max_unit.
Qed.

Lemma vocabulary_richness_unit :
  seed_ok H -> unit_interval (vocabulary_richness (analyze_vocabulary self)).
Proof.
  intros ok; unfold analyze_vocabulary.
  destruct (all_words self) as [|w l]; [apply unit_interval_zero|].
  cbv zeta; cbn [vocabulary_richness].
  apply py_round_unit, py_div_unit.
  rewrite (set_len_seed H _ ok); apply dedup_length.
Qed.

Lemma contraction_ratio_unit :
  count_contractions (lower (combined_text self)) <= length (all_words self) ->
  unit_interval (contraction_ratio (analyze_vocabulary self)).
Proof.
  intros Hw; unfold analyze_vocabulary.
  destruct (all_words self) as [|w l] eqn:E; [apply unit_interval_zero|].
  cbv zeta; cbn [contraction_ratio].
  apply py_round_unit, py_div_unit; lia.
Qed.

End Ratios.

(** C3.  Every metric that is a ratio of a count to a total lies between
    0 and 1, for every corpus: the short and long sentence ratios, the
    question and exclamation ratios, the bullet frequency and the share of
    paragraphs that open with a short sentence, as they are; the
    vocabulary richness, since a set holds each of its elements once; the
    contraction ratio, although its matches are counted in the lowercased
    text and its words in the text itself, since [str.lower] works
    character by character. *)
Theorem ratio_fields_in_unit_interval {U : UnicodeDB} {H : HashSeed}
    {B64 : Binary64} (corpus : list str) :
  let m := metrics (analyze corpus) in
  unit_interval (short_sentence_ratio (sentence_metrics m))
  /\ unit_interval (long_sentence_ratio (sentence_metrics m))
  /\ unit_interval (question_ratio (question_metrics m))
  /\ unit_interval (exclamation_ratio (question_metrics m))
  /\ unit_interval (bullet_frequency (formatting_metrics m))
  /\ unit_interval (opens_with_short_sentence (rhythm_metrics m))
  /\ (seed_ok H ->
      unit_interval (vocabulary_richness (vocabulary_metrics m)))
  /\ (lower_by_char U ->
      unit_interval (contraction_ratio (vocabulary_metrics m))).
Proof.
  cbv zeta; unfold analyze, analyze_method;
    cbn [metrics sentence_metrics question_metrics formatting_metrics
         vocabulary_metrics rhythm_metrics].
  set (self := StyleAnalyzer_init corpus).
  destruct (sentence_ratios_unit self) as [S1 S2].
  destruct (question_ratios_unit self) as [Q1 Q2].
  split; [exact S1|]; split; [exact S2|].
  split; [exact Q1|]; split; [exact Q2|].
  split; [apply bullet_frequency_unit|].
  split; [apply opens_with_short_sentence_unit|].
  split; [intros ok; apply vocabulary_richness_unit; exact ok|].
  intros Low; apply contraction_ratio_unit.
  unfold self; cbn [combined_text all_words StyleAnalyzer_init].
  rewrite <- count_words_join; apply count_contractions_lower; exact Low.
Qed.

(** ** Counters *)

Lemma list_eqb_eq (A : Type) (eqb : A -> A -> bool) :
  (forall x y, eqb x y = true <-> x = y) ->
  forall a b, list_eqb eqb a b = true <-> a = b.
Proof.
  intros Heq a; induction a as [|x a IH]; intros [|y b]; simpl;
    try (split; [discriminate | discriminate]); try tauto.
  rewrite andb_true_iff, Heq, IH.
  split; [intros [-> ->]; reflexivity | intros E; inversion E; auto].
Qed.

Lemma gram_eqb_eq (a b : list str) : list_eqb str_eqb a b = true <-> a = b.
Proof. apply list_eqb_eq, str_eqb_eq. Qed.

Section CounterFacts.
Variable A : Type.
Variable eqb : A -> A -> bool.
Hypothesis eqb_eq : forall x y, eqb x y = true <-> x = y.

Lemma eqb_refl (x : A) : eqb x x = true.
Proof. apply eqb_eq; reflexivity. Qed.

Lemma counter_get_add (x y : A) (c : list (A * nat)) :
  counter_get eqb x (counter_add eqb y c)
  = counter_get eqb x c + (if eqb x y then 1 else 0).
Proof.
  induction c as [|[z n] r IH]; simpl.
  - destruct (eqb x y); reflexivity.
  - destruct (eqb y z) eqn:Eyz; simpl.
    + apply eqb_eq in Eyz; subst z.
      destruct (eqb x y); lia.
    + destruct (eqb x z) eqn:Exz; [|exact IH].
      apply eqb_eq in Exz; subst z.
      destruct (eqb x y) eqn:Exy; [|lia].
      apply eqb_eq in Exy; subst y; rewrite eqb_refl in Eyz; discriminate.
Qed.

Lemma counter_get_fold (x : A) (l : list A) :
  forall c,
    counter_get eqb x (fold_left (fun c y => counter_add eqb y c) l c)
    = counter_get eqb x c + count_if (eqb x) l.
Proof.
  unfold count_if; induction l as [|y l IH]; intros c; simpl; [lia|].
  rewrite IH, counter_get_add; destruct (eqb x y); simpl; lia.
Qed.

Lemma counter_add_keys (y k : A) (c : list (A * nat)) :
  In k (map fst (counter_add eqb y c)) -> In k (map fst c) \/ k = y.
Proof.
  induction c as [|[z n] r IH]; simpl.
  - intros [<- | []]; auto.
  - destruct (eqb y z); simpl; [tauto|].
    intros [<- | Hk]; [tauto|]; destruct (IH Hk); tauto.
Qed.

Lemma counter_add_NoDup (y : A) (c : list (A * nat)) :
  NoDup (map fst c) -> NoDup (map fst (counter_add eqb y c)).
Proof.
  induction c as [|[z n] r IH]; simpl; intros Hn.
  - constructor; [intros [] | constructor].
  - inversion Hn as [|? ? Hz Hr]; subst.
    destruct (eqb y z) eqn:Eyz; simpl; [constructor; assumption|].
    constructor; [|apply IH; exact Hr].
    intros Hk; apply counter_add_keys in Hk; destruct Hk as [Hk | ->];
      [exact (Hz Hk)|].
    rewrite eqb_refl in Eyz; discriminate.
Qed.

Lemma Counter_NoDup (l : list A) : NoDup (map fst (Counter eqb l)).
Proof.
  unfold Counter.
  assert (G : forall c, NoDup (map fst c) ->
               NoDup (map fst (fold_left (fun c y => counter_add eqb y c) l c))).
  { induction l as [|y l IH]; intros c Hc; simpl; [exact Hc|].
    apply IH, counter_add_NoDup; exact Hc. }
  apply G; constructor.
Qed.

Lemma counter_get_In (g : A) (n : nat) (c : list (A * nat)) :
  NoDup (map fst c) -> In (g, n) c -> counter_get eqb g c = n.
Proof.
  induction c as [|[z m] r IH]; simpl; intros Hn; [tauto|].
  inversion Hn as [|? ? Hz Hr]; subst.
  intros [E | Hin].
  - inversion E; subst; rewrite eqb_refl; reflexivity.
  - destruct (eqb g z) eqn:Egz; [|apply IH; assumption].
    apply eqb_eq in Egz; subst z; exfalso; apply Hz.
    change g with (fst (g, n)); apply in_map; exact Hin.
Qed.

(** The count that a counter keeps for a key is its number of
    occurrences. *)
Lemma Counter_count (l : list A) (g : A) (n : nat) :
  In (g, n) (Counter eqb l) -> n = count_if (eqb g) l.
Proof.
  intros Hin.
  rewrite <- (counter_get_In g n _ (Counter_NoDup l) Hin).
  unfold Counter; rewrite counter_get_fold; reflexivity.
Qed.

Lemma insert_desc_In (p x : A * nat) (l : list (A * nat)) :
  In x (insert_desc p l) <-> x = p \/ In x l.
Proof.
  induction l as [|q r IH]; simpl; [intuition|].
  destruct (Nat.ltb (snd p) (snd q)); simpl; [rewrite IH|]; intuition.
Qed.

Lemma sort_desc_In (x : A * nat) (l : list (A * nat)) :
  In x (sort_desc l) <-> In x l.
Proof.
  induction l as [|p l IH]; simpl; [tauto|].
  rewrite insert_desc_In, IH; intuition.
Qed.

Lemma insert_desc_sorted (p : A * nat) (l : list (A * nat)) :
  StronglySorted (@by_count_desc A) l ->
  StronglySorted (@by_count_desc A) (insert_desc p l).
Proof.
  induction l as [|q r IH]; simpl; intros Hs.
  - constructor; [constructor | constructor].
  - inversion Hs as [|? ? Hr Hq]; subst.
    destruct (Nat.ltb (snd p) (snd q)) eqn:E.
    + apply Nat.ltb_lt in E; constructor; [apply IH; exact Hr|].
      apply Forall_forall; intros x Hx; apply insert_desc_In in Hx.
      destruct Hx as [-> | Hx]; [unfold by_count_desc; lia|].
      rewrite Forall_forall in Hq; auto.
    + apply Nat.ltb_ge in E; constructor; [exact Hs|].
      constructor; [exact E|].
      eapply Forall_impl; [|exact Hq].
      unfold by_count_desc; intros x Hx; lia.
Qed.

Lemma sort_desc_sorted (l : list (A * nat)) :
  StronglySorted (@by_count_desc A) (sort_desc l).
Proof.
  induction l as [|p l IH]; simpl; [constructor|].
  apply insert_desc_sorted; exact IH.
Qed.

Lemma firstn_sorted (n : nat) (l : list (A * nat)) :
  StronglySorted (@by_count_desc A) l ->
  StronglySorted (@by_count_desc A) (firstn n l).
Proof.
  revert n; induction l as [|q r IH]; intros [|n] Hs; simpl;
    try constructor.
  - inversion Hs; subst; apply IH; assumption.
  - inversion Hs as [|? ? _ Hq]; subst.
    apply Forall_forall; intros x Hx; apply firstn_In in Hx.
    rewrite Forall_forall in Hq; auto.
Qed.

Lemma filter_sorted (f : A * nat -> bool) (l : list (A * nat)) :
  StronglySorted (@by_count_desc A) l ->
  StronglySorted (@by_count_desc A) (filter f l).
Proof.
  induction l as [|q r IH]; simpl; intros Hs; [constructor|].
  inversion Hs as [|? ? Hr Hq]; subst.
  destruct (f q); [|apply IH; exact Hr].
  constructor; [apply IH; exact Hr|].
  apply Forall_forall; intros x Hx; apply filter_In in Hx.
  rewrite Forall_forall in Hq; apply Hq; tauto.
Qed.

Lemma most_common_sorted (n : nat) (c : list (A * nat)) :
  StronglySorted (@by_count_desc A) (most_common n c).
Proof. apply firstn_sorted, sort_desc_sorted. Qed.

Lemma most_common_count (k : nat) (l : list A) (g : A) (n : nat) :
  In (g, n) (most_common k (Counter eqb l)) -> n = count_if (eqb g) l.
Proof.
  intros Hin; apply firstn_In in Hin.
  apply (proj1 (sort_desc_In _ _)) in Hin.
  apply Counter_count; exact Hin.
Qed.

End CounterFacts.

(** ** Signature phrases *)

Section SignaturePhrases.
Context {H : HashSeed}.

Lemma trigram_loop_cons (top_n : nat) (item : list str * nat)
    (rest : list (list str * nat)) (phrases : list str) :
  trigram_loop top_n (item :: rest) phrases
  = if qualifies item then
      if Nat.leb (top_n / 2) (length (phrases ++ [phrase_of item]))
      then phrases ++ [phrase_of item]
      else trigram_loop top_n rest (phrases ++ [phrase_of item])
    else trigram_loop top_n rest phrases.
Proof. destruct item; reflexivity. Qed.

Lemma bigram_loop_cons (top_n : nat) (item : list str * nat)
    (rest : list (list str * nat)) (phrases : list str) :
  bigram_loop top_n (item :: rest) phrases
  = if qualifies item then
      if Nat.leb top_n (length (add_new phrases (phrase_of item)))
      then add_new phrases (phrase_of item)
      else bigram_loop top_n rest (add_new phrases (phrase_of item))
    else bigram_loop top_n rest phrases.
Proof. destruct item; reflexivity. Qed.

(** The first loop takes the first qualifying trigrams: half of [top_n]
    of them, and one where that half is zero. *)
Lemma trigram_loop_closed (top_n : nat) (items : list (list str * nat)) :
  forall phrases,
    length phrases < top_n / 2 \/ phrases = [] ->
    trigram_loop top_n items phrases
    = phrases
      ++ map phrase_of
           (firstn (Nat.max 1 (top_n / 2 - length phrases))
              (filter qualifies items)).
Proof.
  set (h := top_n / 2).
  induction items as [|item rest IH]; intros P HP.
  - simpl; rewrite firstn_nil, app_nil_r; reflexivity.
  - rewrite trigram_loop_cons; fold h.
    change (filter qualifies (item :: rest))
      with (if qualifies item then item :: filter qualifies rest
            else filter qualifies rest).
    destruct (qualifies item); [|apply IH; exact HP].
    destruct (Nat.leb h (length (P ++ [phrase_of item]))) eqn:E;
      rewrite length_app in E; simpl length in E.
    + apply Nat.leb_le in E.
      assert (E1 : Nat.max 1 (h - length P) = 1).
      { destruct HP as [HP | HP]; [lia|].
        rewrite HP in *; simpl length in *; lia. }
      rewrite E1; reflexivity.
    + apply Nat.leb_gt in E.
      rewrite IH by (left; rewrite length_app; simpl; lia).
      rewrite length_app; simpl length.
      replace (Nat.max 1 (h - length P)) with (S (h - length P - 1)) by lia.
      replace (Nat.max 1 (h - (length P + 1))) with (h - length P - 1) by lia.
      rewrite firstn_cons; simpl map; rewrite <- app_assoc; reflexivity.
Qed.

Lemma add_new_prefix (l : list str) :
  forall phrases, exists z, fold_left add_new l phrases = phrases ++ z.
Proof.
  induction l as [|x l IH]; intros P; simpl.
  - exists []; rewrite app_nil_r; reflexivity.
  - destruct (IH (add_new P x)) as (z & ->).
    unfold add_new; destruct (negb (str_in x P)).
    + exists ([x] ++ z); rewrite app_assoc; reflexivity.
    + exists z; reflexivity.
Qed.

Lemma firstn_prefix (A : Type) (n : nat) (l z : list A) :
  n <= length l -> firstn n (l ++ z) = firstn n l.
Proof.
  intros Hn; rewrite firstn_app.
  replace (n - length l) with 0 by lia.
  rewrite firstn_0, app_nil_r; reflexivity.
Qed.

(** Up to the final slice, the second loop adds every qualifying bigram
    whose phrase is not yet in the list. *)
Lemma bigram_loop_closed (top_n : nat) (items : list (list str * nat)) :
  forall phrases,
    firstn top_n (bigram_loop top_n items phrases)
    = firstn top_n
        (fold_left add_new (map phrase_of (filter qualifies items)) phrases).
Proof.
  induction items as [|item rest IH]; intros P; [reflexivity|].
  rewrite bigram_loop_cons.
  change (filter qualifies (item :: rest))
    with (if qualifies item then item :: filter qualifies rest
          else filter qualifies rest).
  destruct (qualifies item); [|apply IH].
  simpl map; simpl fold_left.
  destruct (Nat.leb top_n (length (add_new P (phrase_of item)))) eqn:E;
    [|apply IH].
  apply Nat.leb_le in E.
  destruct (add_new_prefix (map phrase_of (filter qualifies rest))
              (add_new P (phrase_of item))) as (z & ->).
  rewrite firstn_prefix by exact E; reflexivity.
Qed.

End SignaturePhrases.

(** C4, as amended.  Signature-phrase mining looks at the 50 most frequent
    trigrams and the 50 most frequent bigrams of the corpus, the n-grams
    being taken inside each sample and counted over all samples, each list
    in descending order of count.  A trigram or bigram qualifies when its
    count is at least 2 and its words are not all stop words.  The first
    qualifying trigrams are taken, half of the requested top-N of them
    (one when that half is zero); then the qualifying bigrams are added in
    their order, and a bigram is skipped only when the very same phrase is
    already in the list: a bigram that is a part of an accepted trigram is
    added all the same.  The result is cut to top-N phrases. *)
Theorem signature_phrases_selection {U : UnicodeDB} {H : HashSeed}
    (corpus : list str) (top_n : nat) :
  let self := StyleAnalyzer_init corpus in
  let tri := most_common 50 (trigram_counts self) in
  let bi := most_common 50 (bigram_counts self) in
  let taken :=
    map phrase_of (firstn (Nat.max 1 (top_n / 2)) (filter qualifies tri)) in
  extract_signature_phrases self top_n
  = firstn top_n
      (fold_left add_new (map phrase_of (filter qualifies bi)) taken)
  /\ StronglySorted (@by_count_desc (list str)) (filter qualifies tri)
  /\ StronglySorted (@by_count_desc (list str)) (filter qualifies bi)
  /\ (forall g n, In (g, n) tri ->
        n = count_if (list_eqb str_eqb g) (all_ngrams self 3))
  /\ (forall g n, In (g, n) bi ->
        n = count_if (list_eqb str_eqb g) (all_ngrams self 2)).
Proof.
  cbv zeta; set (self := StyleAnalyzer_init corpus).
  split; [|split; [|split; [|split]]].
  - unfold extract_signature_phrases.
    rewrite bigram_loop_closed, trigram_loop_closed by (right; reflexivity).
    simpl length; rewrite Nat.sub_0_r; reflexivity.
  - apply filter_sorted, most_common_sorted.
  - apply filter_sorted, most_common_sorted.
  - intros g n; apply most_common_count, gram_eqb_eq.
  - intros g n; apply most_common_count, gram_eqb_eq.
Qed.

(** C4 as stated fails: no bigram is skipped for being a part of an
    accepted phrase.  In the one sample below the trigram and the bigram
    both occur twice, and both are returned. *)
Lemma substring_bigram_is_kept :
  signature_phrases
    (@analyze ascii_db seed_first ideal_float [lit "at the end at the end"])
  = [lit "at the end"; lit "the end"]
  /\ lit "at the end" = lit "at " ++ lit "the end".
Proof. split; vm_compute; reflexivity. Qed.

(** ** Transition words *)

Lemma extract_transition_words_candidates {U : UnicodeDB}
    (self : StyleAnalyzer) (top_n : nat) (w : str) :
  In w (extract_transition_words self top_n) ->
  In w transition_candidates
  /\ counter_mem w (Counter str_eqb (all_words self)) = true.
Proof.
  unfold extract_transition_words; rewrite in_map_iff.
  intros ([w' c] & <- & Hin); simpl.
  apply firstn_In in Hin.
  apply (proj1 (sort_desc_In _ _ _)) in Hin.
  apply in_flat_map in Hin; destruct Hin as (word & Hc & Hin).
  match type of Hin with
  | In _ (if ?b then _ else _) => destruct b eqn:B
  end; [|destruct Hin].
  apply andb_true_iff in B; destruct B as [M _].
  destruct Hin as [E | []]; inversion E; subst; auto.
Qed.

(** C5 at the failing input.  The corpus holds candidate phrases of
    several words, and no transition word is returned: the candidates are
    looked up among the single word tokens, where a phrase of several
    words cannot be.  The same happens on the one short sample
    [In fact, it works.] *)
Theorem multi_word_transition_is_missed {U : UnicodeDB} {H : HashSeed}
    {B64 : Binary64} :
  In (lit "in fact") transition_candidates
  /\ lower (hd [] phrase_corpus)
     = lit "in fact" ++ lit ", the plan works well for the whole team today."
  /\ Forall (fun sample => 50 <= length sample) phrase_corpus
  /\ transition_words (analyze phrase_corpus) = []
  /\ transition_words (analyze [lit "In fact, it works."]) = [].
Proof.
  split; [apply in_map; simpl; tauto|].
  split; [vm_compute; reflexivity|].
  split; [repeat constructor|].
  split; vm_compute; reflexivity.
Qed.

(** ** The empty corpus *)

Lemma plain_blank_blank (s : str) : plain_blank s = true -> blank s = true.
Proof.
  unfold plain_blank, blank; rewrite !forallb_forall; intros A c Hc.
  specialize (A c Hc); apply andb_true_iff in A; tauto.
Qed.

Lemma space_not_word {U : UnicodeDB} (c : char) :
  is_space c = true -> is_word c = false.
Proof.
  intros Hs; unfold is_word; rewrite Hs; simpl.
  destruct (is_ascii c) eqn:A; [|reflexivity].
  unfold is_ascii in A; apply N.ltb_lt in A.
  unfold is_space, in_range in Hs.
  rewrite !orb_true_iff, !andb_true_iff, !N.leb_le, !N.eqb_eq in Hs.
  apply not_true_is_false; unfold ascii_alnum, in_range.
  rewrite !orb_true_iff, !andb_true_iff, !N.leb_le, N.eqb_eq; lia.
Qed.

Lemma plain_space_not_emoji (c : char) :
  is_space c = true -> N.eqb c 0x3000 = false -> is_emoji c = false.
Proof.
  intros Hs Hc; apply N.eqb_neq in Hc.
  unfold is_space, in_range in Hs.
  rewrite !orb_true_iff, !andb_true_iff, !N.leb_le, !N.eqb_eq in Hs.
  apply not_true_is_false; unfold is_emoji, in_range.
  rewrite !orb_true_iff, !andb_true_iff, !N.leb_le, !N.eqb_eq; lia.
Qed.

Lemma findall_runs_none (p : char -> bool) (s : str) :
  forallb (fun c => negb (p c)) s = true -> findall_runs p [] s = [].
Proof.
  induction s as [|c r IH]; simpl; [reflexivity|].
  intros A; apply andb_true_iff in A; destruct A as [Hc A].
  apply negb_true_iff in Hc; rewrite Hc; auto.
Qed.

Lemma count_matches_none (m : option char -> str -> option nat) (s : str) :
  (forall prev c r, is_space c = true -> blank r = true ->
                    m prev (c :: r) = None) ->
  blank s = true ->
  forall skip prev, count_matches m skip prev s = 0.
Proof.
  intros Hm; induction s as [|c r IH]; intros B skip prev; [reflexivity|].
  simpl in B; apply andb_true_iff in B; destruct B as [Hc B].
  rewrite count_matches_cons, (Hm prev c r Hc B).
  destruct skip; apply IH; exact B.
Qed.

Lemma space_is_not (c x : char) :
  is_space c = true -> is_space x = false -> N.eqb c x = false.
Proof.
  intros Hc Hx; apply N.eqb_neq; intros ->; congruence.
Qed.

Lemma ellipsis_at_blank (prev : option char) (c : char) (r : str) :
  is_space c = true -> blank r = true -> ellipsis_at prev (c :: r) = None.
Proof.
  intros Hc _; unfold ellipsis_at.
  rewrite (space_is_not c 8230 Hc eq_refl), (space_is_not c 46 Hc eq_refl).
  destruct r as [|b [|d r]]; reflexivity.
Qed.

Lemma dash_at_blank (prev : option char) (c : char) (r : str) :
  is_space c = true -> blank r = true -> dash_at prev (c :: r) = None.
Proof.
  intros Hc B; unfold dash_at.
  rewrite (space_is_not c 8212 Hc eq_refl), (space_is_not c 8211 Hc eq_refl).
  destruct r as [|b [|d r]]; try reflexivity.
  simpl in B; apply andb_true_iff in B; destruct B as [Hb _].
  rewrite (space_is_not b 45 Hb eq_refl), andb_false_r; reflexivity.
Qed.

Lemma paren_at_blank (prev : option char) (c : char) (r : str) :
  is_space c = true -> blank r = true -> paren_at prev (c :: r) = None.
Proof.
  intros Hc _; unfold paren_at.
  rewrite (space_is_not c 40 Hc eq_refl); reflexivity.
Qed.

Lemma split_paragraphs_blank (text : str) :
  blank text = true -> split_paragraphs text = [].
Proof.
  intros B; destruct (split_paragraphs text) as [|q l] eqn:E; [reflexivity|].
  exfalso.
  destruct (split_paragraphs_clean text q) as (Hq & [Hl _] & _);
    [rewrite E; left; reflexivity|].
  pose proof (split_paragraphs_visible text) as V.
  rewrite E, (visible_blank _ B) in V; simpl in V.
  rewrite visible_app in V; apply app_eq_nil in V; destruct V as [V _].
  destruct q as [|c q]; [congruence|].
  simpl in Hl, V; rewrite Hl in V; discriminate.
Qed.

Lemma join_plain_blank (corpus : list str) :
  forallb plain_blank corpus = true ->
  plain_blank (join [10%N; 10%N] corpus) = true.
Proof.
  induction corpus as [|x [|y r] IH]; intros A; [reflexivity | |].
  - simpl in A; apply andb_true_iff in A; tauto.
  - change (join [10%N; 10%N] (x :: y :: r))
      with (x ++ [10%N; 10%N] ++ join [10%N; 10%N] (y :: r)).
    change (forallb plain_blank (x :: y :: r))
      with (plain_blank x && forallb plain_blank (y :: r)) in A.
    apply andb_true_iff in A; destruct A as [Ax Ar].
    unfold plain_blank in *; rewrite !forallb_app, Ax, (IH Ar); reflexivity.
Qed.

(** Away from the ideographic space the empty-input policy holds: a corpus
    of empty or white-space samples gets the documented defaults. *)
Lemma blank_corpus_defaults {U : UnicodeDB} {H : HashSeed} {B64 : Binary64}
    (corpus : list str) :
  forallb plain_blank corpus = true ->
  metrics (analyze corpus) = default_metrics.
Proof.
  intros A.
  assert (Each : forall s, In s corpus -> blank s = true).
  { intros s Hs; rewrite forallb_forall in A.
    apply plain_blank_blank, A, Hs. }
  assert (Es : flat_map split_sentences corpus = []).
  { apply flat_map_all_nil; intros s Hs.
    apply split_sentences_blank, Each, Hs. }
  assert (Ep : flat_map split_paragraphs corpus = []).
  { apply flat_map_all_nil; intros s Hs.
    apply split_paragraphs_blank, Each, Hs. }
  assert (Ew : flat_map get_words corpus = []).
  { apply flat_map_all_nil; intros s Hs; unfold get_words, findall_words.
    rewrite findall_runs_none; [reflexivity|].
    specialize (Each s Hs); unfold blank in Each.
    rewrite forallb_forall in *; intros c Hc.
    rewrite (space_not_word c (Each c Hc)); reflexivity. }
  pose proof (join_plain_blank corpus A) as J.
  pose proof (plain_blank_blank _ J) as B.
  assert (Ee : findall_runs is_emoji [] (join [10%N; 10%N] corpus) = []).
  { apply findall_runs_none; unfold plain_blank in J.
    rewrite forallb_forall in *; intros c Hc.
    specialize (J c Hc); apply andb_true_iff in J; destruct J as [J1 J2].
    apply negb_true_iff in J2.
    rewrite (plain_space_not_emoji c J1 J2); reflexivity. }
  unfold analyze, analyze_method; cbn [metrics].
  unfold analyze_sentence_structure, analyze_questions_hooks,
    analyze_formatting, analyze_vocabulary, analyze_punctuation_emoji,
    analyze_rhythm.
  cbn [all_sentences all_paragraphs all_words combined_text
       StyleAnalyzer_init].
  rewrite Es, Ep, Ew, Ee.
  rewrite (count_matches_none ellipsis_at _ ellipsis_at_blank B),
    (count_matches_none dash_at _ dash_at_blank B),
    (count_matches_none paren_at _ paren_at_blank B).
  reflexivity.
Qed.

(** C2 at the failing input.  The one sample is the ideographic space
    U+3000: it is white space, so the corpus has no sentence, paragraph or
    word; it also lies in a range of [EMOJI_PATTERN], so the emoji
    frequency is 100 and not 0.  Three samples of 50 such spaces, which
    the caller of the analyzer accepts, give 300. *)
Theorem ideographic_space_counts_as_emoji {U : UnicodeDB} {H : HashSeed}
    {B64 : Binary64} :
  let self := StyleAnalyzer_init [[0x3000%N]] in
  let wide := repeat 0x3000%N 50 in
  strip [0x3000%N] = []
  /\ all_sentences self = [] /\ all_paragraphs self = []
  /\ all_words self = []
  /\ emoji_frequency (punctuation_metrics (metrics (analyze [[0x3000%N]])))
     = 100%Q
  /\ blank wide = true
  /\ emoji_frequency
       (punctuation_metrics (metrics (analyze [wide; wide; wide])))
     = 300%Q.
Proof. cbv zeta; repeat split; vm_compute; reflexivity. Qed.

(** * The examples of the specification *)

(** Three sentences, one question, one exclamation, two contractions in
    nine word tokens, no bullet line. *)
Example love_this_metrics :
  let m := metrics (@analyze ascii_db seed_first ideal_float
                      [lit "I love this. Don't you? It's amazing!!"]) in
  length (split_sentences (lit "I love this. Don't you? It's amazing!!")) = 3
  /\ (question_ratio (question_metrics m) == 333 # 1000)%Q
  /\ (exclamation_ratio (question_metrics m) == 333 # 1000)%Q
  /\ (contraction_ratio (vocabulary_metrics m) == 222 # 1000)%Q
  /\ uses_bullet_points (formatting_metrics m) = false
  /\ bullet_frequency (formatting_metrics m) = 0%Q.
Proof. cbv zeta; repeat split; vm_compute; reflexivity. Qed.

(** A trigram that occurs in two samples is a signature phrase. *)
Example at_the_end_is_a_signature_phrase :
  In (lit "at the end")
     (signature_phrases
        (@analyze ascii_db seed_first ideal_float
           [lit "We met at the end of May."; lit "Call me at the end."])).
Proof. vm_compute; tauto. Qed.

(** Transition words come in descending order of count. *)
Example however_before_moreover :
  transition_words
    (@analyze ascii_db seed_first ideal_float
       [lit "However, it rained. Moreover, however cold, however late.";
        lit "Nothing else."])
  = [lit "however"; lit "moreover"].
Proof. vm_compute; reflexivity. Qed.

(** * The theorems at concrete inputs *)

(** C1 at two hash seeds: the order of first occurrence and its
    reverse. *)
Lemma analyze_deterministic_witness :
  seed_ok seed_first /\ seed_ok seed_rev
  /\ @analyze ascii_db seed_first ideal_float
       [lit "I love this. Don't you? It's amazing!!"]
     = @analyze ascii_db seed_rev ideal_float
         [lit "I love this. Don't you? It's amazing!!"].
Proof.
  split; [exact seed_first_ok|].
  split; [exact seed_rev_ok|].
  apply (@analyze_deterministic ascii_db ideal_float seed_first seed_rev
           seed_first_ok seed_rev_ok).
Defined.

Lemma dotted_lower_ascii (s : str) :
  forallb is_ascii s = true ->
  map ascii_lower_char s = concat (map dotted_lower_char s).
Proof.
  induction s as [|c r IH]; intros A; [reflexivity|].
  cbn [forallb] in A; apply andb_true_iff in A; destruct A as [Ac Ar].
  cbn [map concat]; rewrite (IH Ar); unfold dotted_lower_char.
  destruct (N.eqb c 304) eqn:E; [|reflexivity].
  apply N.eqb_eq in E; subst c; discriminate.
Qed.

(** The instance with the dotted capital I lowers character by
    character. *)
Lemma dotted_db_by_char : lower_by_char dotted_db.
Proof.
  split; [reflexivity|]; intros s.
  exists (map dotted_lower_char s); split.
  - induction s as [|c r IH]; [constructor|].
    cbn [map]; constructor; [|exact IH].
    unfold dotted_lower_char; destruct (N.eqb c 304) eqn:E.
    + right; apply N.eqb_eq in E; auto.
    + left; exists (ascii_lower_char c); split; [reflexivity|].
      apply is_word_ascii_lower.
  - unfold lower; destruct (forallb is_ascii s) eqn:A.
    + apply dotted_lower_ascii; exact A.
    + cbn [uni_lower dotted_db]; apply flat_map_concat_map.
Qed.

(** C3 at a corpus that gains a word when it is put in lower case: the
    name with the dotted capital I is one word, and two words in lower
    case. *)
Lemma ratio_fields_in_unit_interval_witness :
  let corpus := [lit "I love this. Don't you? It's "
                 ++ 304%N :: lit "stanbul!!"] in
  seed_ok seed_first
  /\ lower_by_char dotted_db
  /\ @count_words dotted_db (304%N :: lit "stanbul") = 1
  /\ @count_words dotted_db (@lower dotted_db (304%N :: lit "stanbul")) = 2
  /\ ratio_fields_unit (metrics (@analyze dotted_db seed_first ideal_float corpus)).
Proof.
  cbv zeta.
  split; [exact seed_first_ok|].
  split; [exact dotted_db_by_char|].
  split; [reflexivity|].
  split; [reflexivity|].
  destruct (@ratio_fields_in_unit_interval dotted_db seed_first ideal_float
              [lit "I love this. Don't you? It's "
               ++ 304%N :: lit "stanbul!!"])
    as (S1 & S2 & Q1 & Q2 & B & O & V & C).
  unfold ratio_fields_unit.
  split; [exact S1|]; split; [exact S2|].
  split; [exact Q1|]; split; [exact Q2|].
  split; [exact B|].
  split; [exact (V seed_first_ok)|].
  split; [exact (C dotted_db_by_char) | exact O].
Defined.

Lemma no_newline (t : str) : existsb (N.eqb 10) t = false -> ~ In 10%N t.
Proof.
  intros E Hin; apply not_true_iff_false in E; apply E.
  apply existsb_exists; exists 10%N; split; [exact Hin | reflexivity].
Qed.

Lemma no_newline_unbroken (t : str) : ~ In 10%N t -> unbroken t.
Proof.
  intros Hn a r E _; apply Hn; rewrite E.
  apply in_or_app; right; left; reflexivity.
Qed.

Lemma no_newline_first (a r : str) :
  ~ In 10%N a -> breaks_after r -> first_break a r.
Proof.
  intros Hn Hb; split; [exact Hb|].
  intros a1 r1 E _; apply Hn; rewrite E.
  apply in_or_app; right; left; reflexivity.
Qed.

Lemma visible_head_no_blank_line (c : char) (r : str) :
  is_space c = false -> ~ blank_line_ahead (c :: r).
Proof.
  intros Hc (ws & b & E & B); destruct ws as [|w ws].
  - injection E as -> _; discriminate.
  - injection E as <- _; simpl in B; rewrite Hc in B; discriminate.
Qed.

(** C6 at a text of a line, a blank line and two bullet lines: the three
    equations give its three paragraphs. *)
Lemma split_paragraphs_breaks_witness :
  let items := lit "- b" ++ 10%N :: lit "* c" in
  let text := lit "a" ++ 10%N :: 10%N :: items in
  first_break (lit "a") (10%N :: items)
  /\ first_break (lit "- b") (lit "* c")
  /\ unbroken (lit "* c")
  /\ split_paragraphs text = [lit "a"; lit "- b"; lit "* c"].
Proof.
  cbv zeta.
  set (items := lit "- b" ++ 10%N :: lit "* c").
  assert (F1 : first_break (lit "a") (10%N :: items)).
  { apply no_newline_first; [apply no_newline; reflexivity|].
    left; exists [], items; split; reflexivity. }
  assert (F2 : first_break (lit "- b") (lit "* c")).
  { apply no_newline_first; [apply no_newline; reflexivity|].
    right; exists [], 42%N, (lit " c"); repeat split. }
  assert (U3 : unbroken (lit "* c"))
    by (apply no_newline_unbroken, no_newline; reflexivity).
  split; [exact F1|]; split; [exact F2|]; split; [exact U3|].
  destruct (split_paragraphs_breaks (lit "a" ++ 10%N :: 10%N :: items))
    as (_ & _ & _ & Blank & _).
  destruct (split_paragraphs_breaks items) as (_ & _ & _ & _ & Bullet).
  destruct (split_paragraphs_breaks (lit "* c")) as (_ & _ & Whole & _).
  rewrite (Blank (lit "a") [] items eq_refl F1 eq_refl
             (visible_head_no_blank_line 45%N _ eq_refl)).
  rewrite (Bullet (lit "- b") (lit "* c") eq_refl F2
             (visible_head_no_blank_line 42%N _ eq_refl)).
  rewrite (Whole U3); reflexivity.
Defined.

(** C8 at the example of the specification: its first sentence fits, so
    the sample gives an excerpt, the greedy one. *)
Lemma excerpts_greedy_and_bounded_witness :
  let sample := lit "I love this. Don't you? It's amazing!!" in
  exists e, excerpt_of 200 sample = [e]
            /\ greedy_excerpt 200 (split_sentences sample) e.
Proof.
  cbv zeta.
  destruct (@excerpts_greedy_and_bounded ascii_db seed_first ideal_float
              [lit "I love this. Don't you? It's amazing!!"])
    as (_ & _ & _ & Gives & _).
  exact (Gives (lit "I love this. Don't you? It's amazing!!")).
Defined.



(** At a threshold the rounding decides.  The five sentences below have
    0, 1, 1, 1 and 1 words: the quotient is four tenths exactly, and
    numpy computes the double that follows the double 0.4.  Under an
    arithmetic that does so the class is medium. *)
Example rounding_decides_at_a_threshold {B64 : Binary64} :
  let corpus := [lit "?? Go. Go. Go. Go."] in
  Qeq (float_cv [0; 1; 1; 1; 1]) (7205759403792795 # 18014398509481984) ->
  map (@count_words ascii_db) (flat_map split_sentences corpus)
  = [0; 1; 1; 1; 1]
  /\ cv_guarded [0; 1; 1; 1; 1] = (4 / 10)%R
  /\ sentence_length_variation
       (rhythm_metrics
          (metrics (@analyze ascii_db seed_first B64 corpus)))
     = lit "medium".
Proof.
  cbv zeta; intros Hf.
  split; [reflexivity|].
  split.
  - unfold cv_guarded.
    assert (Ev : Q2R (np_var [0; 1; 1; 1; 1]) = (4 / 10 * (4 / 10))%R).
    { rewrite (Qeq_eqR (np_var [0; 1; 1; 1; 1]) (4 # 25)) by reflexivity.
      unfold Q2R; simpl; lra. }
    assert (Em : Q2R (np_mean [0; 1; 1; 1; 1]) = (8 / 10)%R).
    { unfold np_mean, py_div, Q2R; simpl; lra. }
    rewrite Ev, Em, sqrt_square, Rmax_right by lra.
    lra.
  - change (sentence_length_variation
              (rhythm_metrics
                 (metrics (@analyze ascii_db seed_first B64
                             [lit "?? Go. Go. Go. Go."]))))
      with (classify_variation (float_cv [0; 1; 1; 1; 1])).
    destruct (classify_variation_cases (float_cv [0; 1; 1; 1; 1]))
      as (_ & Medium & _).
    apply Medium; rewrite Hf; [discriminate | reflexivity].
Qed.

(** * Further properties of the segmentation *)

Lemma substring_refl (t : str) : substring t t.
Proof. exists [], []; rewrite app_nil_r; reflexivity. Qed.

Lemma substring_trans (a b c : str) :
  substring a b -> substring b c -> substring a c.
Proof.
  intros (p1 & q1 & ->) (p2 & q2 & ->).
  exists (p2 ++ p1), (q1 ++ q2); rewrite <- !app_assoc; reflexivity.
Qed.

Lemma substring_strip (p : str) : substring (strip p) p.
Proof.
  destruct (strip_split p) as (pre & post & E & _); exists pre, post; exact E.
Qed.

Lemma substring_In (p t : str) (c : char) :
  substring p t -> In c p -> In c t.
Proof.
  intros (pre & post & ->) Hc.
  apply in_or_app; right; apply in_or_app; left; exact Hc.
Qed.

Lemma single_spaced_app (a b : str) :
  single_spaced (a ++ b) = true ->
  single_spaced a = true /\ single_spaced b = true.
Proof.
  induction a as [|c a IH]; simpl; [auto|].
  intros E; apply andb_true_iff in E; destruct E as [Hc E].
  destruct (IH E) as [Ha Hb]; split; [|exact Hb].
  rewrite Ha, andb_true_r.
  destruct (is_space c); [|reflexivity].
  destruct a; simpl in *; [|exact Hc].
  apply andb_true_iff in Hc; destruct Hc as [-> _]; reflexivity.
Qed.

Lemma single_spaced_substring (p t : str) :
  substring p t -> single_spaced t = true -> single_spaced p = true.
Proof.
  intros (pre & post & ->) E.
  apply single_spaced_app in E; destruct E as [_ E].
  apply single_spaced_app in E; tauto.
Qed.

Lemma collapse_ws_single_spaced (t : str) :
  forall b,
    single_spaced (collapse_ws b t) = true
    /\ (b = true -> no_lead (collapse_ws b t)).
Proof.
  induction t as [|c r IH]; intros b; simpl; [auto|].
  destruct (is_space c) eqn:Hc.
  - destruct (IH true) as [S1 L1]; specialize (L1 eq_refl).
    destruct b; [auto|].
    split; [|discriminate].
    simpl; rewrite S1, andb_true_r.
    destruct (collapse_ws true r); simpl in *; [reflexivity|].
    rewrite L1; reflexivity.
  - destruct (IH false) as [S1 _].
    split; [simpl; rewrite Hc; exact S1 | intros _; simpl; exact Hc].
Qed.

(** The pieces of the sentence split are contiguous pieces of the text. *)
Lemma split_sentence_re_pieces (rest : str) :
  forall skip prev acc p,
    (0 < skip -> acc = []) ->
    In p (split_sentence_re skip prev acc rest) ->
    substring p (rev acc ++ rest).
Proof.
  induction rest as [|c rest IH]; intros skip prev acc p Hs Hp.
  - simpl in Hp; rewrite app_nil_r.
    destruct (sentence_end prev); simpl in Hp.
    + destruct Hp as [<- | [<- | []]]; [apply substring_refl|].
      exists (rev acc), []; rewrite app_nil_r; reflexivity.
    + destruct Hp as [<- | []]; apply substring_refl.
  - assert (Later : forall k pv q, In q (split_sentence_re k pv [] rest) ->
                                   substring q (rev acc ++ c :: rest)).
    { intros k pv q Hq.
      apply (substring_trans _ rest);
        [apply (IH k pv [] q (fun _ => eq_refl) Hq)|].
      exists (rev acc ++ [c]), []; rewrite app_nil_r, <- app_assoc.
      reflexivity. }
    assert (Head : substring (rev acc) (rev acc ++ c :: rest)).
    { exists [], (c :: rest); reflexivity. }
    assert (Keep : In p (split_sentence_re 0 (Some c) (c :: acc) rest) ->
                   substring p (rev acc ++ c :: rest)).
    { intros Hq.
      pose proof (IH 0 (Some c) (c :: acc) p ltac:(lia) Hq) as Sub.
      simpl rev in Sub; rewrite <- app_assoc in Sub; exact Sub. }
    simpl in Hp; destruct skip as [|k].
    + destruct (sentence_gap prev (c :: rest)) as [n|].
      * destruct Hp as [<- | Hp]; [exact Head | eapply Later; exact Hp].
      * match type of Hp with
        | In _ (if ?b then _ else _) => destruct b
        end.
        -- destruct Hp as [<- | Hp]; [exact Head|].
           apply (substring_trans _ (c :: rest)).
           ++ exact (IH 0 (Some c) [c] p ltac:(lia) Hp).
           ++ exists (rev acc), []; rewrite app_nil_r; reflexivity.
        -- exact (Keep Hp).
    + rewrite (Hs ltac:(lia)) in *; eapply Later; exact Hp.
Qed.

Lemma split_sentences_pieces (text s : str) :
  In s (split_sentences text) -> substring s (normalized text).
Proof.
  unfold split_sentences, normalized; rewrite in_map_iff.
  intros (p & <- & Hp); apply filter_In in Hp; destruct Hp as [Hp _].
  apply (substring_trans _ p); [apply substring_strip|].
  apply (split_sentence_re_pieces _ 0 None [] p); [lia | exact Hp].
Qed.

(** X1.  Every sentence that [split_sentences] returns is a contiguous
    piece of the text after its white space was collapsed and its ends
    stripped; it has at least two characters, no white space at either
    end, and no white space inside other than single spaces. *)
Theorem split_sentences_wellformed (text s : str) :
  In s (split_sentences text) ->
  substring s (normalized text)
  /\ 2 <= length s
  /\ stripped s
  /\ single_spaced s = true.
Proof.
  intros Hs; pose proof (split_sentences_pieces text s Hs) as Sub.
  split; [exact Sub|].
  split; [|split; [apply (split_sentences_stripped text s Hs)|]].
  - unfold split_sentences in Hs; rewrite in_map_iff in Hs.
    destruct Hs as (p & <- & Hp); apply filter_In in Hp.
    destruct Hp as [_ K]; unfold keep_sentence in K.
    destruct (strip p); [discriminate|]; apply Nat.ltb_lt in K; exact K.
  - apply (single_spaced_substring s (normalized text) Sub).
    apply (single_spaced_substring _ (collapse_ws false text));
      [apply substring_strip | apply collapse_ws_single_spaced].
Qed.

Lemma collapse_ws_In (t : str) (c : char) :
  forall b, In c (collapse_ws b t) -> In c t \/ c = 32%N.
Proof.
  induction t as [|x r IH]; intros b; simpl; [tauto|].
  destruct (is_space x); [destruct b|]; simpl; intros Hc.
  - destruct (IH _ Hc); tauto.
  - destruct Hc as [<- | Hc]; [tauto|]; destruct (IH _ Hc); tauto.
  - destruct Hc as [<- | Hc]; [tauto|]; destruct (IH _ Hc); tauto.
Qed.

Lemma normalized_no_terminator (text : str) :
  no_terminator text = true -> no_terminator (normalized text) = true.
Proof.
  unfold no_terminator; rewrite !forallb_forall; intros A c Hc.
  apply (substring_In _ _ c (substring_strip _)) in Hc.
  apply collapse_ws_In in Hc; destruct Hc as [Hc | ->]; [auto | reflexivity].
Qed.

Lemma split_sentence_re_whole (rest : str) :
  forall prev acc,
    sentence_end prev = false ->
    no_terminator rest = true ->
    split_sentence_re 0 prev acc rest = [rev acc ++ rest].
Proof.
  induction rest as [|c rest IH]; intros prev acc Hp Hn; simpl.
  - rewrite Hp, app_nil_r; reflexivity.
  - simpl in Hn; apply andb_true_iff in Hn; destruct Hn as [Hc Hn].
    apply negb_true_iff in Hc.
    unfold sentence_gap; rewrite Hp; simpl.
    rewrite (IH (Some c) (c :: acc) Hc Hn); simpl.
    rewrite <- app_assoc; reflexivity.
Qed.

Lemma normalized_strip (text : str) : strip (normalized text) = normalized text.
Proof. apply strip_id, strip_stripped. Qed.

(** X2.  A text without [.], [!] and [?] is one sentence: the text with
    its white space collapsed and its ends stripped.  When that has fewer
    than two characters there is no sentence at all. *)
Theorem split_sentences_without_terminator (text : str) :
  no_terminator text = true ->
  split_sentences text
  = if Nat.ltb 1 (length (normalized text)) then [normalized text] else [].
Proof.
  intros Hn; unfold split_sentences; fold (normalized text).
  rewrite (split_sentence_re_whole _ None [] eq_refl
             (normalized_no_terminator text Hn)).
  simpl rev; simpl app; simpl filter.
  unfold keep_sentence; rewrite normalized_strip.
  destruct (normalized text) as [|c t] eqn:E; [reflexivity|].
  destruct (Nat.ltb 1 (length (c :: t))); [|reflexivity].
  simpl map; rewrite <- E, normalized_strip; reflexivity.
Qed.

(** X3.  [split_paragraphs] returns no paragraph exactly when the text
    is empty or white space only. *)
Theorem split_paragraphs_empty_iff_blank (text : str) :
  split_paragraphs text = [] <-> blank text = true.
Proof.
  split; [apply split_paragraphs_nil_blank | apply split_paragraphs_blank].
Qed.

Lemma last_newline_In (ws : str) (k : nat) :
  last_newline ws = Some k -> In 10%N ws.
Proof.
  revert k; induction ws as [|c w IH]; simpl; intros k; [discriminate|].
  destruct (last_newline w) as [i|].
  - intros _; right; apply (IH i); reflexivity.
  - destruct (N.eqb c 10) eqn:Ec; [|discriminate].
    apply N.eqb_eq in Ec; subst; intros _; left; reflexivity.
Qed.

(** Where the paragraph pattern matches, a blank line or a bullet line
    lies ahead. *)
Lemma paragraph_break_ahead (r : str) (k : nat) :
  paragraph_break r = Some k -> blank_line_ahead r \/ bullet_ahead r.
Proof.
  unfold paragraph_break.
  destruct (last_newline (ws_prefix r)) as [j|] eqn:El.
  - intros _; left; apply last_newline_In, in_split in El.
    destruct El as (w1 & w2 & Ew).
    exists w1, (w2 ++ lstrip r); split.
    + rewrite (ws_prefix_lstrip r) at 1; rewrite Ew, <- app_assoc.
      reflexivity.
    + pose proof (ws_prefix_blank r) as B; rewrite Ew, blank_app in B.
      apply andb_true_iff in B; tauto.
  - destruct (lstrip r) as [|d t] eqn:Et; [discriminate|].
    destruct (is_bullet_char d) eqn:Ed; [|discriminate].
    intros _; right; exists (ws_prefix r), d, t; repeat split.
    + rewrite <- Et; apply ws_prefix_lstrip.
    + apply ws_prefix_blank.
    + exact Ed.
Qed.

(** X4.  Splitting is idempotent: a paragraph that [split_paragraphs]
    returned is split into itself alone. *)
Theorem split_paragraphs_idempotent (text p : str) :
  In p (split_paragraphs text) -> split_paragraphs p = [p].
Proof.
  intros Hp.
  destruct (split_paragraphs_clean text p Hp) as (Ne & St & Nb & Nu).
  unfold split_paragraphs; rewrite split_paragraph_re_whole.
  - simpl; unfold nonblank; rewrite (strip_id p St).
    destruct p; [congruence|]; simpl.
    change (strip (n :: p) :: []) with [strip (n :: p)].
    rewrite (strip_id _ St); reflexivity.
  - intros a r E.
    destruct (paragraph_break r) as [k|] eqn:Ek; [exfalso | reflexivity].
    destruct (paragraph_break_ahead r k Ek) as [M | M].
    + apply Nb; exists a, r; auto.
    + apply Nu; exists a, r; auto.
Qed.

(** * Further properties of the tokens and n-grams *)

(** X5.  [extract_ngrams] returns one window for each start position
    that leaves room for [n] words, [len(words) - n + 1] of them and none
    when the words are fewer than [n]; window [i] is [words[i:i+n]], and
    every window has exactly [n] words. *)
Theorem extract_ngrams_windows (words : list str) (n : nat) :
  length (extract_ngrams words n) = length words + 1 - n
  /\ (length words < n -> extract_ngrams words n = [])
  /\ (forall i, i < length words + 1 - n ->
        nth i (extract_ngrams words n) [] = firstn n (skipn i words))
  /\ Forall (fun g => length g = n) (extract_ngrams words n).
Proof.
  unfold extract_ngrams; split; [|split; [|split]].
  - rewrite length_map, length_seq; reflexivity.
  - intros Hlt; replace (length words + 1 - n) with 0 by lia; reflexivity.
  - intros i Hi.
    rewrite (nth_indep _ [] (firstn n (skipn 0 words)))
      by (rewrite length_map, length_seq; exact Hi).
    rewrite (map_nth (fun j => firstn n (skipn j words))), seq_nth by exact Hi.
    reflexivity.
  - apply Forall_forall; intros g Hg; apply in_map_iff in Hg.
    destruct Hg as (i & <- & Hi); apply in_seq in Hi.
    rewrite length_firstn, length_skipn; lia.
Qed.

Lemma findall_runs_sep (p : char -> bool) (a : str) :
  forall acc c r,
    p c = false ->
    findall_runs p acc (a ++ c :: r)
    = findall_runs p acc a ++ findall_runs p [] r.
Proof.
  induction a as [|x a IH]; intros acc c r Hc; simpl.
  - rewrite Hc; destruct acc; reflexivity.
  - destruct (p x); [apply IH; exact Hc|].
    destruct acc; simpl; rewrite (IH [] c r Hc); reflexivity.
Qed.

Lemma findall_runs_tokens (p : char -> bool) (s : str) :
  forall acc w,
    forallb p acc = true ->
    In w (findall_runs p acc s) ->
    w <> [] /\ forallb p w = true.
Proof.
  assert (Rev : forall acc, acc <> [] -> forallb p acc = true ->
                  rev acc <> [] /\ forallb p (rev acc) = true).
  { intros acc Ne Ha; split.
    - intro E; apply Ne; apply (f_equal (@rev N)) in E.
      rewrite rev_involutive in E; exact E.
    - rewrite forallb_forall in *; intros x Hx; apply Ha, in_rev; exact Hx. }
  induction s as [|c r IH]; intros acc w Ha Hw; simpl in Hw.
  - destruct acc as [|a acc]; [destruct Hw|].
    destruct Hw as [<- | []]; apply Rev; [discriminate | exact Ha].
  - destruct (p c) eqn:Hc.
    + apply (IH (c :: acc) w); [simpl; rewrite Hc; exact Ha | exact Hw].
    + destruct acc as [|a acc]; [apply (IH [] w eq_refl Hw)|].
      destruct Hw as [<- | Hw]; [apply Rev; [discriminate | exact Ha]|].
      apply (IH [] w eq_refl Hw).
Qed.

Section Tokens.
Context {U : UnicodeDB}.

Lemma findall_words_join (corpus : list str) :
  findall_words (join [10%N; 10%N] corpus) = flat_map findall_words corpus.
Proof.
  unfold findall_words; induction corpus as [|x [|y r] IH].
  - reflexivity.
  - simpl; rewrite app_nil_r; reflexivity.
  - change (join [10%N; 10%N] (x :: y :: r))
      with (x ++ 10%N :: 10%N :: join [10%N; 10%N] (y :: r)).
    rewrite findall_runs_sep by reflexivity.
    change (findall_runs is_word [] (10%N :: join [10%N; 10%N] (y :: r)))
      with (findall_runs is_word [] (join [10%N; 10%N] (y :: r))).
    rewrite IH; reflexivity.
Qed.

(** X6.  The word list that [__init__] gathers sample by sample is the
    word list of the combined text: joining the samples with a blank line
    neither merges nor splits a word, so the counts taken from [all_words]
    and the patterns searched in [combined_text] speak of the same
    words. *)
Theorem all_words_of_combined_text (corpus : list str) :
  let self := StyleAnalyzer_init corpus in
  all_words self = get_words (combined_text self)
  /\ length (all_words self) = count_words (combined_text self).
Proof.
  cbv zeta; cbn [all_words combined_text StyleAnalyzer_init].
  assert (E : flat_map get_words corpus
              = get_words (join [10%N; 10%N] corpus)).
  { unfold get_words; rewrite findall_words_join.
    induction corpus as [|x r IH]; [reflexivity|].
    simpl; rewrite map_app, IH; reflexivity. }
  split; [exact E | rewrite E; apply get_words_length].
Qed.

(** X7.  Every token that [count_words] counts and [get_words] puts in
    lower case is a non-empty run of word characters. *)
Theorem word_tokens_are_words (text : str) :
  Forall (fun w => w <> [] /\ forallb is_word w = true) (findall_words text).
Proof.
  apply Forall_forall; intros w Hw.
  apply (findall_runs_tokens is_word text [] w eq_refl Hw).
Qed.

Lemma findall_runs_In (p : char -> bool) (s : str) (x : char) :
  forall acc w,
    In w (findall_runs p acc s) -> In x w -> In x acc \/ In x s.
Proof.
  induction s as [|c r IH]; intros acc w Hw Hx; simpl in Hw.
  - destruct acc as [|a acc]; [destruct Hw|].
    destruct Hw as [<- | []]; left; apply in_rev; exact Hx.
  - destruct (p c).
    + destruct (IH _ _ Hw Hx) as [[<- | Ha] | Hr]; simpl; auto.
    + destruct acc as [|a acc].
      * destruct (IH _ _ Hw Hx) as [[] | Hr]; simpl; auto.
      * destruct Hw as [<- | Hw]; [left; apply in_rev; exact Hx|].
        destruct (IH _ _ Hw Hx) as [[] | Hr]; simpl; auto.
Qed.

Lemma ascii_word_lower (c : char) :
  is_ascii c = true -> is_word c = true ->
  lower_word_char (ascii_lower_char c) = true.
Proof.
  unfold is_word; intros A; rewrite A; clear A.
  unfold ascii_alnum, lower_word_char, ascii_lower_char, ascii_upper, in_range.
  destruct (N.leb 65 c && N.leb c 90) eqn:Up.
  - intros _; apply andb_true_iff in Up; rewrite !N.leb_le in Up.
    replace (N.leb 97 (c + 32)) with true by (symmetry; apply N.leb_le; lia).
    replace (N.leb (c + 32) 122) with true by (symmetry; apply N.leb_le; lia).
    reflexivity.
  - rewrite orb_false_r; intros E; rewrite orb_true_iff in E.
    destruct E as [E | ->]; [|apply orb_true_r].
    rewrite orb_true_iff in E; destruct E as [-> | ->];
      [rewrite orb_true_r | ]; reflexivity.
Qed.

Lemma get_words_ascii_lower (text w : str) :
  forallb is_ascii text = true -> In w (get_words text) ->
  w <> [] /\ forallb lower_word_char w = true.
Proof.
  intros A Hw.
  unfold get_words in Hw; apply in_map_iff in Hw.
  destruct Hw as (t & <- & Ht).
  destruct (findall_runs_tokens is_word text [] t eq_refl Ht) as [Ne Wt].
  assert (At : forallb is_ascii t = true).
  { rewrite forallb_forall in *; intros x Hx.
    destruct (findall_runs_In is_word text x [] t Ht Hx) as [[] | Hin].
    apply A, Hin. }
  unfold lower; rewrite At; split.
  - destruct t; [congruence | discriminate].
  - rewrite forallb_forall in *; intros x Hx; apply in_map_iff in Hx.
    destruct Hx as (y & <- & Hy); apply ascii_word_lower; auto.
Qed.

(** X8.  In an ASCII text every word that [get_words] returns is a
    non-empty string of small letters, digits and underscores: no capital
    letter, no space, no apostrophe and no other punctuation is part of a
    word. *)
Theorem get_words_ascii_tokens (text : str) :
  forallb is_ascii text = true ->
  Forall (fun w => w <> [] /\ forallb lower_word_char w = true)
         (get_words text).
Proof.
  intros A; apply Forall_forall; intros w Hw.
  exact (get_words_ascii_lower text w A Hw).
Qed.

End Tokens.

(** * Further properties of the miners *)

(** X9.  The matches of [CONTRACTIONS] in a text never outnumber its
    word tokens: every match starts where a word starts. *)
Theorem contractions_at_most_words {U : UnicodeDB} (text : str) :
  count_contractions text <= count_words text.
Proof. apply count_contractions_words. Qed.

Lemma insert_desc_perm (A : Type) (p : A * nat) (l : list (A * nat)) :
  Permutation (insert_desc p l) (p :: l).
Proof.
  induction l as [|q r IH]; simpl; [apply Permutation_refl|].
  destruct (Nat.ltb (snd p) (snd q)); [|apply Permutation_refl].
  apply perm_trans with (q :: p :: r); [|apply perm_swap].
  apply perm_skip; exact IH.
Qed.

Lemma sort_desc_perm (A : Type) (l : list (A * nat)) :
  Permutation (sort_desc l) l.
Proof.
  induction l as [|p l IH]; simpl; [apply perm_nil|].
  apply perm_trans with (p :: sort_desc l);
    [apply insert_desc_perm | apply perm_skip; exact IH].
Qed.

Lemma NoDup_firstn (A : Type) (n : nat) (l : list A) :
  NoDup l -> NoDup (firstn n l).
Proof.
  intros Hn; rewrite <- (firstn_skipn n l) in Hn.
  apply NoDup_app_remove_r in Hn; exact Hn.
Qed.

Lemma NoDup_keys_filter (A : Type) (f : A * nat -> bool)
    (l : list (A * nat)) :
  NoDup (map fst l) -> NoDup (map fst (filter f l)).
Proof.
  induction l as [|q r IH]; simpl; intros Hn; [constructor|].
  inversion Hn as [|? ? Hq Hr]; subst.
  destruct (f q); simpl; [|apply IH; exact Hr].
  constructor; [|apply IH; exact Hr].
  intros Hin; apply Hq; apply in_map_iff in Hin.
  destruct Hin as (x & E & Hx); apply filter_In in Hx.
  rewrite <- E; apply in_map; tauto.
Qed.

Lemma NoDup_keys_most_common (A : Type) (n : nat) (c : list (A * nat)) :
  NoDup (map fst c) -> NoDup (map fst (most_common n c)).
Proof.
  intros Hn; unfold most_common; rewrite <- firstn_map; apply NoDup_firstn.
  apply (Permutation_NoDup (l := map fst c)); [|exact Hn].
  apply Permutation_map, Permutation_sym, sort_desc_perm.
Qed.

Lemma NoDup_dedup (l : list str) : NoDup (dedup l).
Proof.
  induction l as [|x r IH]; simpl; constructor.
  - intros Hin; apply filter_In in Hin; destruct Hin as [_ E].
    rewrite str_eqb_refl in E; discriminate.
  - apply NoDup_filter; exact IH.
Qed.

Lemma transition_candidates_NoDup : NoDup transition_candidates.
Proof.
  assert (E : dedup transition_candidates = transition_candidates)
    by (vm_compute; reflexivity).
  rewrite <- E; apply NoDup_dedup.
Qed.

Lemma counter_get_Counter (l : list str) (x : str) :
  counter_get str_eqb x (Counter str_eqb l) = count_if (str_eqb x) l.
Proof.
  unfold Counter; rewrite (counter_get_fold _ _ str_eqb_eq); reflexivity.
Qed.

Lemma count_if_In (l : list str) (x : str) :
  1 <= count_if (str_eqb x) l -> In x l.
Proof.
  unfold count_if; intros Hc.
  destruct (filter (str_eqb x) l) as [|y f] eqn:E; [simpl in Hc; lia|].
  assert (Hy : In y (filter (str_eqb x) l)) by (rewrite E; left; reflexivity).
  apply filter_In in Hy; destruct Hy as [Hy Ey].
  apply str_eqb_eq in Ey; subst; exact Hy.
Qed.

Section TransitionWords.
Context {U : UnicodeDB}.
Variable self : StyleAnalyzer.

(** The pairs that [extract_transition_words] collects before sorting. *)
Lemma found_keys (cands : list str) (word_counts : list (str * nat))
    (x : str) :
  In x (map fst
          (flat_map (fun word =>
                       if counter_mem word word_counts
                          && Nat.leb 1 (counter_get str_eqb word word_counts)
                       then [(word, counter_get str_eqb word word_counts)]
                       else [])
             cands)) ->
  In x cands.
Proof.
  induction cands as [|w ws IH]; [simpl; tauto|].
  cbn [flat_map]; rewrite map_app, in_app_iff.
  intros [Hx | Hx]; [|right; exact (IH Hx)].
  match type of Hx with
  | In _ (map _ (if ?b then _ else _)) => destruct b
  end; [|destruct Hx].
  destruct Hx as [<- | []]; left; reflexivity.
Qed.

Lemma found_NoDup (cands : list str) (word_counts : list (str * nat)) :
  NoDup cands ->
  NoDup (map fst
           (flat_map (fun word =>
                        if counter_mem word word_counts
                           && Nat.leb 1 (counter_get str_eqb word word_counts)
                        then [(word, counter_get str_eqb word word_counts)]
                        else [])
              cands)).
Proof.
  induction cands as [|w ws IH]; intros Hn; [constructor|].
  inversion Hn as [|? ? Hw Hws]; subst.
  cbn [flat_map]; rewrite map_app.
  match goal with
  | |- NoDup (map _ (if ?b then _ else _) ++ _) => destruct b
  end; [|apply IH; exact Hws].
  cbn [map fst app].
  constructor; [|apply IH; exact Hws].
  intros Hin; apply Hw; exact (found_keys ws word_counts w Hin).
Qed.

Lemma transition_item_counted (top_n : nat) (item : str * nat) :
  In item
     (firstn top_n
        (sort_desc
           (flat_map (fun word =>
                        if counter_mem word (Counter str_eqb (all_words self))
                           && Nat.leb 1 (counter_get str_eqb word
                                           (Counter str_eqb (all_words self)))
                        then [(word, counter_get str_eqb word
                                       (Counter str_eqb (all_words self)))]
                        else [])
              transition_candidates))) ->
  In (fst item) transition_candidates
  /\ 1 <= snd item
  /\ snd item = count_if (str_eqb (fst item)) (all_words self).
Proof.
  destruct item as [w c]; intros Hin; cbn [fst snd].
  apply firstn_In in Hin.
  apply (proj1 (sort_desc_In _ _ _)) in Hin.
  apply in_flat_map in Hin.
  destruct Hin as (word & Hc & Hin).
  match type of Hin with
  | In _ (if ?b then _ else _) => destruct b eqn:B
  end; [|destruct Hin].
  destruct Hin as [E | []]; inversion E; subst w c.
  apply andb_true_iff in B; destruct B as [_ B]; apply Nat.leb_le in B.
  split; [exact Hc|]; split; [exact B|].
  apply counter_get_Counter.
Qed.

Lemma transition_word_occurs (top_n : nat) (w : str) :
  In w (extract_transition_words self top_n) ->
  In w transition_candidates /\ In w (all_words self).
Proof.
  unfold extract_transition_words; intros Hw.
  apply in_map_iff in Hw; destruct Hw as (item & <- & Hi).
  destruct (transition_item_counted top_n item Hi) as (Hc & C1 & C2).
  split; [exact Hc|].
  rewrite C2 in C1; apply count_if_In in C1; exact C1.
Qed.

(** X10.  The transition words are ranked: they are distinct entries of
    the candidate list, each with the number of times it occurs among the
    word tokens of the corpus, at least once, in descending order of that
    number, at most [top_n] of them. *)
Theorem transition_words_ranked (top_n : nat) :
  exists ranked : list (str * nat),
    extract_transition_words self top_n = map fst ranked
    /\ length ranked <= top_n
    /\ StronglySorted (@by_count_desc str) ranked
    /\ NoDup (map fst ranked)
    /\ Forall (fun item =>
                 In (fst item) transition_candidates
                 /\ 1 <= snd item
                 /\ snd item = count_if (str_eqb (fst item)) (all_words self))
              ranked.
Proof.
  unfold extract_transition_words.
  set (word_counts := Counter str_eqb (all_words self)).
  set (found := flat_map _ transition_candidates).
  exists (firstn top_n (sort_desc found)).
  split; [reflexivity|].
  split; [apply firstn_le_length|].
  split; [apply firstn_sorted, sort_desc_sorted|].
  split.
  - rewrite <- firstn_map; apply NoDup_firstn.
    apply (Permutation_NoDup (l := map fst found)).
    + apply Permutation_map, Permutation_sym, sort_desc_perm.
    + apply found_NoDup, transition_candidates_NoDup.
  - apply Forall_forall; intros item Hin.
    exact (transition_item_counted top_n item Hin).
Qed.

End TransitionWords.

Lemma lower_word_char_no_space (w : str) :
  forallb lower_word_char w = true -> existsb (N.eqb 32) w = false.
Proof.
  induction w as [|c w IH]; [reflexivity|].
  cbn [forallb existsb].
  intros E; apply andb_true_iff in E; destruct E as [Hc E].
  rewrite (IH E), orb_false_r.
  destruct (N.eqb 32 c) eqn:Ec; [|reflexivity].
  apply N.eqb_eq in Ec; subst c; discriminate.
Qed.

(** X11.  On an ASCII corpus every transition word returned is a single
    lowercased word token, so the candidates that are phrases of several
    words ([in fact], [for example], [the truth is] and the like) are
    never returned, however often the corpus holds them. *)
Theorem transition_words_never_phrases {U : UnicodeDB}
    (corpus : list str) (top_n : nat) :
  forallb (forallb is_ascii) corpus = true ->
  let found := extract_transition_words (StyleAnalyzer_init corpus) top_n in
  Forall (fun w => forallb lower_word_char w = true) found
  /\ Forall (fun phrase => ~ In phrase found) multi_word_candidates.
Proof.
  intros A; cbv zeta.
  assert (Tok : forall w,
             In w (extract_transition_words (StyleAnalyzer_init corpus) top_n)
             -> forallb lower_word_char w = true).
  { intros w Hw.
    destruct (transition_word_occurs (StyleAnalyzer_init corpus) top_n w Hw)
      as [_ C1].
    cbn [all_words StyleAnalyzer_init] in C1; apply in_flat_map in C1.
    destruct C1 as (sample & Hs & Hw').
    rewrite forallb_forall in A.
    exact (proj2 (get_words_ascii_lower sample w (A sample Hs) Hw')). }
  split; apply Forall_forall.
  - exact Tok.
  - intros phrase Hp Hin.
    unfold multi_word_candidates in Hp; apply filter_In in Hp.
    destruct Hp as [_ Sp].
    rewrite (lower_word_char_no_space _ (Tok phrase Hin)) in Sp.
    discriminate.
Qed.

(** * Further properties of the ranked word lists *)

Section RankedWords.
Context {U : UnicodeDB} {H : HashSeed}.

Lemma vocabulary_loop_cons (top_n : nat) (item : str * nat)
    (rest : list (str * nat)) (acc : list str) :
  vocabulary_loop top_n (item :: rest) acc
  = if Nat.leb top_n
         (length (if distinctive item then acc ++ [fst item] else acc))
    then if distinctive item then acc ++ [fst item] else acc
    else vocabulary_loop top_n rest
           (if distinctive item then acc ++ [fst item] else acc).
Proof. destruct item; reflexivity. Qed.

Lemma starter_loop_cons (top_n : nat) (item : str * nat)
    (rest : list (str * nat)) (acc : list str) :
  starter_loop top_n (item :: rest) acc
  = if Nat.leb top_n
         (length (if recurring item then acc ++ [fst item] else acc))
    then if recurring item then acc ++ [fst item] else acc
    else starter_loop top_n rest
           (if recurring item then acc ++ [fst item] else acc).
Proof. destruct item; reflexivity. Qed.

(** A loop that appends the keys that pass a test, and leaves once the
    list has [top_n] entries, returns the first [top_n] keys that pass. *)
Lemma vocabulary_loop_closed (top_n : nat) (items : list (str * nat)) :
  forall acc,
    length acc < top_n ->
    vocabulary_loop top_n items acc
    = firstn top_n (acc ++ map fst (filter distinctive items)).
Proof.
  induction items as [|item rest IH]; intros acc Hacc.
  - simpl; rewrite app_nil_r, firstn_all2 by lia; reflexivity.
  - rewrite vocabulary_loop_cons.
    change (filter distinctive (item :: rest))
      with (if distinctive item then item :: filter distinctive rest
            else filter distinctive rest).
    destruct (distinctive item).
    + destruct (Nat.leb top_n (length (acc ++ [fst item]))) eqn:E;
        rewrite length_app in E; simpl length in E.
      * apply Nat.leb_le in E.
        change (map fst (item :: filter distinctive rest))
          with ([fst item] ++ map fst (filter distinctive rest)).
        rewrite app_assoc, firstn_prefix
          by (rewrite length_app; simpl; lia).
        rewrite firstn_all2 by (rewrite length_app; simpl; lia).
        reflexivity.
      * apply Nat.leb_gt in E.
        rewrite IH by (rewrite length_app; simpl; lia).
        rewrite <- app_assoc; reflexivity.
    + replace (Nat.leb top_n (length acc)) with false
        by (symmetry; apply Nat.leb_gt; exact Hacc).
      apply IH; exact Hacc.
Qed.

Lemma starter_loop_closed (top_n : nat) (items : list (str * nat)) :
  forall acc,
    length acc < top_n ->
    starter_loop top_n items acc
    = firstn top_n (acc ++ map fst (filter recurring items)).
Proof.
  induction items as [|item rest IH]; intros acc Hacc.
  - simpl; rewrite app_nil_r, firstn_all2 by lia; reflexivity.
  - rewrite starter_loop_cons.
    change (filter recurring (item :: rest))
      with (if recurring item then item :: filter recurring rest
            else filter recurring rest).
    destruct (recurring item).
    + destruct (Nat.leb top_n (length (acc ++ [fst item]))) eqn:E;
        rewrite length_app in E; simpl length in E.
      * apply Nat.leb_le in E.
        change (map fst (item :: filter recurring rest))
          with ([fst item] ++ map fst (filter recurring rest)).
        rewrite app_assoc, firstn_prefix
          by (rewrite length_app; simpl; lia).
        rewrite firstn_all2 by (rewrite length_app; simpl; lia).
        reflexivity.
      * apply Nat.leb_gt in E.
        rewrite IH by (rewrite length_app; simpl; lia).
        rewrite <- app_assoc; reflexivity.
    + replace (Nat.leb top_n (length acc)) with false
        by (symmetry; apply Nat.leb_gt; exact Hacc).
      apply IH; exact Hacc.
Qed.

(** With a cap of zero the loops still look at one entry, the most
    common one, and return it when it passes the test. *)
Lemma vocabulary_loop_zero (items : list (str * nat)) :
  vocabulary_loop 0 items [] = map fst (filter distinctive (firstn 1 items)).
Proof.
  destruct items as [|item rest]; [reflexivity|].
  rewrite vocabulary_loop_cons.
  change (firstn 1 (item :: rest)) with [item].
  change (filter distinctive [item])
    with (if distinctive item then [item] else []).
  destruct (distinctive item); reflexivity.
Qed.

Lemma starter_loop_zero (items : list (str * nat)) :
  starter_loop 0 items [] = map fst (filter recurring (firstn 1 items)).
Proof.
  destruct items as [|item rest]; [reflexivity|].
  rewrite starter_loop_cons.
  change (firstn 1 (item :: rest)) with [item].
  change (filter recurring [item])
    with (if recurring item then [item] else []).
  destruct (recurring item); reflexivity.
Qed.

Lemma ranked_keys_NoDup (f : str * nat -> bool) (k : nat) (l : list str) :
  NoDup (map fst (filter f (most_common k (Counter str_eqb l)))).
Proof.
  apply NoDup_keys_filter, NoDup_keys_most_common.
  apply Counter_NoDup, str_eqb_eq.
Qed.

Lemma ranked_counts (f : str * nat -> bool) (k : nat) (l : list str) :
  Forall (fun item => snd item = count_if (str_eqb (fst item)) l)
         (filter f (most_common k (Counter str_eqb l))).
Proof.
  apply Forall_forall; intros [w c] Hin; apply filter_In in Hin.
  destruct Hin as [Hin _]; cbn [fst snd].
  exact (most_common_count _ _ str_eqb_eq k l w c Hin).
Qed.

Variable self : StyleAnalyzer.

(** X12.  The vocabulary preferences are the first [top_n] words, in
    descending order of their count in the corpus, among the 200 most
    common words that are no stop word, longer than two characters, not a
    number and found at least twice; no word is returned twice.  Asked for
    zero words, the loop still returns the most common word of the corpus
    when that word passes the test. *)
Theorem vocabulary_preferences_selection (n : nat) :
  let top := most_common 200 (Counter str_eqb (all_words self)) in
  let ranked := filter distinctive top in
  extract_vocabulary_preferences self (S n) = map fst (firstn (S n) ranked)
  /\ extract_vocabulary_preferences self 0
     = map fst (filter distinctive (firstn 1 top))
  /\ StronglySorted (@by_count_desc str) ranked
  /\ NoDup (map fst ranked)
  /\ Forall (fun item =>
               snd item = count_if (str_eqb (fst item)) (all_words self)
               /\ 2 <= snd item
               /\ 2 < length (fst item)
               /\ isdigit (fst item) = false
               /\ set_mem (fst item) COMMON_WORDS = false)
            ranked.
Proof.
  cbv zeta; unfold extract_vocabulary_preferences.
  split; [|split; [|split; [|split]]].
  - rewrite vocabulary_loop_closed by (simpl; lia).
    rewrite app_nil_l, firstn_map; reflexivity.
  - apply vocabulary_loop_zero.
  - apply filter_sorted, most_common_sorted.
  - apply ranked_keys_NoDup.
  - pose proof (ranked_counts distinctive 200 (all_words self)) as C.
    rewrite Forall_forall in *; intros item Hin.
    split; [exact (C item Hin)|].
    apply filter_In in Hin; destruct Hin as [_ D].
    unfold distinctive in D.
    apply andb_true_iff in D; destruct D as [D D4].
    apply andb_true_iff in D; destruct D as [D D3].
    apply andb_true_iff in D; destruct D as [D1 D2].
    apply negb_true_iff in D1, D4.
    apply Nat.ltb_lt in D2; apply Nat.leb_le in D3.
    repeat split; assumption.
Qed.

(** X13.  The sentence starters are the first [top_n] starters, in
    descending order of their count, among the 30 most common starters
    that open at least two sentences and are not generic; no starter is
    returned twice.  Asked for zero starters, the loop still returns the
    most common starter when it passes the test. *)
Theorem sentence_starters_selection (n : nat) :
  let starters := flat_map starter_of (all_sentences self) in
  let top := most_common 30 (Counter str_eqb starters) in
  let ranked := filter recurring top in
  extract_sentence_starters self (S n) = map fst (firstn (S n) ranked)
  /\ extract_sentence_starters self 0
     = map fst (filter recurring (firstn 1 top))
  /\ StronglySorted (@by_count_desc str) ranked
  /\ NoDup (map fst ranked)
  /\ Forall (fun item =>
               snd item = count_if (str_eqb (fst item)) starters
               /\ 2 <= snd item
               /\ set_mem (fst item) generic_starters = false)
            ranked.
Proof.
  cbv zeta; unfold extract_sentence_starters.
  split; [|split; [|split; [|split]]].
  - rewrite starter_loop_closed by (simpl; lia).
    rewrite app_nil_l, firstn_map; reflexivity.
  - apply starter_loop_zero.
  - apply filter_sorted, most_common_sorted.
  - apply ranked_keys_NoDup.
  - pose proof (ranked_counts recurring 30
                  (flat_map starter_of (all_sentences self))) as C.
    rewrite Forall_forall in *; intros item Hin.
    split; [exact (C item Hin)|].
    apply filter_In in Hin; destruct Hin as [_ D].
    unfold recurring in D.
    apply andb_true_iff in D; destruct D as [D1 D2].
    apply negb_true_iff in D2; apply Nat.leb_le in D1.
    split; assumption.
Qed.

End RankedWords.

Lemma split_ws_not_nil (s : str) :
  forall acc, acc <> [] \/ blank s = false -> split_ws acc s <> [].
Proof.
  induction s as [|c r IH]; intros acc Hacc.
  - destruct Hacc as [Hacc | Hb]; [|discriminate].
    simpl; destruct acc; [congruence | discriminate].
  - cbn [split_ws]; destruct (is_space c) eqn:Ec.
    + destruct acc as [|a acc]; [|discriminate].
      apply IH; right.
      destruct Hacc as [Hacc | Hb]; [congruence|].
      unfold blank in *; cbn [forallb] in Hb; rewrite Ec in Hb; exact Hb.
    + apply IH; left; discriminate.
Qed.

Lemma starter_of_words {U : UnicodeDB} (s : str) :
  split_ws [] s <> [] -> starter_of s = [first_two_words s].
Proof.
  unfold starter_of, first_two_words; intros Hw.
  destruct (split_ws [] s) as [|w [|w' ws]]; [congruence | | ]; reflexivity.
Qed.

(** X14.  Every sentence of the corpus gives exactly one starter, its
    first two words or its only word, lowercased and joined by one space:
    no sentence is without words, so the list of starters is as long as
    the list of sentences. *)
Theorem every_sentence_has_a_starter {U : UnicodeDB} (corpus : list str) :
  let self := StyleAnalyzer_init corpus in
  flat_map starter_of (all_sentences self)
  = map first_two_words (all_sentences self)
  /\ length (flat_map starter_of (all_sentences self))
     = length (all_sentences self).
Proof.
  cbv zeta; cbn [all_sentences StyleAnalyzer_init].
  assert (E : forall l : list str,
             (forall s, In s l -> split_ws [] s <> []) ->
             flat_map starter_of l = map first_two_words l).
  { induction l as [|s l IH]; intros Hl; [reflexivity|].
    cbn [flat_map map].
    rewrite (starter_of_words s (Hl s (or_introl eq_refl))).
    rewrite IH by (intros x Hx; apply Hl; right; exact Hx).
    reflexivity. }
  assert (W : forall s, In s (flat_map split_sentences corpus) ->
                        split_ws [] s <> []).
  { intros s Hs; apply in_flat_map in Hs; destruct Hs as (t & _ & Hs).
    destruct (split_sentences_stripped t s Hs) as [[Hl _] Hn].
    apply split_ws_not_nil; right.
    destruct s as [|c r]; [congruence|].
    unfold blank; cbn [forallb]; simpl in Hl; rewrite Hl; reflexivity. }
  split.
  - apply E, W.
  - rewrite (E _ W), length_map; reflexivity.
Qed.

(** * Further properties of the whole profile *)

Lemma blank_corpus_lists {U : UnicodeDB} (corpus : list str) :
  (forall s, In s corpus -> blank s = true) ->
  flat_map split_sentences corpus = []
  /\ flat_map get_words corpus = []
  /\ (forall n, flat_map (fun sample => extract_ngrams (get_words sample) (S n))
                  corpus = [])
  /\ (forall m, flat_map (excerpt_of m) corpus = []).
Proof.
  intros Each.
  assert (W : forall s, In s corpus -> get_words s = []).
  { intros s Hs; unfold get_words, findall_words.
    rewrite findall_runs_none; [reflexivity|].
    specialize (Each s Hs); unfold blank in Each.
    rewrite forallb_forall in *; intros c Hc.
    rewrite (space_not_word c (Each c Hc)); reflexivity. }
  split; [|split; [|split]].
  - apply flat_map_all_nil; intros s Hs.
    apply split_sentences_blank, Each, Hs.
  - apply flat_map_all_nil; exact W.
  - intros n; apply flat_map_all_nil; intros s Hs.
    rewrite (W s Hs); reflexivity.
  - intros m; apply flat_map_all_nil; intros s Hs.
    unfold excerpt_of; rewrite (split_sentences_blank s (Each s Hs)).
    reflexivity.
Qed.

(** X15.  A corpus without text (no sample, or samples of white space
    only, the ideographic space apart) gets one fixed profile: the default
    metrics, no phrase, word, starter, transition word or excerpt, and the
    two prose fields with the clauses of a writer of short sentences, few
    words and no contractions. *)
Theorem blank_corpus_profile {U : UnicodeDB} {H : HashSeed} {B64 : Binary64}
    (corpus : list str) :
  forallb plain_blank corpus = true ->
  analyze corpus = blank_profile.
Proof.
  intros A.
  assert (Each : forall s, In s corpus -> blank s = true).
  { intros s Hs; rewrite forallb_forall in A.
    apply plain_blank_blank, A, Hs. }
  destruct (blank_corpus_lists corpus Each) as (Es & Ew & Eg & Ee).
  pose proof (blank_corpus_defaults corpus A) as M.
  unfold analyze, analyze_method in *; cbn [metrics] in M.
  pose proof (f_equal sentence_metrics M) as M1.
  pose proof (f_equal question_metrics M) as M2.
  pose proof (f_equal formatting_metrics M) as M3.
  pose proof (f_equal vocabulary_metrics M) as M4.
  pose proof (f_equal punctuation_metrics M) as M5.
  pose proof (f_equal rhythm_metrics M) as M6.
  cbn [sentence_metrics question_metrics formatting_metrics
       vocabulary_metrics punctuation_metrics rhythm_metrics] in M1, M2, M3,
    M4, M5, M6.
  clear M.
  unfold blank_profile, default_metrics; f_equal.
  - rewrite M1, M2, M3, M4, M5, M6; reflexivity.
  - unfold extract_signature_phrases, trigram_counts, bigram_counts,
      all_ngrams; cbn [samples StyleAnalyzer_init].
    rewrite !Eg; reflexivity.
  - unfold extract_vocabulary_preferences; cbn [all_words StyleAnalyzer_init].
    rewrite Ew; reflexivity.
  - unfold extract_sentence_starters; cbn [all_sentences StyleAnalyzer_init].
    rewrite Es; reflexivity.
  - unfold extract_transition_words; cbn [all_words StyleAnalyzer_init].
    rewrite Ew; vm_compute; reflexivity.
  - unfold describe_formatting_style; rewrite M1, M3; vm_compute; reflexivity.
  - unfold extract_sample_excerpts; cbn [samples StyleAnalyzer_init].
    rewrite Ee; reflexivity.
  - unfold generate_style_summary.
    rewrite M1, M2, M3, M4, M5, M6; vm_compute; reflexivity.
Qed.

(** * Further properties of the metrics *)

Lemma split_on_length (sep : char) (s : str) :
  forall acc, 1 <= length (split_on sep acc s).
Proof.
  induction s as [|c r IH]; intros acc; simpl; [lia|].
  destruct (N.eqb c sep); [simpl; lia | apply IH].
Qed.

Lemma split_on_blank (sep : char) (s : str) :
  forall acc line,
    blank s = true -> blank acc = true ->
    In line (split_on sep acc s) -> blank line = true.
Proof.
  induction s as [|c r IH]; intros acc line Bs Ba Hl; simpl in Hl.
  - destruct Hl as [<- | []]; apply blank_rev; exact Ba.
  - unfold blank in Bs; cbn [forallb] in Bs.
    apply andb_true_iff in Bs; destruct Bs as [Bc Br].
    destruct (N.eqb c sep).
    + destruct Hl as [<- | Hl]; [apply blank_rev; exact Ba|].
      exact (IH [] line Br eq_refl Hl).
    + apply (IH (c :: acc) line Br); [|exact Hl].
      unfold blank; cbn [forallb]; rewrite Bc; exact Ba.
Qed.

Lemma join_blank (corpus : list str) :
  (forall s, In s corpus -> blank s = true) ->
  blank (join [10%N; 10%N] corpus) = true.
Proof.
  induction corpus as [|x [|y r] IH]; intros A; [reflexivity | |].
  - apply A; left; reflexivity.
  - change (join [10%N; 10%N] (x :: y :: r))
      with (x ++ [10%N; 10%N] ++ join [10%N; 10%N] (y :: r)).
    rewrite !blank_app, (A x (or_introl eq_refl)).
    rewrite IH by (intros s Hs; apply A; right; exact Hs).
    reflexivity.
Qed.

Lemma count_if_none (A : Type) (p : A -> bool) (l : list A) :
  (forall x, In x l -> p x = false) -> count_if p l = 0.
Proof.
  unfold count_if; induction l as [|x l IH]; intros E; [reflexivity|].
  simpl; rewrite (E x (or_introl eq_refl)).
  apply IH; intros y Hy; apply E; right; exact Hy.
Qed.

Lemma py_round_zero (d : positive) (ndigits : nat) :
  py_round (0 # d) ndigits = 0%Q.
Proof. reflexivity. Qed.

Lemma list_item_blank {U : UnicodeDB} (line : str) :
  blank line = true -> list_item line = false.
Proof.
  intros B; unfold list_item; rewrite (strip_blank line B); reflexivity.
Qed.

(** X16.  The bullet fields follow the lines of the combined text for
    every corpus: the text has at least one line, [uses_bullet_points]
    tells whether some line is a bullet or a numbered item, and
    [bullet_frequency] is the rounded share of such lines.  The early
    return for a corpus without paragraphs changes nothing, since such a
    corpus has no such line. *)
Theorem bullet_fields_follow_lines {U : UnicodeDB} {H : HashSeed}
    (corpus : list str) :
  let self := StyleAnalyzer_init corpus in
  let lines := split_on 10%N [] (combined_text self) in
  let bullet_lines := count_if list_item lines in
  1 <= length lines
  /\ uses_bullet_points (analyze_formatting self) = Nat.ltb 0 bullet_lines
  /\ bullet_frequency (analyze_formatting self)
     = py_round (py_div bullet_lines (length lines)) 3.
Proof.
  cbv zeta; cbn [combined_text StyleAnalyzer_init].
  pose proof (split_on_length 10%N (join [10%N; 10%N] corpus) []) as L.
  split; [exact L|].
  unfold analyze_formatting; cbn [all_paragraphs combined_text StyleAnalyzer_init].
  destruct (flat_map split_paragraphs corpus) as [|p ps] eqn:Ep.
  - assert (Each : forall s, In s corpus -> blank s = true).
    { intros s Hs; apply split_paragraphs_nil_blank.
      exact (flat_map_nil _ _ _ _ Ep s Hs). }
    rewrite count_if_none.
    + split; reflexivity.
    + intros line Hl; apply list_item_blank.
      apply (split_on_blank 10%N _ [] line (join_blank corpus Each) eq_refl Hl).
  - cbn [uses_bullet_points bullet_frequency].
    replace (Nat.max (length (split_on 10%N [] (join [10%N; 10%N] corpus))) 1)
      with (length (split_on 10%N [] (join [10%N; 10%N] corpus))) by lia.
    split; reflexivity.
Qed.

Lemma join_head_length (sep s : str) (l : list str) :
  length s <= length (join sep (s :: l)).
Proof.
  destruct l as [|y l]; [simpl; lia|].
  change (join sep (s :: y :: l)) with (s ++ sep ++ join sep (y :: l)).
  rewrite length_app; lia.
Qed.

(** X17.  A sample gives no excerpt exactly when it has no sentence or
    its first sentence alone is longer than [max_length]: sentences that
    would fit are not tried once the first does not. *)
Theorem sample_without_excerpt (max_length : nat) (sample : str) :
  excerpt_of max_length sample = []
  <-> match split_sentences sample with
      | [] => True
      | s :: _ => max_length < length s
      end.
Proof.
  destruct (excerpt_of_spec max_length sample)
    as [(e & Ee & k & Hk & Hkl & Ej & Hlen & _) | [E M]].
  - rewrite Ee; split; [discriminate|].
    destruct (split_sentences sample) as [|s l]; [simpl in Hkl; lia|].
    intros Hs; exfalso.
    destruct k as [|k]; [lia|].
    change (firstn (S k) (s :: l)) with (s :: firstn k l) in Ej.
    pose proof (join_head_length (lit " ") s (firstn k l)) as Hj.
    rewrite <- Ej in Hj; lia.
  - rewrite E; split; [intros _; exact M | reflexivity].
Qed.

Lemma round_half_even_nonneg (n : Z) (d : positive) :
  (0 <= n)%Z -> (0 <= round_half_even (n # d))%Z.
Proof.
  intros Hn; unfold round_half_even; simpl Qnum; simpl Qden.
  assert (Hf : (0 <= n / Zpos d)%Z) by (apply Z.div_pos; lia).
  destruct (2 * (n mod Zpos d) <? Zpos d)%Z; [exact Hf|].
  destruct (Zpos d <? 2 * (n mod Zpos d))%Z; [lia|].
  destruct (Z.even (n / Zpos d)); lia.
Qed.

Lemma py_round_nonneg (q : Q) (ndigits : nat) :
  (0 <= q)%Q -> (0 <= py_round q ndigits)%Q.
Proof.
  unfold py_round; intros H0; rewrite Qred_correct.
  destruct q as [n d]; unfold Qle in *; simpl in H0.
  change ((n # d) * inject_Z (Zpos (pow10 ndigits)))%Q
    with (Qmake (n * Zpos (pow10 ndigits)) (d * 1)).
  simpl Qnum; simpl Qden; rewrite Z.mul_1_r.
  apply round_half_even_nonneg; nia.
Qed.

Lemma py_div_nonneg (a b : nat) : (0 <= py_div a b)%Q.
Proof. unfold py_div, Qle; simpl; lia. Qed.

Lemma ratio_nonneg (a b : nat) (ndigits : nat) :
  (0 <= py_round (py_div a b) ndigits)%Q.
Proof. apply py_round_nonneg, py_div_nonneg. Qed.

Lemma percent_nonneg (a b : nat) (ndigits : nat) :
  (0 <= py_round (py_div a b * 100) ndigits)%Q.
Proof.
  apply py_round_nonneg, Qmult_le_0_compat; [apply py_div_nonneg|].
  discriminate.
Qed.

Lemma surd_round_nonneg (s : Surd) (ndigits : nat) :
  (0 <= surd_round s ndigits)%Q.
Proof.
  unfold surd_round; rewrite Qred_correct; unfold Qle; simpl.
  rewrite Z.mul_1_r; apply Z.div_pos; [|lia].
  match goal with
  | |- (0 <= Z.sqrt ?x + 1)%Z => pose proof (Z.sqrt_nonneg x); lia
  end.
Qed.

(** X18.  No numeric field of the metrics is negative, whatever the
    analyzer holds. *)
Theorem numeric_fields_nonnegative {U : UnicodeDB} {H : HashSeed}
    {B64 : Binary64} (self : StyleAnalyzer) :
  Forall (fun q => (0 <= q)%Q) (numeric_fields (metrics (analyze_method self))).
Proof.
  unfold numeric_fields, analyze_method;
    cbn [metrics sentence_metrics question_metrics formatting_metrics
         vocabulary_metrics punctuation_metrics rhythm_metrics].
  assert (Z0 : (0 <= 0)%Q) by discriminate.
  unfold analyze_sentence_structure, analyze_questions_hooks,
    analyze_formatting, analyze_vocabulary, analyze_punctuation_emoji,
    analyze_rhythm.
  destruct (all_sentences self) as [|s ss];
    destruct (all_paragraphs self) as [|p ps];
    destruct (all_words self) as [|w ws];
    cbn [avg_sentence_length sentence_length_std short_sentence_ratio
         long_sentence_ratio question_ratio exclamation_ratio
         avg_paragraph_length bullet_frequency vocabulary_richness
         avg_word_length contraction_ratio emoji_frequency
         ellipsis_frequency dash_frequency parenthetical_frequency
         opens_with_short_sentence];
    repeat (apply Forall_cons;
            [lazymatch goal with
             | |- (0 <= py_round (py_div _ _ * 100) _)%Q =>
                 apply percent_nonneg
             | |- (0 <= py_round _ _)%Q => apply py_round_nonneg, py_div_nonneg
             | |- (0 <= surd_round _ _)%Q => apply surd_round_nonneg
             | |- _ => exact Z0
             end|]);
    apply Forall_nil.
Qed.

(** * Splitting a sentence again *)

Lemma collapse_ws_id (s : str) :
  forall b,
    single_spaced s = true -> (b = true -> no_lead s) ->
    collapse_ws b s = s.
Proof.
  induction s as [|c r IH]; intros b Hs Hb; [reflexivity|].
  cbn [single_spaced] in Hs; apply andb_true_iff in Hs.
  destruct Hs as [Hc Hr]; cbn [collapse_ws].
  destruct (is_space c) eqn:Ec.
  - apply andb_true_iff in Hc; destruct Hc as [E32 Hd].
    apply N.eqb_eq in E32; subst c.
    destruct b; [specialize (Hb eq_refl); simpl in Hb; congruence|].
    rewrite (IH true Hr); [reflexivity|].
    intros _; destruct r as [|d r']; [exact I|].
    simpl; apply negb_true_iff in Hd; exact Hd.
  - rewrite (IH false Hr); [reflexivity | discriminate].
Qed.

Lemma single_spaced_In (s : str) (c : char) :
  single_spaced s = true -> In c s -> is_space c = true -> c = 32%N.
Proof.
  induction s as [|x r IH]; intros Hs Hc Ec; [destruct Hc|].
  cbn [single_spaced] in Hs; apply andb_true_iff in Hs.
  destruct Hs as [Hx Hr]; destruct Hc as [-> | Hc]; [|exact (IH Hr Hc Ec)].
  rewrite Ec in Hx; apply andb_true_iff in Hx; destruct Hx as [E _].
  apply N.eqb_eq in E; exact E.
Qed.

Lemma lstrip_app_visible (t post : str) :
  blank t = false -> lstrip (t ++ post) = lstrip t ++ post.
Proof.
  induction t as [|c r IH]; intros B; [discriminate|].
  unfold blank in B; cbn [forallb] in B; cbn [lstrip app].
  destruct (is_space c); [apply IH; exact B | reflexivity].
Qed.

(** A gap that the text after [t] does not complete is no gap in [t]
    alone, when [t] holds a character that is not white space. *)
Lemma sentence_gap_alone (x : char) (t post : str) :
  blank t = false ->
  sentence_gap (Some x) (t ++ post) = None ->
  sentence_gap (Some x) t = None.
Proof.
  intros B; unfold sentence_gap.
  destruct (sentence_end (Some x)); [|reflexivity].
  destruct t as [|c r]; [discriminate|].
  cbn [app]; destruct (is_space c); [|reflexivity].
  change (c :: r ++ post) with ((c :: r) ++ post).
  rewrite (lstrip_app_visible (c :: r) post B).
  destruct (lstrip (c :: r)) as [|d t'] eqn:El.
  - apply lstrip_nil_blank in El; congruence.
  - cbn [app]; destruct (sentence_start d); [discriminate | reflexivity].
Qed.

Lemma stripped_tail_visible (s a t : str) :
  no_lead (rev s) -> s = a ++ t -> t <> [] -> blank t = false.
Proof.
  intros Hl E Ht; destruct (blank t) eqn:B; [|reflexivity].
  exfalso; apply blank_rev in B.
  rewrite E, rev_app_distr in Hl.
  destruct (rev t) as [|h r] eqn:Er.
  - apply (f_equal (@rev char)) in Er; rewrite rev_involutive in Er.
    simpl in Er; congruence.
  - simpl in Hl, B; rewrite Hl in B; discriminate.
Qed.

(** No piece of the sentence split holds a place where the pattern
    matches: the gaps inside it are not completed by the text after it. *)
Lemma split_sentence_re_clean (rest : str) :
  forall skip prev acc p,
    (0 < skip -> acc = []) ->
    (forall y acc', acc = y :: acc' -> prev = Some y) ->
    (forall a x c r, rev acc = a ++ x :: c :: r ->
                     sentence_gap (Some x) (c :: r ++ rest) = None) ->
    In p (split_sentence_re skip prev acc rest) ->
    exists post,
      forall a x c r, p = a ++ x :: c :: r ->
                      sentence_gap (Some x) (c :: r ++ post) = None.
Proof.
  induction rest as [|c rest IH]; intros skip prev acc p Hs Hprev Inv Hp.
  - assert (Empty : forall a x d r, [] = a ++ x :: d :: r ->
                      sentence_gap (Some x) (d :: r ++ []) = None).
    { intros a x d r E; destruct a; discriminate. }
    simpl in Hp; destruct (sentence_end prev).
    + destruct Hp as [<- | [<- | []]]; exists []; [exact Inv | exact Empty].
    + destruct Hp as [<- | []]; exists []; exact Inv.
  - assert (Fresh : forall k q,
               In q (split_sentence_re k (Some c) [] rest) ->
               exists post,
                 forall a x d r, q = a ++ x :: d :: r ->
                                 sentence_gap (Some x) (d :: r ++ post) = None).
    { intros k q Hq; apply (IH k (Some c) [] q); [auto | | | exact Hq].
      - intros y acc' E; discriminate.
      - intros a x d r E; destruct a; discriminate. }
    assert (Head : exists post,
               forall a x d r, rev acc = a ++ x :: d :: r ->
                               sentence_gap (Some x) (d :: r ++ post) = None).
    { exists (c :: rest); exact Inv. }
    cbn [split_sentence_re] in Hp; destruct skip as [|k].
    + destruct (sentence_gap prev (c :: rest)) as [n|] eqn:Eg.
      * destruct Hp as [<- | Hp]; [exact Head | exact (Fresh _ _ Hp)].
      * match type of Hp with
        | In _ (if ?b then _ else _) => destruct b
        end.
        -- destruct Hp as [<- | Hp]; [exact Head|].
           apply (IH 0 (Some c) [c] p); [lia | | | exact Hp].
           ++ intros y acc' E; injection E as <- _; reflexivity.
           ++ intros a x d r E; destruct a as [|? [|? ?]]; discriminate.
        -- apply (IH 0 (Some c) (c :: acc) p); [lia | | | exact Hp].
           ++ intros y acc' E; injection E as <- _; reflexivity.
           ++ intros a x d r E; cbn [rev] in E.
              assert (E' : rev acc ++ [c] = (a ++ [x]) ++ d :: r)
                by (rewrite <- app_assoc; exact E).
              apply snoc_eq_app_cons in E'.
              destruct E' as [(-> & Ea & <-) | (r' & -> & Ea)].
              ** assert (Hx : prev = Some x).
                 { destruct acc as [|y acc'].
                   - destruct a; discriminate.
                   - rewrite (Hprev y acc' eq_refl); f_equal.
                     cbn [rev] in Ea; apply app_inj_tail in Ea; tauto. }
                 rewrite <- Hx; exact Eg.
              ** rewrite <- app_assoc in Ea.
                 rewrite <- app_assoc; exact (Inv a x d r' Ea).
    + rewrite (Hs ltac:(lia)) in *; exact (Fresh _ _ Hp).
Qed.

(** A text without a newline and without a place where the first
    alternative matches is split at its end only, and only when it ends
    with [.], [!] or [?]. *)
Lemma split_sentence_re_one (rest : str) :
  forall prev acc,
    (forall a c r, rest = a ++ c :: r ->
                   sentence_gap (fold_left (fun _ x => Some x) a prev)
                     (c :: r) = None) ->
    ~ In 10%N rest ->
    split_sentence_re 0 prev acc rest
    = if sentence_end (fold_left (fun _ x => Some x) rest prev)
      then [rev acc ++ rest; []] else [rev acc ++ rest].
Proof.
  induction rest as [|c rest IH]; intros prev acc Hg Hn.
  - cbn [split_sentence_re fold_left]; rewrite app_nil_r; reflexivity.
  - cbn [split_sentence_re fold_left].
    pose proof (Hg [] c rest eq_refl) as G0; cbn [fold_left] in G0.
    rewrite G0.
    assert (D : at_dollar (c :: rest) = false).
    { destruct rest; [|reflexivity].
      simpl; apply N.eqb_neq; intros ->; apply Hn; left; reflexivity. }
    rewrite D, andb_false_r.
    rewrite (IH (Some c) (c :: acc)).
    + cbn [rev]; rewrite <- app_assoc; reflexivity.
    + intros a d r E; apply (Hg (c :: a) d r); rewrite E; reflexivity.
    + intros Hin; apply Hn; right; exact Hin.
Qed.

Lemma split_sentences_one (s : str) :
  stripped s -> single_spaced s = true -> 2 <= length s ->
  (forall a x c r, s = a ++ x :: c :: r ->
                   sentence_gap (Some x) (c :: r) = None) ->
  split_sentences s = [s].
Proof.
  intros St Ss Hl Hg; unfold split_sentences.
  rewrite (collapse_ws_id s false Ss) by discriminate.
  rewrite (strip_id s St).
  rewrite split_sentence_re_one.
  - assert (K : keep_sentence s = true).
    { unfold keep_sentence; rewrite (strip_id s St).
      destruct s as [|c r]; [simpl in Hl; lia|].
      apply Nat.ltb_lt; exact Hl. }
    destruct (sentence_end (fold_left (fun _ x => Some x) s None));
      cbn [rev app filter]; rewrite K; cbn [map];
      rewrite (strip_id s St); reflexivity.
  - intros a c r E.
    destruct a as [|x a' _] using rev_ind; [reflexivity|].
    rewrite fold_left_app; cbn [fold_left].
    apply (Hg a' x c r); rewrite E, <- app_assoc; reflexivity.
  - intros Hin.
    pose proof (single_spaced_In s 10%N Ss Hin eq_refl); discriminate.
Qed.

(** X19.  Splitting is idempotent on sentences as well: a sentence that
    [split_sentences] returned is split into itself alone. *)
Theorem split_sentences_idempotent (text s : str) :
  In s (split_sentences text) -> split_sentences s = [s].
Proof.
  intros Hs.
  pose proof (split_sentences_pieces text s Hs) as Sub.
  destruct (split_sentences_stripped text s Hs) as [St Ne].
  assert (Ss : single_spaced s = true).
  { apply (single_spaced_substring s (normalized text) Sub).
    apply (single_spaced_substring _ (collapse_ws false text));
      [apply substring_strip | apply collapse_ws_single_spaced]. }
  unfold split_sentences in Hs; rewrite in_map_iff in Hs.
  destruct Hs as (p & Ep & Hp); apply filter_In in Hp.
  destruct Hp as [Hp K].
  assert (Hl : 2 <= length s).
  { unfold keep_sentence in K; rewrite Ep in K.
    destruct s; [discriminate|]; apply Nat.ltb_lt in K; exact K. }
  apply (split_sentences_one s St Ss Hl).
  destruct (split_sentence_re_clean (strip (collapse_ws false text))
              0 None [] p) as (post & Clean);
    [lia | discriminate | | exact Hp |].
  { intros a x c r E; destruct a; discriminate. }
  destruct (strip_split p) as (pre & suf & Esplit & _ & _).
  rewrite Ep in Esplit.
  intros a x c r E.
  apply (sentence_gap_alone x (c :: r) (suf ++ post)).
  - apply (stripped_tail_visible s (a ++ [x]) (c :: r));
      [apply St | rewrite <- app_assoc; exact E | discriminate].
  - change ((c :: r) ++ suf ++ post) with (c :: r ++ suf ++ post).
    rewrite app_assoc.
    apply (Clean (pre ++ a) x c (r ++ suf)).
    rewrite Esplit, E, <- !app_assoc; reflexivity.
Qed.

(** * Signature phrases are distinct *)

Lemma count_if_eqb_In (A : Type) (eqb : A -> A -> bool)
    (eqb_eq : forall a b, eqb a b = true <-> a = b) (l : list A) (x : A) :
  1 <= count_if (eqb x) l -> In x l.
Proof.
  unfold count_if; intros Hc.
  destruct (filter (eqb x) l) as [|y f] eqn:E; [simpl in Hc; lia|].
  assert (Hy : In y (filter (eqb x) l)) by (rewrite E; left; reflexivity).
  apply filter_In in Hy; destruct Hy as [Hy Ey].
  apply eqb_eq in Ey; subst; exact Hy.
Qed.

Lemma extract_ngrams_In (words g : list str) (n : nat) :
  In g (extract_ngrams words n) -> length g = n /\ incl g words.
Proof.
  unfold extract_ngrams; intros Hg; apply in_map_iff in Hg.
  destruct Hg as (i & <- & Hi); apply in_seq in Hi; split.
  - rewrite length_firstn, length_skipn; lia.
  - intros w Hw; apply firstn_In in Hw.
    rewrite <- (firstn_skipn i words); apply in_or_app; right; exact Hw.
Qed.

(** Where a space follows two strings without a space, the strings are
    the same and so is what follows them. *)
Lemma app_space_inj (x x' t t' : str) :
  existsb (N.eqb 32) x = false -> existsb (N.eqb 32) x' = false ->
  x ++ 32%N :: t = x' ++ 32%N :: t' -> x = x' /\ t = t'.
Proof.
  revert x'; induction x as [|c x IH]; intros [|c' x'] Hx Hx' E;
    cbn [existsb app] in *.
  - injection E as ->; auto.
  - injection E as <- _; rewrite N.eqb_refl in Hx'; discriminate.
  - injection E as -> _; rewrite N.eqb_refl in Hx; discriminate.
  - apply orb_false_iff in Hx, Hx'.
    injection E as <- E; destruct (IH x' (proj2 Hx) (proj2 Hx') E) as [-> ->].
    auto.
Qed.

Lemma join_space_inj (g : list str) :
  forall g',
    length g = length g' ->
    Forall (fun w => existsb (N.eqb 32) w = false) g ->
    Forall (fun w => existsb (N.eqb 32) w = false) g' ->
    join (lit " ") g = join (lit " ") g' -> g = g'.
Proof.
  induction g as [|x g IH]; intros [|x' g'] Hl Fg Fg' E;
    try discriminate; [reflexivity|].
  destruct g as [|y r]; destruct g' as [|y' r']; try discriminate;
    [simpl in E; congruence|].
  change (join (lit " ") (x :: y :: r))
    with (x ++ 32%N :: join (lit " ") (y :: r)) in E.
  change (join (lit " ") (x' :: y' :: r'))
    with (x' ++ 32%N :: join (lit " ") (y' :: r')) in E.
  inversion Fg as [|? ? Hx Fr]; inversion Fg' as [|? ? Hx' Fr']; subst.
  destruct (app_space_inj _ _ _ _ Hx Hx' E) as [-> Et].
  f_equal; apply IH; [simpl in *; lia | exact Fr | exact Fr' | exact Et].
Qed.

Lemma add_new_NoDup (l : list str) :
  forall phrases, NoDup phrases -> NoDup (fold_left add_new l phrases).
Proof.
  induction l as [|x l IH]; intros P HP; [exact HP|].
  cbn [fold_left]; apply IH; unfold add_new.
  destruct (str_in x P) eqn:E; [exact HP|]; cbn [negb].
  apply NoDup_app; [exact HP | repeat constructor; intros [] |].
  intros y Hy [Ey | []]; subst y.
  apply (proj2 (str_in_In x P)) in Hy; congruence.
Qed.

Section DistinctPhrases.
Context {U : UnicodeDB} {H : HashSeed}.
Variable corpus : list str.
Hypothesis ascii_corpus : forallb (forallb is_ascii) corpus = true.

Lemma ngram_words_no_space (n : nat) (g : list str) :
  In g (all_ngrams (StyleAnalyzer_init corpus) n) ->
  length g = n /\ Forall (fun w => existsb (N.eqb 32) w = false) g.
Proof.
  unfold all_ngrams; cbn [samples StyleAnalyzer_init]; intros Hg.
  apply in_flat_map in Hg; destruct Hg as (sample & Hs & Hg).
  apply extract_ngrams_In in Hg; destruct Hg as [Hl Hi].
  split; [exact Hl|]; apply Forall_forall; intros w Hw.
  apply lower_word_char_no_space.
  pose proof ascii_corpus as A; rewrite forallb_forall in A.
  exact (proj2 (get_words_ascii_lower sample w (A sample Hs) (Hi w Hw))).
Qed.

Lemma qualifying_trigrams_distinct (k : nat) :
  NoDup (map phrase_of
           (firstn k (filter qualifies
                        (most_common 50
                           (trigram_counts (StyleAnalyzer_init corpus)))))).
Proof.
  apply NoDup_map_NoDup_ForallPairs.
  - intros [g n] [g' n'] Hg Hg'; unfold phrase_of; cbn [fst]; intros E.
    assert (Key : forall x m,
               In (x, m) (firstn k (filter qualifies
                            (most_common 50
                               (trigram_counts (StyleAnalyzer_init corpus)))))
               -> m = count_if (list_eqb str_eqb x)
                        (all_ngrams (StyleAnalyzer_init corpus) 3)
                  /\ length x = 3
                  /\ Forall (fun w => existsb (N.eqb 32) w = false) x).
    { intros x m Hx; apply firstn_In in Hx; apply filter_In in Hx.
      destruct Hx as [Hx Q].
      pose proof (most_common_count _ _ gram_eqb_eq 50 _ x m Hx) as C.
      split; [exact C|]; apply ngram_words_no_space.
      apply (count_if_eqb_In _ _ gram_eqb_eq).
      unfold qualifies in Q; cbn [snd] in Q.
      apply andb_true_iff in Q; destruct Q as [Q _].
      apply Nat.leb_le in Q; lia. }
    destruct (Key g n Hg) as (C & L & F).
    destruct (Key g' n' Hg') as (C' & L' & F').
    assert (Eg : g = g')
      by (apply join_space_inj; [congruence | exact F | exact F' | exact E]).
    subst g'; congruence.
  - apply NoDup_firstn.
    apply (NoDup_map_inv fst).
    apply NoDup_keys_filter, NoDup_keys_most_common.
    apply Counter_NoDup, gram_eqb_eq.
Qed.

End DistinctPhrases.

(** X20.  On an ASCII corpus no signature phrase is returned twice: the
    trigrams taken are distinct, since their words hold no space, and a
    bigram is added only when its phrase is not yet in the list. *)
Theorem signature_phrases_distinct {U : UnicodeDB} {H : HashSeed}
    (corpus : list str) (top_n : nat) :
  forallb (forallb is_ascii) corpus = true ->
  NoDup (extract_signature_phrases (StyleAnalyzer_init corpus) top_n).
Proof.
  intros A; unfold extract_signature_phrases.
  rewrite bigram_loop_closed, trigram_loop_closed by (right; reflexivity).
  apply NoDup_firstn, add_new_NoDup.
  cbn [app]; apply (qualifying_trigrams_distinct corpus A).
Qed.

(** * The further properties at concrete inputs *)

(** X1 at the second sentence of the example of the specification, with
    a newline and a double space before it. *)
Lemma split_sentences_wellformed_witness :
  let text := lit "I love this." ++ 10%N :: lit "  Don't you? It's amazing!!" in
  let s := lit "Don't you?" in
  In s (split_sentences text)
  /\ substring s (normalized text)
  /\ 2 <= length s
  /\ stripped s
  /\ single_spaced s = true.
Proof.
  cbv zeta.
  assert (Hin : In (lit "Don't you?")
                  (split_sentences
                     (lit "I love this."
                      ++ 10%N :: lit "  Don't you? It's amazing!!")))
    by (vm_compute; auto 10).
  split; [exact Hin|].
  exact (split_sentences_wellformed _ _ Hin).
Defined.

(** X2 at a text of three words and no terminator. *)
Lemma split_sentences_without_terminator_witness :
  no_terminator (lit "  no end   here ") = true
  /\ split_sentences (lit "  no end   here ") = [lit "no end here"].
Proof.
  split; [reflexivity|].
  exact (split_sentences_without_terminator (lit "  no end   here ")
           eq_refl).
Defined.

(** X4 at the second of two paragraphs. *)
Lemma split_paragraphs_idempotent_witness :
  let text := lit "First one." ++ 10%N :: 10%N :: lit "Second one. " in
  In (lit "Second one.") (split_paragraphs text)
  /\ split_paragraphs (lit "Second one.") = [lit "Second one."].
Proof.
  cbv zeta.
  assert (Hin : In (lit "Second one.")
                  (split_paragraphs
                     (lit "First one." ++ 10%N :: 10%N :: lit "Second one. ")))
    by (vm_compute; auto 10).
  split; [exact Hin|].
  exact (split_paragraphs_idempotent _ _ Hin).
Defined.

(** X8 at a text with capitals, an apostrophe and digits. *)
Lemma get_words_ascii_tokens_witness :
  forallb is_ascii (lit "Don't STOP at 42") = true
  /\ Forall (fun w => w <> [] /\ forallb lower_word_char w = true)
       (@get_words ascii_db (lit "Don't STOP at 42")).
Proof.
  split; [reflexivity|].
  exact (@get_words_ascii_tokens ascii_db (lit "Don't STOP at 42") eq_refl).
Defined.

(** X11 at the three samples that hold the phrases [in fact],
    [for example] and [here's the thing]. *)
Lemma transition_words_never_phrases_witness :
  forallb (forallb is_ascii) phrase_corpus = true
  /\ (let found :=
        extract_transition_words
          (@StyleAnalyzer_init ascii_db phrase_corpus) 10 in
      Forall (fun w => forallb lower_word_char w = true) found
      /\ Forall (fun phrase => ~ In phrase found) multi_word_candidates).
Proof.
  split; [reflexivity|].
  exact (@transition_words_never_phrases ascii_db phrase_corpus 10 eq_refl).
Defined.

(** X15 at a corpus of an empty sample and a sample of spaces and a
    newline. *)
Lemma blank_corpus_profile_witness :
  forallb plain_blank [[]; 32%N :: 10%N :: lit "  "] = true
  /\ @analyze ascii_db seed_first ideal_float [[]; 32%N :: 10%N :: lit "  "]
     = blank_profile.
Proof.
  split; [reflexivity|].
  exact (@blank_corpus_profile ascii_db seed_first ideal_float
           [[]; 32%N :: 10%N :: lit "  "] eq_refl).
Defined.

(** X19 at the last sentence of the example of the specification. *)
Lemma split_sentences_idempotent_witness :
  let text := lit "I love this. Don't you? It's amazing!!" in
  In (lit "It's amazing!!") (split_sentences text)
  /\ split_sentences (lit "It's amazing!!") = [lit "It's amazing!!"].
Proof.
  cbv zeta.
  assert (Hin : In (lit "It's amazing!!")
                  (split_sentences
                     (lit "I love this. Don't you? It's amazing!!")))
    by (vm_compute; auto 10).
  split; [exact Hin|].
  exact (split_sentences_idempotent _ _ Hin).
Defined.

(** X20 at a sample whose trigram and bigram both qualify. *)
Lemma signature_phrases_distinct_witness :
  forallb (forallb is_ascii) [lit "at the end at the end"] = true
  /\ NoDup (@extract_signature_phrases ascii_db seed_first
              (@StyleAnalyzer_init ascii_db [lit "at the end at the end"])
              10).
Proof.
  split; [reflexivity|].
  exact (@signature_phrases_distinct ascii_db seed_first
           [lit "at the end at the end"] 10 eq_refl).
Defined.

